(** * Paper Tactics: the game-state engine of [paper_tactics/entities/game.py]

    A shallow embedding of the [Game] dataclass and its methods.  Python sets of
    cells are finite sets ([gset]) with extensional equality, integers are [Z],
    the in-place mutation of [self] and of the two player objects is explicit
    state passing, and exceptions are values of [Outcome].  [get_view], which
    hands objects of the game to a mutating call, is modelled a second time
    on a store of objects with references ([Store]), and shown there to
    write into no object of the game and to compute the view of the model on
    values. *)

From stdpp Require Import gmap strings list fin_sets.

Set Warnings "-clear-no-such-hyp".

Open Scope Z_scope.

(** ** Data model *)

(** [Cell] is a pair of integer coordinates. *)
Abbreviation Cell := (Z * Z)%type.

(** The exceptions the engine can leave a call with. *)
Inductive Exception :=
  | IllegalTurnException (game_id player_id : string) (cell : Cell)
  | AssertionError
  | ValueError.

Inductive Outcome (A : Type) :=
  | Return (a : A)
  | Raise (e : Exception).
Arguments Return {A} a.
Arguments Raise {A} e.

#[global] Instance Exception_eq_dec : EqDecision Exception.
Proof. solve_decision. Defined.

(** [GamePreferences], [Player], [PlayerView] and [GameView] are imported by
    [game.py] from modules that are not among the sources; the records below
    have the fields [game.py] reads, writes or passes to their constructors. *)
Module GamePreferences.
Record t := mk {
  size : Z;
  turn_count : Z;
  is_visibility_applied : bool;
  is_against_bot : bool;
  trench_density_percent : Z;
  is_double_base : bool;
  is_with_random_bases : bool;
  is_deathmatch : bool;
}.

Definition with_turn_count (n : Z) (p : t) : t :=
  mk (size p) n (is_visibility_applied p) (is_against_bot p)
     (trench_density_percent p) (is_double_base p) (is_with_random_bases p)
     (is_deathmatch p).

(** Modelled from the spec: [get_symmetric_cell] belongs to the preferences
    class, which is not among the sources; the spec describes it as the
    point-symmetric mirror of a cell on a board of the given size.  Cells are
    numbered from 1 to [size] on both axes (the bases sit in columns [1] and
    [size]). *)
Definition get_symmetric_cell (p : t) (cell : Cell) : Cell :=
  (size p - cell.1 + 1, size p - cell.2 + 1).

#[global] Instance eq_dec : EqDecision t.
Proof. solve_decision. Defined.
End GamePreferences.

Module Player.
Record t := mk {
  id : string;
  units : gset Cell;
  walls : gset Cell;
  reachable : gset Cell;
  visible_opponent : gset Cell;
  visible_terrain : gset Cell;
  view_data : gmap string string;
  is_gone : bool;
  is_defeated : bool;
}.

Definition with_units (s : gset Cell) (p : t) : t :=
  mk (id p) s (walls p) (reachable p) (visible_opponent p) (visible_terrain p)
     (view_data p) (is_gone p) (is_defeated p).
Definition with_walls (s : gset Cell) (p : t) : t :=
  mk (id p) (units p) s (reachable p) (visible_opponent p) (visible_terrain p)
     (view_data p) (is_gone p) (is_defeated p).
Definition with_reachable (s : gset Cell) (p : t) : t :=
  mk (id p) (units p) (walls p) s (visible_opponent p) (visible_terrain p)
     (view_data p) (is_gone p) (is_defeated p).
Definition with_visible_opponent (s : gset Cell) (p : t) : t :=
  mk (id p) (units p) (walls p) (reachable p) s (visible_terrain p)
     (view_data p) (is_gone p) (is_defeated p).
Definition with_visible_terrain (s : gset Cell) (p : t) : t :=
  mk (id p) (units p) (walls p) (reachable p) (visible_opponent p) s
     (view_data p) (is_gone p) (is_defeated p).
Definition with_is_defeated (b : bool) (p : t) : t :=
  mk (id p) (units p) (walls p) (reachable p) (visible_opponent p)
     (visible_terrain p) (view_data p) (is_gone p) b.

(** Modelled from the spec: the [Player] class is not among the sources; the
    spec gives its derived property [can_win] as "not defeated". *)
Definition can_win (p : t) : bool := negb (is_defeated p).

(** [Player(units=..., walls=...)]: every other field takes its default,
    here empty sets and unset flags.  [get_view] reads only [reachable] of
    this player after a rebuild, which clears it first and never reads the
    other defaulted fields into it. *)
Definition of_units_walls (u w : gset Cell) : t :=
  mk "" u w ∅ ∅ ∅ ∅ false false.

#[global] Instance eq_dec : EqDecision t.
Proof. solve_decision. Defined.
End Player.

Module PlayerView.
Record t := mk {
  units : gset Cell;
  walls : gset Cell;
  reachable : gset Cell;
  view_data : gmap string string;
  is_gone : bool;
  is_defeated : bool;
}.
End PlayerView.

Module GameView.
Record t := mk {
  id : string;
  turns_left : Z;
  my_turn : bool;
  me : PlayerView.t;
  opponent : PlayerView.t;
  trenches : gset Cell;
  preferences : GamePreferences.t;
}.
End GameView.

Module Game.
Record t := mk {
  id : string;
  preferences : GamePreferences.t;
  turns_left : Z;
  active_player : Player.t;
  passive_player : Player.t;
  trenches : gset Cell;
}.

Definition with_preferences (p : GamePreferences.t) (g : t) : t :=
  mk (id g) p (turns_left g) (active_player g) (passive_player g) (trenches g).
Definition with_turns_left (n : Z) (g : t) : t :=
  mk (id g) (preferences g) n (active_player g) (passive_player g) (trenches g).
Definition with_active_player (p : Player.t) (g : t) : t :=
  mk (id g) (preferences g) (turns_left g) p (passive_player g) (trenches g).
Definition with_passive_player (p : Player.t) (g : t) : t :=
  mk (id g) (preferences g) (turns_left g) (active_player g) p (trenches g).
Definition with_trenches (s : gset Cell) (g : t) : t :=
  mk (id g) (preferences g) (turns_left g) (active_player g) (passive_player g) s.
End Game.

(** ** The random source

    [random.randint] is the only source of randomness.  The source is a stream
    of raw draws, [rs k] being the [k]-th one; [randint a b] maps the draw into
    the closed range [a..b], so every stream is an outcome and every value of
    the range is the outcome of some stream.  An empty range raises. *)
Definition RandomSource := nat → Z.

Definition rand_in (rs : RandomSource) (k : nat) (a b : Z) : Z :=
  a + rs k `mod` (b - a + 1).

Definition randint (rs : RandomSource) (k : nat) (a b : Z) : Outcome (Z * nat) :=
  if decide (a ≤ b) then Return (rand_in rs k a b, S k) else Raise ValueError.

(** The scripted opponent is a black box: the [i]-th call made on one
    [GameBot] object gets a view and the moves left, and answers with a cell. *)
Definition GameBot := nat → GameView.t → Z → Cell.

Section Engine.
(** [GamePreferences.get_adjacent_cells]: the board geometry, not among the
    sources; any function to a finite sequence of cells. *)
Variable get_adjacent_cells : GamePreferences.t → Cell → list Cell.

(** *** [_rebuild_reachable_set] *)

(** The body of the innermost [for cell in ...] loop: [st] is the player
    being rebuilt together with [new_sources]. *)
Definition visit_cell (prefs : GamePreferences.t) (trenches : gset Cell)
    (opponent : Player.t) (sources : gset Cell)
    (st : Player.t * gset Cell) (cell : Cell) : Player.t * gset Cell :=
  let '(player, new_sources) := st in
  let player :=
    if GamePreferences.is_visibility_applied prefs then
      let player :=
        Player.with_visible_opponent ({[cell]} ∪ Player.visible_opponent player) player in
      if decide (cell ∈ trenches) then
        Player.with_visible_terrain
          ({[GamePreferences.get_symmetric_cell prefs cell]} ∪
           ({[cell]} ∪ Player.visible_terrain player)) player
      else player
    else player in
  if decide (cell ∈ sources) then (player, new_sources)
  else if decide (cell ∈ Player.walls player) then (player, {[cell]} ∪ new_sources)
  else if decide ((cell ∉ Player.walls opponent) ∧ (cell ∉ Player.units player))
    then (Player.with_reachable ({[cell]} ∪ Player.reachable player) player, new_sources)
  else (player, new_sources).

(** The body of [for source in sources]. *)
Definition visit_source (prefs : GamePreferences.t) (trenches : gset Cell)
    (opponent : Player.t) (sources : gset Cell)
    (st : Player.t * gset Cell) (source : Cell) : Player.t * gset Cell :=
  foldl (visit_cell prefs trenches opponent sources) st
        (get_adjacent_cells prefs source).

(** One pass of the [while True] body up to the test of [new_sources]. *)
Definition frontier_pass (prefs : GamePreferences.t) (trenches : gset Cell)
    (opponent : Player.t) (player : Player.t) (sources : gset Cell)
    : Player.t * gset Cell :=
  foldl (visit_source prefs trenches opponent sources) (player, ∅)
        (elements sources).

(** The [while True] loop, run for at most [fuel] passes; [None] when the
    fuel is used up before the [break]. *)
Fixpoint frontier_loop (fuel : nat) (prefs : GamePreferences.t)
    (trenches : gset Cell) (opponent : Player.t) (player : Player.t)
    (sources : gset Cell) : option Player.t :=
  match fuel with
  | O => None
  | S fuel =>
      let '(player, new_sources) :=
        frontier_pass prefs trenches opponent player sources in
      if decide (new_sources = ∅) then Some player
      else frontier_loop fuel prefs trenches opponent player (sources ∪ new_sources)
  end.

(** The statements before the loop: clear [reachable], and under fog of war
    prune and refill [visible_opponent]. *)
Definition rebuild_prologue (prefs : GamePreferences.t) (trenches : gset Cell)
    (player opponent : Player.t) : Player.t :=
  let player := Player.with_reachable ∅ player in
  if GamePreferences.is_visibility_applied prefs then
    Player.with_visible_opponent
      (filter (λ cell, cell ∈ Player.units opponent ∨ cell ∈ Player.walls opponent)
              (Player.visible_opponent player)
       ∪ filter (λ cell, cell ∉ trenches) (Player.walls opponent))
      player
  else player.

(** [_rebuild_reachable_set(player, opponent)] mutates [player] only; the
    result is the new [player].  The loop gets one pass more than the player
    has walls, which always reaches the [break] (see
    [frontier_breaks] and [frontier_loop_at]), so the default is never taken. *)
Definition _rebuild_reachable_set (prefs : GamePreferences.t)
    (trenches : gset Cell) (player opponent : Player.t) : Player.t :=
  let player := rebuild_prologue prefs trenches player opponent in
  let sources := Player.units player in
  default player
    (frontier_loop (S (size (Player.walls player))) prefs trenches opponent
                   player sources).

(** The loop seen pass by pass, for stating how the frontier evolves:
    [loop_entry] is the state on entering [while True], [frontier_step] one
    pass followed by [sources.update(new_sources)], [frontier_at k] the
    state at the start of pass [k] (counted from 0) and [new_sources_at k]
    what that pass collects. *)
Definition loop_entry (prefs : GamePreferences.t) (trenches : gset Cell)
    (player opponent : Player.t) : Player.t * gset Cell :=
  let player := rebuild_prologue prefs trenches player opponent in
  (player, Player.units player).

Definition frontier_step (prefs : GamePreferences.t) (trenches : gset Cell)
    (opponent : Player.t) (st : Player.t * gset Cell) : Player.t * gset Cell :=
  let '(player, new_sources) :=
    frontier_pass prefs trenches opponent st.1 st.2 in
  (player, st.2 ∪ new_sources).

Definition frontier_at (k : nat) (prefs : GamePreferences.t)
    (trenches : gset Cell) (player opponent : Player.t) : Player.t * gset Cell :=
  Nat.iter k (frontier_step prefs trenches opponent)
           (loop_entry prefs trenches player opponent).

Definition sources_at (k : nat) (prefs : GamePreferences.t)
    (trenches : gset Cell) (player opponent : Player.t) : gset Cell :=
  (frontier_at k prefs trenches player opponent).2.

Definition new_sources_at (k : nat) (prefs : GamePreferences.t)
    (trenches : gset Cell) (player opponent : Player.t) : gset Cell :=
  let st := frontier_at k prefs trenches player opponent in
  (frontier_pass prefs trenches opponent st.1 st.2).2.

(** *** [_make_turn] *)

(** [_make_turn(cell, player, opponent)] mutates both player objects; the
    result is the new [(player, opponent)]. *)
Definition _make_turn (prefs : GamePreferences.t) (trenches : gset Cell)
    (cell : Cell) (player opponent : Player.t) : Player.t * Player.t :=
  let '(player, opponent) :=
    if decide (cell ∈ Player.units opponent) then
      let opponent := Player.with_units (Player.units opponent ∖ {[cell]}) opponent in
      let player := Player.with_walls ({[cell]} ∪ Player.walls player) player in
      let opponent := _rebuild_reachable_set prefs trenches opponent player in
      (player, opponent)
    else if decide (cell ∈ trenches) then
      let player := Player.with_walls ({[cell]} ∪ Player.walls player) player in
      let opponent :=
        Player.with_reachable (Player.reachable opponent ∖ {[cell]}) opponent in
      (player, opponent)
    else
      let player := Player.with_units ({[cell]} ∪ Player.units player) player in
      (player, opponent) in
  (_rebuild_reachable_set prefs trenches player opponent, opponent).

(** *** [get_view] *)

Definition player_view (p : Player.t) (units walls reachable : gset Cell)
    : PlayerView.t :=
  PlayerView.mk units walls reachable (Player.view_data p) (Player.is_gone p)
                (Player.is_defeated p).

(** [get_view(player_id)]: the outcome and the game as the call leaves it.
    The one mutating call in the body, [_rebuild_reachable_set], is made on
    the transient [visible_opponent] record, whose sets are fresh; that it
    reaches no object of the game is shown on [Store.get_view]. *)
Definition get_view (g : Game.t) (player_id : string)
    : Outcome GameView.t * Game.t :=
  if decide (player_id = Player.id (Game.active_player g)
             ∨ player_id = Player.id (Game.passive_player g)) then
    let '(me, opponent) :=
      if decide (player_id = Player.id (Game.active_player g))
      then (Game.active_player g, Game.passive_player g)
      else (Game.passive_player g, Game.active_player g) in
    let '(opponent_units, opponent_walls, opponent_reachable, trenches) :=
      if GamePreferences.is_visibility_applied (Game.preferences g)
         && Player.can_win me && Player.can_win opponent
      then
        let opponent_units := Player.units opponent ∩ Player.visible_opponent me in
        let opponent_walls := Player.walls opponent ∩ Player.visible_opponent me in
        let trenches := Game.trenches g ∩ Player.visible_terrain me in
        let visible_opponent := Player.of_units_walls opponent_units opponent_walls in
        let visible_opponent :=
          _rebuild_reachable_set (Game.preferences g) (Game.trenches g)
                                 visible_opponent me in
        (opponent_units, opponent_walls, Player.reachable visible_opponent, trenches)
      else
        (Player.units opponent, Player.walls opponent, Player.reachable opponent,
         Game.trenches g) in
    (Return
       (GameView.mk (Game.id g) (Game.turns_left g)
          (bool_decide (me = Game.active_player g))
          (player_view me (Player.units me) (Player.walls me) (Player.reachable me))
          (player_view opponent opponent_units opponent_walls opponent_reachable)
          trenches (Game.preferences g)),
     g)
  else (Raise AssertionError, g).

(** *** [_decrement_turns] *)

Definition increment_turn_count (g : Game.t) : Game.t :=
  Game.with_preferences
    (GamePreferences.with_turn_count
       (GamePreferences.turn_count (Game.preferences g) + 1) (Game.preferences g))
    g.

Definition reset_turns_left (g : Game.t) : Game.t :=
  Game.with_turns_left (GamePreferences.turn_count (Game.preferences g)) g.

(** The [for _ in range(turn_count)] loop over the bot's moves: [n]
    iterations are left and [i] calls were made on [game_bot] so far. *)
Fixpoint bot_round (game_bot : GameBot) (n i : nat) (g : Game.t)
    : Outcome unit * Game.t :=
  match n with
  | O => (Return tt, g)
  | S n =>
      if decide (Player.reachable (Game.passive_player g) = ∅) then
        (Return tt,
         Game.with_passive_player
           (Player.with_is_defeated true (Game.passive_player g)) g)
      else
        match get_view g (Player.id (Game.passive_player g)) with
        | (Raise e, g) => (Raise e, g)
        | (Return view, g) =>
            let cell := game_bot i view (Game.turns_left g) in
            if decide (cell ∈ Player.reachable (Game.passive_player g)) then
              let '(passive, active) :=
                _make_turn (Game.preferences g) (Game.trenches g) cell
                           (Game.passive_player g) (Game.active_player g) in
              let g := Game.with_passive_player passive
                         (Game.with_active_player active g) in
              bot_round game_bot n (S i)
                        (Game.with_turns_left (Game.turns_left g - 1) g)
            else (Raise AssertionError, g)
        end
  end.

(** The final [if] of [_decrement_turns]. *)
Definition mark_exhausted (g : Game.t) : Game.t :=
  if bool_decide (Player.reachable (Game.active_player g) = ∅)
     && negb (Player.is_defeated (Game.passive_player g))
  then Game.with_active_player
         (Player.with_is_defeated true (Game.active_player g)) g
  else g.

Definition _decrement_turns (game_bot : GameBot) (g : Game.t)
    : Outcome unit * Game.t :=
  let g := Game.with_turns_left (Game.turns_left g - 1) g in
  if decide (Game.turns_left g = 0) then
    let g :=
      if GamePreferences.is_deathmatch (Game.preferences g)
      then increment_turn_count g else g in
    let g := reset_turns_left g in
    if GamePreferences.is_against_bot (Game.preferences g) then
      match bot_round game_bot
              (Z.to_nat (GamePreferences.turn_count (Game.preferences g))) 0 g with
      | (Raise e, g) => (Raise e, g)
      | (Return _, g) =>
          let g :=
            if GamePreferences.is_deathmatch (Game.preferences g)
            then increment_turn_count g else g in
          let g := reset_turns_left g in
          (Return tt, mark_exhausted g)
      end
    else
      let g :=
        Game.with_passive_player (Game.active_player g)
          (Game.with_active_player (Game.passive_player g) g) in
      (Return tt, mark_exhausted g)
  else (Return tt, mark_exhausted g).

(** *** [make_turn] *)

Definition turn_is_illegal (g : Game.t) (player_id : string) (cell : Cell) : Prop :=
  player_id ≠ Player.id (Game.active_player g)
  ∨ cell ∉ Player.reachable (Game.active_player g)
  ∨ ¬ (Player.can_win (Game.active_player g) = true
       ∧ Player.can_win (Game.passive_player g) = true).

#[global] Instance turn_is_illegal_dec g player_id cell :
  Decision (turn_is_illegal g player_id cell).
Proof. unfold turn_is_illegal. apply _. Defined.

Definition make_turn (game_bot : GameBot) (g : Game.t) (player_id : string)
    (cell : Cell) : Outcome unit * Game.t :=
  if decide (turn_is_illegal g player_id cell) then
    (Raise (IllegalTurnException (Game.id g) player_id cell), g)
  else
    let '(active, passive) :=
      _make_turn (Game.preferences g) (Game.trenches g) cell
                 (Game.active_player g) (Game.passive_player g) in
    let g := Game.with_passive_player passive (Game.with_active_player active g) in
    _decrement_turns game_bot g.

(** *** [_init_players], [_generate_trenches], [init] *)

Definition add_unit (cell : Cell) (p : Player.t) : Player.t :=
  Player.with_units ({[cell]} ∪ Player.units p) p.

(** [k] is the number of draws made so far; both draws precede the first
    mutation, so a raised [ValueError] leaves the game as it was. *)
Definition _init_players (rs : RandomSource) (k : nat) (g : Game.t)
    : Outcome nat * Game.t :=
  let prefs := Game.preferences g in
  let edge := GamePreferences.size prefs in
  let first :=
    if GamePreferences.is_with_random_bases prefs
    then randint rs k 1 ((edge + 1) `div` 2) else Return (1, k) in
  match first with
  | Raise e => (Raise e, g)
  | Return (first_base_y, k) =>
      let second :=
        if GamePreferences.is_with_random_bases prefs
        then randint rs k (edge `div` 2 + 1) edge else Return (1, k) in
      match second with
      | Raise e => (Raise e, g)
      | Return (second_base_y, k) =>
          let active := add_unit (1, first_base_y) (Game.active_player g) in
          let passive :=
            add_unit (edge, edge - first_base_y + 1) (Game.passive_player g) in
          let '(active, passive) :=
            if GamePreferences.is_double_base prefs then
              (add_unit (1, second_base_y) active,
               add_unit (edge, edge - second_base_y + 1) passive)
            else (active, passive) in
          (Return k,
           Game.with_passive_player passive (Game.with_active_player active g))
      end
  end.

(** The body of the inner loop of [_generate_trenches]: [acc] is the cells
    yielded so far, in order, with the number of draws made.  The draw is made
    only when the three tests before it hold; its range [1..100] is never
    empty. *)
Definition trench_candidate (rs : RandomSource) (g : Game.t) (x : Z)
    (acc : list Cell * nat) (y : Z) : list Cell * nat :=
  let '(yielded, k) := acc in
  let size := GamePreferences.size (Game.preferences g) in
  let half := (size + 1) `div` 2 in
  if decide ((y < half - 1 ∨ x < half)
             ∧ ((x + 1, y + 1) ∉ Player.units (Game.active_player g))
             ∧ ((x + 1, y + 1) ∉ Player.units (Game.passive_player g))) then
    if decide (rand_in rs k 1 100
               ≤ GamePreferences.trench_density_percent (Game.preferences g))
    then (yielded ++ [(x + 1, y + 1); (size - x, size - y)], S k)
    else (yielded, S k)
  else (yielded, k).

Definition trench_column (rs : RandomSource) (g : Game.t)
    (acc : list Cell * nat) (x : Z) : list Cell * nat :=
  let size := GamePreferences.size (Game.preferences g) in
  let half := (size + 1) `div` 2 in
  foldl (trench_candidate rs g x) acc (seqZ 0 half).

(** The cells the generator yields, in order, and the draws made. *)
Definition _generate_trenches (rs : RandomSource) (k : nat) (g : Game.t)
    : list Cell * nat :=
  if decide (GamePreferences.trench_density_percent (Game.preferences g) = 0)
  then ([], k)
  else
    let size := GamePreferences.size (Game.preferences g) in
    foldl (trench_column rs g) ([], k) (seqZ 0 size).

Definition init (rs : RandomSource) (g : Game.t) : Outcome unit * Game.t :=
  if decide (Player.id (Game.active_player g) ≠ Player.id (Game.passive_player g))
  then
    match _init_players rs 0 g with
    | (Raise e, g) => (Raise e, g)
    | (Return k, g) =>
        let g := Game.with_trenches (list_to_set (_generate_trenches rs k g).1) g in
        let g :=
          Game.with_active_player
            (_rebuild_reachable_set (Game.preferences g) (Game.trenches g)
               (Game.active_player g) (Game.passive_player g)) g in
        let g :=
          Game.with_passive_player
            (_rebuild_reachable_set (Game.preferences g) (Game.trenches g)
               (Game.passive_player g) (Game.active_player g)) g in
        (Return tt, reset_turns_left g)
    end
  else (Raise AssertionError, g).

(** *** Reachable states *)

(** The states of a game: [init] on a newly constructed game (no units
    placed yet), then any number of [make_turn] calls that return. *)
Inductive game_reachable : Game.t → Prop :=
  | reachable_init rs g0 g :
      Player.units (Game.active_player g0) = ∅ →
      Player.units (Game.passive_player g0) = ∅ →
      init rs g0 = (Return tt, g) →
      game_reachable g
  | reachable_make_turn game_bot g player_id cell g' :
      game_reachable g →
      make_turn game_bot g player_id cell = (Return tt, g') →
      game_reachable g'.

End Engine.

(** ** A concrete board, for evaluation *)

(** The eight neighbours of a cell that lie on the board. *)
Definition square_adjacent_cells (prefs : GamePreferences.t) (cell : Cell)
    : list Cell :=
  filter (λ c : Cell,
            c ≠ cell ∧ 1 ≤ c.1 ≤ GamePreferences.size prefs
            ∧ 1 ≤ c.2 ≤ GamePreferences.size prefs)
         (x ← [cell.1 - 1; cell.1; cell.1 + 1];
          y ← [cell.2 - 1; cell.2; cell.2 + 1];
          [(x, y)]).

Definition new_player (id : string) : Player.t :=
  Player.mk id ∅ ∅ ∅ ∅ ∅ ∅ false false.

Definition new_game (prefs : GamePreferences.t) : Game.t :=
  Game.mk "g" prefs 0 (new_player "a") (new_player "b") ∅.

(** A scripted opponent that answers with the first cell of its own
    reachable set as the view lists it. *)
Definition first_reachable_bot : GameBot :=
  λ _ view _, hd (0, 0) (elements (PlayerView.reachable (GameView.me view))).

(** Draws that make every [randint a b] answer [a]. *)
Definition lowest_draws : RandomSource := λ _, 0.

(** 5x5, one base each, one move per round, no trenches, no fog, no bot. *)
Definition plain_prefs : GamePreferences.t :=
  GamePreferences.mk 5 1 false false 0 false false false.

(** 5x5 with fog of war and every candidate cell a trench. *)
Definition trench_prefs : GamePreferences.t :=
  GamePreferences.mk 5 1 true false 100 false false false.

(** 2x2: the two bases are diagonal neighbours. *)
Definition tiny_prefs : GamePreferences.t :=
  GamePreferences.mk 2 1 false false 0 false false false.

(** 5x5 deathmatch against the bot, one move per round to begin with. *)
Definition deathmatch_prefs : GamePreferences.t :=
  GamePreferences.mk 5 1 true true 0 false false true.

Definition started (prefs : GamePreferences.t) : Game.t :=
  (init square_adjacent_cells lowest_draws (new_game prefs)).2.

(** Draws that put both bases of a 5x5 board in the middle row. *)
Definition middle_draws : RandomSource := λ k, match k with O => 2 | _ => 0 end.

Definition random_double_prefs : GamePreferences.t :=
  GamePreferences.mk 5 1 false false 0 true true false.

(** 5x5, three moves per round, no bot. *)
Definition three_move_prefs : GamePreferences.t :=
  GamePreferences.mk 5 3 false false 0 false false false.

(** The game after the moves of [turns], each submitted as [player_id]. *)
Definition play (player_id : string) (turns : list Cell) (g : Game.t) : Game.t :=
  foldl (λ g cell,
           (make_turn square_adjacent_cells first_reachable_bot g player_id cell).2)
        g turns.

(** 4x4 with every candidate cell a trench. *)
Definition even_trench_prefs : GamePreferences.t :=
  GamePreferences.mk 4 1 false false 100 false false false.

(** The plain 5x5 game after the first player took [(2, 2)], the fogged
    all-trench game after the first player claimed the trench [(1, 2)], and
    the 2x2 game as started. *)
Definition after_first_move : Game.t :=
  (make_turn square_adjacent_cells first_reachable_bot (started plain_prefs)
     "a" (2, 2)).2.

Definition after_trench_claim : Game.t :=
  (make_turn square_adjacent_cells first_reachable_bot (started trench_prefs)
     "a" (1, 2)).2.

(** The value a call returned, or [d] if it raised. *)
Definition returned {A : Type} (d : A) (o : Outcome A) : A :=
  match o with Return a => a | Raise _ => d end.

Definition empty_view : GameView.t :=
  GameView.mk "" 0 false (PlayerView.mk ∅ ∅ ∅ ∅ false false)
    (PlayerView.mk ∅ ∅ ∅ ∅ false false) ∅ plain_prefs.

(** What the second player sees of the fogged game after the trench claim. *)
Definition fog_view : GameView.t :=
  returned empty_view (get_view square_adjacent_cells after_trench_claim "b").1.

(** ** Invariants *)

(** What a rebuild of [p0] against [opponent] keeps true of the player it
    works on: its identity, holdings and flags are those of [p0], and the
    reachable cells gathered so far avoid its units, its walls and the
    opponent's walls. *)
Definition rebuilt_from (p0 opponent p : Player.t) : Prop :=
  Player.id p = Player.id p0
  ∧ Player.units p = Player.units p0
  ∧ Player.walls p = Player.walls p0
  ∧ Player.view_data p = Player.view_data p0
  ∧ Player.is_gone p = Player.is_gone p0
  ∧ Player.is_defeated p = Player.is_defeated p0
  ∧ Player.reachable p ## Player.units p0
  ∧ Player.reachable p ## Player.walls opponent
  ∧ Player.reachable p ## Player.walls p0.

(** The same for the pair a pass works on: the new sources are walls of the
    player that are not yet in the frontier. *)
Definition pass_inv (p0 opponent : Player.t) (sources : gset Cell)
    (st : Player.t * gset Cell) : Prop :=
  rebuilt_from p0 opponent st.1 ∧ st.2 ⊆ Player.walls p0 ∧ st.2 ## sources.

(** [|units| + |walls|] over both players. *)
Definition territory (g : Game.t) : nat :=
  (size (Player.units (Game.active_player g))
   + size (Player.walls (Game.active_player g))
   + size (Player.units (Game.passive_player g))
   + size (Player.walls (Game.passive_player g)))%nat.

(** What holds of a player [p] facing [q] whenever [p.reachable] is current. *)
Definition side_ok (p q : Player.t) : Prop :=
  Player.reachable p ## Player.units p
  ∧ Player.reachable p ## Player.walls q
  ∧ Player.reachable p ## Player.walls p.

Definition game_ok (g : Game.t) : Prop :=
  side_ok (Game.active_player g) (Game.passive_player g)
  ∧ side_ok (Game.passive_player g) (Game.active_player g)
  ∧ Player.units (Game.active_player g) ## Game.trenches g
  ∧ Player.units (Game.passive_player g) ## Game.trenches g.

(** [g'] continues [g]: the invariant holds, no territory was lost, and the
    trenches are the same. *)
Definition continues (g g' : Game.t) : Prop :=
  game_ok g' ∧ (territory g ≤ territory g')%nat
  ∧ Game.trenches g' = Game.trenches g ∧ Game.id g' = Game.id g.

(** What the trench generator keeps true of the cells yielded so far: the
    mirror of a yielded cell is yielded, and of a yielded cell and its
    mirror one is no unit of either player. *)
Definition yielded_ok (g : Game.t) (yielded : list Cell) : Prop :=
  ∀ c, c ∈ yielded →
    GamePreferences.get_symmetric_cell (Game.preferences g) c ∈ yielded
    ∧ (((c ∉ Player.units (Game.active_player g))
        ∧ (c ∉ Player.units (Game.passive_player g)))
       ∨ ((GamePreferences.get_symmetric_cell (Game.preferences g) c
             ∉ Player.units (Game.active_player g))
          ∧ (GamePreferences.get_symmetric_cell (Game.preferences g) c
             ∉ Player.units (Game.passive_player g)))).

(** ** What a rebuild computes *)

(** The cells the flood of [_rebuild_reachable_set] spreads from: the seeds
    (the player's units), and every wall of the player adjacent to a cell it
    already spreads from. *)
Inductive connected (get_adjacent_cells : GamePreferences.t → Cell → list Cell)
    (prefs : GamePreferences.t) (seeds walls : gset Cell) : Cell → Prop :=
  | connected_seed c :
      c ∈ seeds → connected get_adjacent_cells prefs seeds walls c
  | connected_wall s c :
      connected get_adjacent_cells prefs seeds walls s →
      c ∈ get_adjacent_cells prefs s →
      c ∈ walls →
      connected get_adjacent_cells prefs seeds walls c.

(** [c] is adjacent to a cell of [F]. *)
Definition next_to (get_adjacent_cells : GamePreferences.t → Cell → list Cell)
    (prefs : GamePreferences.t) (F : Cell → Prop) (c : Cell) : Prop :=
  ∃ s, F s ∧ c ∈ get_adjacent_cells prefs s.

(** The player [p'] is [p] after the cells of [L] were visited: a visited
    cell that is no wall of either player and no unit of [p] became reachable;
    under fog of war every visited cell became a visible cell, and every visited
    trench became visible terrain together with its mirror. *)
Definition player_effect (prefs : GamePreferences.t) (trenches : gset Cell)
    (opponent : Player.t) (L : Cell → Prop) (p p' : Player.t) : Prop :=
  Player.id p' = Player.id p
  ∧ Player.units p' = Player.units p
  ∧ Player.walls p' = Player.walls p
  ∧ Player.view_data p' = Player.view_data p
  ∧ Player.is_gone p' = Player.is_gone p
  ∧ Player.is_defeated p' = Player.is_defeated p
  ∧ (∀ c, c ∈ Player.reachable p' ↔
          c ∈ Player.reachable p
          ∨ (L c ∧ (c ∉ Player.walls p) ∧ (c ∉ Player.walls opponent)
             ∧ (c ∉ Player.units p)))
  ∧ (∀ c, c ∈ Player.visible_opponent p' ↔
          c ∈ Player.visible_opponent p
          ∨ (GamePreferences.is_visibility_applied prefs = true ∧ L c))
  ∧ (∀ c, c ∈ Player.visible_terrain p' ↔
          c ∈ Player.visible_terrain p
          ∨ (GamePreferences.is_visibility_applied prefs = true
             ∧ ∃ t, L t ∧ t ∈ trenches
                    ∧ (c = t ∨ c = GamePreferences.get_symmetric_cell prefs t))).

(** The same for the pair a pass works on: a visited wall of the player
    outside the frontier [sources] became a new source. *)
Definition pass_effect (prefs : GamePreferences.t) (trenches : gset Cell)
    (opponent : Player.t) (sources : gset Cell) (L : Cell → Prop)
    (st st' : Player.t * gset Cell) : Prop :=
  player_effect prefs trenches opponent L st.1 st'.1
  ∧ ∀ c, c ∈ st'.2 ↔ c ∈ st.2 ∨ (L c ∧ (c ∉ sources) ∧ c ∈ Player.walls st.1).

(** ** Games in play *)

(** A game reached from [g] by [make_turn] calls that return. *)
Inductive plays (get_adjacent_cells : GamePreferences.t → Cell → list Cell)
    : Game.t → Game.t → Prop :=
  | plays_refl g : plays get_adjacent_cells g g
  | plays_step game_bot g g1 player_id cell g2 :
      plays get_adjacent_cells g g1 →
      make_turn get_adjacent_cells game_bot g1 player_id cell = (Return tt, g2) →
      plays get_adjacent_cells g g2.

(** A condition on the board (the two players as active and passive, the
    trenches, the preferences) that does not depend on who is to move, on the
    defeat flags or on [turn_count], and that a resolved move keeps. *)
Record board_property (get_adjacent_cells : GamePreferences.t → Cell → list Cell)
    (I : GamePreferences.t → gset Cell → Player.t → Player.t → Prop) : Prop := {
  board_swap prefs trenches a p : I prefs trenches a p → I prefs trenches p a;
  board_flag prefs trenches a p b :
    I prefs trenches a p → I prefs trenches (Player.with_is_defeated b a) p;
  board_turn_count prefs trenches a p n :
    I prefs trenches a p →
    I (GamePreferences.with_turn_count n prefs) trenches a p;
  board_move prefs trenches a p cell :
    I prefs trenches a p → cell ∈ Player.reachable a →
    I prefs trenches
      (_make_turn get_adjacent_cells prefs trenches cell a p).1
      (_make_turn get_adjacent_cells prefs trenches cell a p).2;
}.

Definition on_game (I : GamePreferences.t → gset Cell → Player.t → Player.t → Prop)
    (g : Game.t) : Prop :=
  I (Game.preferences g) (Game.trenches g) (Game.active_player g)
    (Game.passive_player g).

(** Each player's reachable set is what a rebuild would compute now. *)
Definition reachable_current
    (get_adjacent_cells : GamePreferences.t → Cell → list Cell)
    (prefs : GamePreferences.t) (trenches : gset Cell) (a p : Player.t) : Prop :=
  Player.reachable a
  = Player.reachable (_rebuild_reachable_set get_adjacent_cells prefs trenches a p)
  ∧ Player.reachable p
    = Player.reachable (_rebuild_reachable_set get_adjacent_cells prefs trenches p a).

(** The four sets of owned cells are pairwise disjoint. *)
Definition holdings_disjoint (p q : Player.t) : Prop :=
  Player.units p ## Player.walls p
  ∧ Player.units q ## Player.walls q
  ∧ Player.units p ## Player.units q
  ∧ Player.units p ## Player.walls q
  ∧ Player.walls p ## Player.units q
  ∧ Player.walls p ## Player.walls q.

Definition sound_board (prefs : GamePreferences.t) (trenches : gset Cell)
    (a p : Player.t) : Prop :=
  side_ok a p ∧ side_ok p a
  ∧ Player.units a ## trenches ∧ Player.units p ## trenches
  ∧ holdings_disjoint a p.

(** The board geometry does not look at [turn_count], the one preference
    the engine changes. *)
Definition adjacency_ignores_turn_count
    (get_adjacent_cells : GamePreferences.t → Cell → list Cell) : Prop :=
  ∀ prefs n cell,
    get_adjacent_cells (GamePreferences.with_turn_count n prefs) cell
    = get_adjacent_cells prefs cell.

(** ** Board generation *)

(** [cell] lies on the board of [prefs]. *)
Definition on_board (prefs : GamePreferences.t) (cell : Cell) : Prop :=
  1 ≤ cell.1 ≤ GamePreferences.size prefs ∧ 1 ≤ cell.2 ≤ GamePreferences.size prefs.

(** A game as constructed: neither player owns a cell yet. *)
Definition newly_constructed (g : Game.t) : Prop :=
  Player.units (Game.active_player g) = ∅
  ∧ Player.walls (Game.active_player g) = ∅
  ∧ Player.units (Game.passive_player g) = ∅
  ∧ Player.walls (Game.passive_player g) = ∅.

(** The players of [g] after [_init_players] drew the rows [first_base_y]
    and [second_base_y]. *)
Definition with_bases (first_base_y second_base_y : Z) (g : Game.t) : Game.t :=
  let edge := GamePreferences.size (Game.preferences g) in
  let active := add_unit (1, first_base_y) (Game.active_player g) in
  let passive := add_unit (edge, edge - first_base_y + 1) (Game.passive_player g) in
  if GamePreferences.is_double_base (Game.preferences g) then
    Game.with_passive_player (add_unit (edge, edge - second_base_y + 1) passive)
      (Game.with_active_player (add_unit (1, second_base_y) active) g)
  else Game.with_passive_player passive (Game.with_active_player active g).

(** The shape of a cell [_generate_trenches] can yield: a candidate
    [(x + 1, y + 1)] that passed the position test, or its mirror. *)
Definition trench_shape (prefs : GamePreferences.t) (c : Cell) : Prop :=
  let size := GamePreferences.size prefs in
  let half := (size + 1) `div` 2 in
  ∃ x y, 0 ≤ x < size ∧ 0 ≤ y < half ∧ (y < half - 1 ∨ x < half)
         ∧ (c = (x + 1, y + 1) ∨ c = (size - x, size - y)).

(** ** What a call keeps *)

(** [q'] is the player [q] at a later time: same identity and payload. *)
Definition same_player (q q' : Player.t) : Prop :=
  Player.id q' = Player.id q
  ∧ Player.view_data q' = Player.view_data q
  ∧ Player.is_gone q' = Player.is_gone q.

(** The roles of [g'] are those of [g], or those of [g] exchanged. *)
Definition roles_kept (g g' : Game.t) : Prop :=
  same_player (Game.active_player g) (Game.active_player g')
  ∧ same_player (Game.passive_player g) (Game.passive_player g').

Definition roles_swapped (g g' : Game.t) : Prop :=
  same_player (Game.active_player g) (Game.passive_player g')
  ∧ same_player (Game.passive_player g) (Game.active_player g').

(** What no call changes from [g] to [g']: the trenches, the game id, and
    every preference but [turn_count], which does not go down. *)
Definition settings_kept (g g' : Game.t) : Prop :=
  Game.trenches g' = Game.trenches g
  ∧ Game.id g' = Game.id g
  ∧ Game.preferences g'
    = GamePreferences.with_turn_count
        (GamePreferences.turn_count (Game.preferences g')) (Game.preferences g)
  ∧ GamePreferences.turn_count (Game.preferences g)
    ≤ GamePreferences.turn_count (Game.preferences g')
  ∧ (GamePreferences.is_deathmatch (Game.preferences g) = false →
     Game.preferences g' = Game.preferences g).

(** ** Views and ownership *)

(** [me] and [opponent] as [get_view(player_id)] selects them. *)
Definition viewer (g : Game.t) (player_id : string) : Player.t * Player.t :=
  if decide (player_id = Player.id (Game.active_player g))
  then (Game.active_player g, Game.passive_player g)
  else (Game.passive_player g, Game.active_player g).

(** The cells owned by either player, as units or as walls. *)
Definition owned (a p : Player.t) : gset Cell :=
  Player.units a ∪ Player.walls a ∪ Player.units p ∪ Player.walls p.

(** The player with identity [id] has the cells of [X] among its walls, and
    the cells of [Y] are owned. *)
Definition keeps_walls_and_owned (id : string) (X Y : gset Cell)
    (prefs : GamePreferences.t) (trenches : gset Cell) (a p : Player.t) : Prop :=
  (Player.id a = id → X ⊆ Player.walls a)
  ∧ (Player.id p = id → X ⊆ Player.walls p)
  ∧ Y ⊆ owned a p.

(** ** The object store

    [get_view] and [_rebuild_reachable_set] seen at the level of the Python
    objects: a player is an object whose set-valued fields are references to
    set objects, [.add] and [.clear] write into the set object a reference
    points to, [.intersection], [.union], a comprehension and [Player(...)]
    allocate new objects, and [player.visible_opponent = ...] rebinds a field
    of the player object.  Two references may point to the same object; what
    is written through one is then read through the other. *)
Module Store.
Abbreviation loc := nat.

Module PlayerObj.
Record t := mk {
  id : string;
  units : loc;
  walls : loc;
  reachable : loc;
  visible_opponent : loc;
  visible_terrain : loc;
  view_data : gmap string string;
  is_gone : bool;
  is_defeated : bool;
}.

Definition with_visible_opponent (l : loc) (p : t) : t :=
  mk (id p) (units p) (walls p) (reachable p) l (visible_terrain p)
     (view_data p) (is_gone p) (is_defeated p).

Definition can_win (p : t) : bool := negb (is_defeated p).
End PlayerObj.

(** A [PlayerView] holds the set objects it was given, not copies: it is
    [cast], not [frozenset(...)], that [get_view] applies to them.  Its
    [view_data] is a copy. *)
Module PlayerViewObj.
Record t := mk {
  units : loc;
  walls : loc;
  reachable : loc;
  view_data : gmap string string;
  is_gone : bool;
  is_defeated : bool;
}.
End PlayerViewObj.

(** [preferences] is the game's own preferences object; [get_view] and
    [_rebuild_reachable_set] assign to none of its fields, and the record
    holds its value. *)
Module GameViewObj.
Record t := mk {
  id : string;
  turns_left : Z;
  my_turn : bool;
  me : PlayerViewObj.t;
  opponent : PlayerViewObj.t;
  trenches : gset Cell;
  preferences : GamePreferences.t;
}.
End GameViewObj.

(** The set objects and the player objects that exist, the next free
    location, and the fields of the [Game] object itself; the two player
    fields are references.  [trenches] is a [frozenset], a value. *)
Record t := mk {
  sets : gmap loc (gset Cell);
  players : gmap loc PlayerObj.t;
  next : loc;
  id : string;
  preferences : GamePreferences.t;
  turns_left : Z;
  active_player : loc;
  passive_player : loc;
  trenches : gset Cell;
}.

(** Reading the set object at [l]. *)
Definition contents (st : t) (l : loc) : gset Cell := default ∅ (sets st !! l).

(** Overwriting the set object at [l] in place. *)
Definition write (l : loc) (s : gset Cell) (st : t) : t :=
  mk (<[l := s]> (sets st)) (players st) (next st) (id st) (preferences st)
     (turns_left st) (active_player st) (passive_player st) (trenches st).

(** [s.add(cell)] and [s.clear()] on the set object at [l]. *)
Definition add (l : loc) (cell : Cell) (st : t) : t :=
  write l ({[cell]} ∪ contents st l) st.

Definition clear (l : loc) (st : t) : t := write l ∅ st.

(** A new object takes the next free location, [next st].  [new_set s]
    makes a set object holding [s] there. *)
Definition new_set (s : gset Cell) (st : t) : t :=
  mk (<[next st := s]> (sets st)) (players st) (S (next st)) (id st)
     (preferences st) (turns_left st) (active_player st) (passive_player st)
     (trenches st).

(** The player object at [l] becomes [p]: an assignment to one of its
    fields. *)
Definition bind_player (l : loc) (p : PlayerObj.t) (st : t) : t :=
  mk (sets st) (<[l := p]> (players st)) (next st) (id st) (preferences st)
     (turns_left st) (active_player st) (passive_player st) (trenches st).

(** [Player(units=..., walls=...)]: a new player object, at [next st], on
    the two given set objects; the other set-valued fields get new empty
    sets of their own, as in [Player.of_units_walls]. *)
Definition new_player (units walls : loc) (st : t) : t :=
  let player := next st in
  let st :=
    mk (sets st) (players st) (S (next st)) (id st) (preferences st)
       (turns_left st) (active_player st) (passive_player st) (trenches st) in
  let reachable := next st in
  let st := new_set ∅ st in
  let visible_opponent := next st in
  let st := new_set ∅ st in
  let visible_terrain := next st in
  let st := new_set ∅ st in
  bind_player player
    (PlayerObj.mk "" units walls reachable visible_opponent visible_terrain
       ∅ false false) st.

(** *** What the objects hold *)

(** The player a player object stands for: each reference replaced by the
    contents of the set object it points to. *)
Definition player_value (st : t) (p : PlayerObj.t) : Player.t :=
  Player.mk (PlayerObj.id p)
    (contents st (PlayerObj.units p)) (contents st (PlayerObj.walls p))
    (contents st (PlayerObj.reachable p))
    (contents st (PlayerObj.visible_opponent p))
    (contents st (PlayerObj.visible_terrain p))
    (PlayerObj.view_data p) (PlayerObj.is_gone p) (PlayerObj.is_defeated p).

(** The game the store stands for; [None] when a player reference of the
    game points to no object. *)
Definition game_value (st : t) : option Game.t :=
  active ← players st !! active_player st;
  passive ← players st !! passive_player st;
  Some (Game.mk (id st) (preferences st) (turns_left st)
          (player_value st active) (player_value st passive) (trenches st)).

Definition player_view_value (st : t) (v : PlayerViewObj.t) : PlayerView.t :=
  PlayerView.mk
    (contents st (PlayerViewObj.units v)) (contents st (PlayerViewObj.walls v))
    (contents st (PlayerViewObj.reachable v))
    (PlayerViewObj.view_data v) (PlayerViewObj.is_gone v)
    (PlayerViewObj.is_defeated v).

(** What a view shows when it is read in the store [st]; two views are equal
    in Python when these values are. *)
Definition view_value (st : t) (v : GameViewObj.t) : GameView.t :=
  GameView.mk (GameViewObj.id v) (GameViewObj.turns_left v)
    (GameViewObj.my_turn v)
    (player_view_value st (GameViewObj.me v))
    (player_view_value st (GameViewObj.opponent v))
    (GameViewObj.trenches v) (GameViewObj.preferences v).

Definition outcome_value (st : t) (o : Outcome GameViewObj.t) : Outcome GameView.t :=
  match o with
  | Return v => Return (view_value st v)
  | Raise e => Raise e
  end.

(** *** [_rebuild_reachable_set] on objects *)

Section Methods.
Variable get_adjacent_cells : GamePreferences.t → Cell → list Cell.

(** The body of the innermost loop.  [player] and [opponent] are the two
    objects as they are bound while the loop runs, which assigns to none of
    their fields; every set is read in the store as it is at that point. *)
Definition visit_cell (player opponent : PlayerObj.t) (sources : gset Cell)
    (acc : t * gset Cell) (cell : Cell) : t * gset Cell :=
  let '(st, new_sources) := acc in
  let st :=
    if GamePreferences.is_visibility_applied (preferences st) then
      let st := add (PlayerObj.visible_opponent player) cell st in
      if decide (cell ∈ trenches st) then
        add (PlayerObj.visible_terrain player)
            (GamePreferences.get_symmetric_cell (preferences st) cell)
            (add (PlayerObj.visible_terrain player) cell st)
      else st
    else st in
  if decide (cell ∈ sources) then (st, new_sources)
  else if decide (cell ∈ contents st (PlayerObj.walls player))
    then (st, {[cell]} ∪ new_sources)
  else if decide ((cell ∉ contents st (PlayerObj.walls opponent))
                  ∧ (cell ∉ contents st (PlayerObj.units player)))
    then (add (PlayerObj.reachable player) cell st, new_sources)
  else (st, new_sources).

Definition visit_source (player opponent : PlayerObj.t) (sources : gset Cell)
    (acc : t * gset Cell) (source : Cell) : t * gset Cell :=
  foldl (visit_cell player opponent sources) acc
        (get_adjacent_cells (preferences acc.1) source).

Definition frontier_pass (player opponent : PlayerObj.t) (st : t)
    (sources : gset Cell) : t * gset Cell :=
  foldl (visit_source player opponent sources) (st, ∅) (elements sources).

(** The [while True] loop, run for at most [fuel] passes. *)
Fixpoint frontier_loop (fuel : nat) (player opponent : PlayerObj.t) (st : t)
    (sources : gset Cell) : option t :=
  match fuel with
  | O => None
  | S fuel =>
      let '(st, new_sources) := frontier_pass player opponent st sources in
      if decide (new_sources = ∅) then Some st
      else frontier_loop fuel player opponent st (sources ∪ new_sources)
  end.

(** The statements before the loop, [p] and [o] being the objects the two
    references point to on entry.  The comprehension and [.union] each make
    a new set object, and the assignment binds the second one to
    [player.visible_opponent]. *)
Definition rebuild_prologue (st : t) (player : loc) (p o : PlayerObj.t) : t :=
  let st := clear (PlayerObj.reachable p) st in
  if GamePreferences.is_visibility_applied (preferences st) then
    let kept := next st in
    let st :=
      new_set
        (filter (λ cell, cell ∈ contents st (PlayerObj.units o)
                         ∨ cell ∈ contents st (PlayerObj.walls o))
                (contents st (PlayerObj.visible_opponent p))) st in
    let seen := next st in
    let st :=
      new_set
        (contents st kept
         ∪ filter (λ cell, cell ∉ trenches st) (contents st (PlayerObj.walls o)))
        st in
    bind_player player (PlayerObj.with_visible_opponent seen p) st
  else st.

(** [_rebuild_reachable_set(player, opponent)] on two references.
    [sources] is a copy, a set of the call's own.  [None] when a reference
    points to no object, or when the loop has not reached its [break] in one
    pass more than the player has walls on entering it. *)
Definition _rebuild_reachable_set (st : t) (player opponent : loc) : option t :=
  p ← players st !! player;
  o ← players st !! opponent;
  let st := rebuild_prologue st player p o in
  p ← players st !! player;
  o ← players st !! opponent;
  frontier_loop (S (size (contents st (PlayerObj.walls p)))) p o st
                (contents st (PlayerObj.units p)).

(** *** [get_view] on objects *)

(** The body of [get_view] from the visibility test on, [me] and [opponent]
    being the references chosen before it.  The view is built from the
    objects the references point to when the [return] is reached. *)
Definition view_of (st : t) (me opponent : loc)
    : option (Outcome GameViewObj.t * t) :=
  m ← players st !! me;
  o ← players st !! opponent;
  '(opponent_units, opponent_walls, opponent_reachable, trenches, st) ←
    (if GamePreferences.is_visibility_applied (preferences st)
        && PlayerObj.can_win m && PlayerObj.can_win o
     then
       let opponent_units := next st in
       let st :=
         new_set (contents st (PlayerObj.units o)
                  ∩ contents st (PlayerObj.visible_opponent m)) st in
       let opponent_walls := next st in
       let st :=
         new_set (contents st (PlayerObj.walls o)
                  ∩ contents st (PlayerObj.visible_opponent m)) st in
       let trenches := trenches st ∩ contents st (PlayerObj.visible_terrain m) in
       let visible_opponent := next st in
       let st := new_player opponent_units opponent_walls st in
       st ← _rebuild_reachable_set st visible_opponent me;
       shown ← players st !! visible_opponent;
       Some (opponent_units, opponent_walls, PlayerObj.reachable shown,
             trenches, st)
     else
       Some (PlayerObj.units o, PlayerObj.walls o, PlayerObj.reachable o,
             trenches st, st));
  m ← players st !! me;
  o ← players st !! opponent;
  active ← players st !! active_player st;
  Some
    (Return
       (GameViewObj.mk (id st) (turns_left st)
          (bool_decide (player_value st m = player_value st active))
          (PlayerViewObj.mk (PlayerObj.units m) (PlayerObj.walls m)
             (PlayerObj.reachable m) (PlayerObj.view_data m)
             (PlayerObj.is_gone m) (PlayerObj.is_defeated m))
          (PlayerViewObj.mk opponent_units opponent_walls opponent_reachable
             (PlayerObj.view_data o) (PlayerObj.is_gone o)
             (PlayerObj.is_defeated o))
          trenches (preferences st)),
     st).

(** [get_view(player_id)]: the outcome and the store as the call leaves it.
    [me] and [opponent] are references. *)
Definition get_view (st : t) (player_id : string)
    : option (Outcome GameViewObj.t * t) :=
  active ← players st !! active_player st;
  passive ← players st !! passive_player st;
  if decide (player_id = PlayerObj.id active ∨ player_id = PlayerObj.id passive)
  then
    let '(me, opponent) :=
      if decide (player_id = PlayerObj.id active)
      then (active_player st, passive_player st)
      else (passive_player st, active_player st) in
    view_of st me opponent
  else Some (Raise AssertionError, st).
End Methods.

(** *** Stores the engine can be in *)

Definition refers_below (n : loc) (p : PlayerObj.t) : Prop :=
  (PlayerObj.units p < n)%nat ∧ (PlayerObj.walls p < n)%nat
  ∧ (PlayerObj.reachable p < n)%nat ∧ (PlayerObj.visible_opponent p < n)%nat
  ∧ (PlayerObj.visible_terrain p < n)%nat.

(** Every object the game refers to exists below the next free location, so
    that a new object is none of them.  Nothing is asked about which of the
    game's references point to the same object. *)
Definition well_formed (st : t) : Prop :=
  ∃ active passive,
    players st !! active_player st = Some active
    ∧ players st !! passive_player st = Some passive
    ∧ (active_player st < next st)%nat ∧ (passive_player st < next st)%nat
    ∧ refers_below (next st) active ∧ refers_below (next st) passive.

(** Every object that exists in [st] is in [st'] what it was, and so is
    every field of the game object. *)
Definition unchanged (st st' : t) : Prop :=
  (∀ l, (l < next st)%nat → sets st' !! l = sets st !! l)
  ∧ (∀ l, (l < next st)%nat → players st' !! l = players st !! l)
  ∧ (next st ≤ next st')%nat
  ∧ id st' = id st ∧ preferences st' = preferences st
  ∧ turns_left st' = turns_left st
  ∧ active_player st' = active_player st
  ∧ passive_player st' = passive_player st
  ∧ trenches st' = trenches st.

(** The set objects a rebuild of [p] against [o] writes into, and those it
    only reads. *)
Definition written (p : PlayerObj.t) : list loc :=
  [PlayerObj.reachable p; PlayerObj.visible_opponent p;
   PlayerObj.visible_terrain p].

Definition read (p o : PlayerObj.t) : list loc :=
  [PlayerObj.units p; PlayerObj.walls p; PlayerObj.units o; PlayerObj.walls o].

(** The set objects a player object refers to. *)
Definition held (p : PlayerObj.t) : list loc :=
  [PlayerObj.units p; PlayerObj.walls p; PlayerObj.reachable p;
   PlayerObj.visible_opponent p; PlayerObj.visible_terrain p].

(** The three sets written are three objects, and none of them is read. *)
Definition separated (p o : PlayerObj.t) : Prop :=
  NoDup (written p) ∧ ∀ l, l ∈ written p → l ∉ read p o.

(** [st'] is [st] but for the set objects at [W]. *)
Definition written_only (W : list loc) (st st' : t) : Prop :=
  (∀ l, l ∉ W → sets st' !! l = sets st !! l)
  ∧ players st' = players st ∧ next st' = next st
  ∧ id st' = id st ∧ preferences st' = preferences st
  ∧ turns_left st' = turns_left st
  ∧ active_player st' = active_player st
  ∧ passive_player st' = passive_player st
  ∧ trenches st' = trenches st.

(** While a rebuild of [p] runs from the store [st0]: the store differs from
    [st0] in the written sets only, and [pure] is the player that [p] stands
    for together with the call's own [new_sources]. *)
Definition tracks (p : PlayerObj.t) (st0 : t) (acc : t * gset Cell)
    (pure : Player.t * gset Cell) : Prop :=
  written_only (written p) st0 acc.1 ∧ pure = (player_value acc.1 p, acc.2).

(** The set objects a returned view holds exist below [n]. *)
Definition view_below (n : loc) (o : Outcome GameViewObj.t) : Prop :=
  match o with
  | Return v =>
      (PlayerViewObj.units (GameViewObj.me v) < n)%nat
      ∧ (PlayerViewObj.walls (GameViewObj.me v) < n)%nat
      ∧ (PlayerViewObj.reachable (GameViewObj.me v) < n)%nat
      ∧ (PlayerViewObj.units (GameViewObj.opponent v) < n)%nat
      ∧ (PlayerViewObj.walls (GameViewObj.opponent v) < n)%nat
      ∧ (PlayerViewObj.reachable (GameViewObj.opponent v) < n)%nat
  | Raise _ => True
  end.

(** A store for the game [g] in which each of the ten sets of the two
    players is an object of its own. *)
Definition of_game (g : Game.t) : t :=
  let a := Game.active_player g in
  let p := Game.passive_player g in
  mk (list_to_map
        [(0%nat, Player.units a); (1%nat, Player.walls a);
         (2%nat, Player.reachable a); (3%nat, Player.visible_opponent a);
         (4%nat, Player.visible_terrain a);
         (5%nat, Player.units p); (6%nat, Player.walls p);
         (7%nat, Player.reachable p); (8%nat, Player.visible_opponent p);
         (9%nat, Player.visible_terrain p)])
     (list_to_map
        [(10%nat, PlayerObj.mk (Player.id a) 0%nat 1%nat 2%nat 3%nat 4%nat
                    (Player.view_data a)
                    (Player.is_gone a) (Player.is_defeated a));
         (11%nat, PlayerObj.mk (Player.id p) 5%nat 6%nat 7%nat 8%nat 9%nat
                    (Player.view_data p)
                    (Player.is_gone p) (Player.is_defeated p))])
     12%nat (Game.id g) (Game.preferences g) (Game.turns_left g) 10%nat 11%nat
     (Game.trenches g).
End Store.

(** 3x3 with fog of war and no trenches, and that game after the first
    player took the middle cell: each player sees the other's base. *)
Definition small_fog_prefs : GamePreferences.t :=
  GamePreferences.mk 3 1 true false 0 false false false.

Definition after_fog_move : Game.t :=
  (make_turn square_adjacent_cells first_reachable_bot (started small_fog_prefs)
     "a" (2, 2)).2.

(** ** Properties of [_rebuild_reachable_set] *)

Section Rebuild.
Variable get_adjacent_cells : GamePreferences.t → Cell → list Cell.
Variables (prefs : GamePreferences.t) (trenches : gset Cell).

Lemma foldl_invariant {A B} (P : A → Prop) (f : A → B → A) (l : list B) (a : A) :
  P a → (∀ a b, P a → P (f a b)) → P (foldl f a l).
Proof.
  intros Ha Hf. revert a Ha.
  induction l as [|b l IH]; intros a Ha; simpl; [done|].
  apply IH, Hf, Ha.
Qed.

Lemma visit_cell_inv p0 opponent sources st cell :
  pass_inv p0 opponent sources st →
  pass_inv p0 opponent sources (visit_cell prefs trenches opponent sources st cell).
Proof.
  destruct st as [p ns].
  intros [(Hid & Hu & Hw & Hv & Hg & Hd & Hru & Hro & Hrw) [Hns Hdis]].
  unfold visit_cell, pass_inv, rebuilt_from in *. simpl in *.
  destruct (GamePreferences.is_visibility_applied prefs);
    repeat case_decide; simpl in *;
    repeat split; first [assumption | set_solver].
Qed.

Lemma visit_source_inv p0 opponent sources st source :
  pass_inv p0 opponent sources st →
  pass_inv p0 opponent sources
    (visit_source get_adjacent_cells prefs trenches opponent sources st source).
Proof.
  intros H. unfold visit_source.
  apply foldl_invariant; [done|]. intros; by apply visit_cell_inv.
Qed.

Lemma frontier_pass_inv p0 opponent p sources :
  rebuilt_from p0 opponent p →
  pass_inv p0 opponent sources
    (frontier_pass get_adjacent_cells prefs trenches opponent p sources).
Proof.
  intros H. unfold frontier_pass.
  apply foldl_invariant.
  - split; [done|]. simpl. set_solver.
  - intros; by apply visit_source_inv.
Qed.

Lemma frontier_loop_inv p0 opponent fuel p sources p' :
  rebuilt_from p0 opponent p →
  frontier_loop get_adjacent_cells fuel prefs trenches opponent p sources = Some p' →
  rebuilt_from p0 opponent p'.
Proof.
  revert p sources.
  induction fuel as [|fuel IH]; intros p sources Hp; simpl; [done|].
  pose proof (frontier_pass_inv p0 opponent p sources Hp) as Hpass.
  destruct (frontier_pass _ _ _ _ _ _) as [p1 ns].
  destruct Hpass as [Hp1 _]. simpl in Hp1.
  case_decide; [intros [= <-]; done|].
  by apply IH.
Qed.

Lemma rebuild_prologue_inv player opponent :
  rebuilt_from player opponent (rebuild_prologue prefs trenches player opponent).
Proof.
  unfold rebuild_prologue, rebuilt_from.
  destruct (GamePreferences.is_visibility_applied prefs); simpl;
    repeat split; try done; set_solver.
Qed.

Lemma rebuilt_from_trans p0 p1 opponent p :
  rebuilt_from p0 opponent p1 → rebuilt_from p1 opponent p → rebuilt_from p0 opponent p.
Proof.
  unfold rebuilt_from.
  intros (?&Hu&Hw&?&?&?&?&?&?) (?&?&?&?&?&?&?&?&?).
  rewrite <- Hu, <- Hw. repeat split; try congruence; done.
Qed.

Lemma _rebuild_reachable_set_inv player opponent :
  rebuilt_from player opponent
    (_rebuild_reachable_set get_adjacent_cells prefs trenches player opponent).
Proof.
  unfold _rebuild_reachable_set.
  pose proof (rebuild_prologue_inv player opponent) as H0.
  destruct (frontier_loop _ _ _ _ _ _ _) as [p'|] eqn:Hloop; simpl; [|done].
  eapply rebuilt_from_trans; [done|].
  eapply frontier_loop_inv; [|done].
  unfold rebuilt_from in *. destruct H0 as (?&Hu&Hw&?&?&?&?&?&?).
  rewrite Hu, Hw. repeat split; done.
Qed.

(** *** The frontier loop pass by pass *)

Lemma frontier_pass_new_sources p0 opponent p sources :
  rebuilt_from p0 opponent p →
  let ns := (frontier_pass get_adjacent_cells prefs trenches opponent p sources).2 in
  ns ⊆ Player.walls p0 ∧ ns ## sources.
Proof.
  intros Hp. destruct (frontier_pass_inv p0 opponent p sources Hp) as (_ & ? & ?).
  done.
Qed.

Lemma frontier_step_inv p0 opponent st :
  rebuilt_from p0 opponent st.1 →
  rebuilt_from p0 opponent
    (frontier_step get_adjacent_cells prefs trenches opponent st).1.
Proof.
  intros Hp. unfold frontier_step.
  pose proof (frontier_pass_inv p0 opponent st.1 st.2 Hp) as [H _].
  by destruct (frontier_pass _ _ _ _ _ _).
Qed.

Lemma frontier_step_sources opponent st :
  (frontier_step get_adjacent_cells prefs trenches opponent st).2
  = st.2 ∪ (frontier_pass get_adjacent_cells prefs trenches opponent st.1 st.2).2.
Proof. unfold frontier_step. by destruct (frontier_pass _ _ _ _ _ _). Qed.

Lemma frontier_iter_inv p0 opponent st k :
  rebuilt_from p0 opponent st.1 →
  rebuilt_from p0 opponent
    (Nat.iter k (frontier_step get_adjacent_cells prefs trenches opponent) st).1.
Proof.
  intros Hp. induction k as [|k IH]; simpl; [done|]. by apply frontier_step_inv.
Qed.

Lemma frontier_iter_mono opponent st j k :
  (j ≤ k)%nat →
  (Nat.iter j (frontier_step get_adjacent_cells prefs trenches opponent) st).2
  ⊆ (Nat.iter k (frontier_step get_adjacent_cells prefs trenches opponent) st).2.
Proof.
  induction 1 as [|k _ IH]; [done|].
  simpl. rewrite frontier_step_sources. set_solver.
Qed.

Lemma frontier_iter_bound p0 opponent st k :
  rebuilt_from p0 opponent st.1 →
  st.2 ⊆ Player.units p0 ∪ Player.walls p0 →
  (Nat.iter k (frontier_step get_adjacent_cells prefs trenches opponent) st).2
  ⊆ Player.units p0 ∪ Player.walls p0.
Proof.
  intros Hp Hs. induction k as [|k IH]; simpl; [done|].
  rewrite frontier_step_sources.
  destruct (frontier_pass_new_sources p0 opponent _
              (Nat.iter k (frontier_step get_adjacent_cells prefs trenches opponent) st).2
              (frontier_iter_inv p0 opponent st k Hp)) as [Hns _].
  set_solver.
Qed.

(** The pass that finds no new source comes after at most as many passes as
    there are walls outside the frontier. *)
Lemma frontier_breaks p0 opponent (m : nat) : ∀ st,
  rebuilt_from p0 opponent st.1 →
  (size (Player.walls p0 ∖ st.2) ≤ m)%nat →
  ∃ n : nat, (n ≤ m)%nat
    ∧ (∀ k, (k < n)%nat →
         let sk := Nat.iter k (frontier_step get_adjacent_cells prefs trenches opponent) st in
         (frontier_pass get_adjacent_cells prefs trenches opponent sk.1 sk.2).2 ≠ ∅)
    ∧ (let sn := Nat.iter n (frontier_step get_adjacent_cells prefs trenches opponent) st in
       (frontier_pass get_adjacent_cells prefs trenches opponent sn.1 sn.2).2 = ∅).
Proof.
  induction m as [|m IH]; intros st Hp Hsize.
  - exists 0%nat. split; [done|]. split; [intros; lia|]. simpl.
    destruct (frontier_pass_new_sources p0 opponent st.1 st.2 Hp) as [Hw Hd].
    assert (Player.walls p0 ∖ st.2 ≡ ∅) as Hempty
      by (apply size_empty_inv; lia).
    apply leibniz_equiv. set_solver.
  - destruct (decide ((frontier_pass get_adjacent_cells prefs trenches opponent
                         st.1 st.2).2 = ∅)) as [Hnone|Hsome].
    + exists 0%nat. split; [lia|]. split; [intros; lia|done].
    + destruct (frontier_pass_new_sources p0 opponent st.1 st.2 Hp) as [Hw Hd].
      destruct (IH (frontier_step get_adjacent_cells prefs trenches opponent st))
        as (n & Hn & Hbefore & Hat).
      * by apply frontier_step_inv.
      * rewrite frontier_step_sources.
        apply set_choose_L in Hsome as [c Hc].
        assert (Player.walls p0 ∖ (st.2 ∪ (frontier_pass get_adjacent_cells prefs
                  trenches opponent st.1 st.2).2) ⊂ Player.walls p0 ∖ st.2) as Hlt.
        { split; [set_solver|]. intros Hsub.
          assert (c ∈ Player.walls p0 ∖ st.2) as Hin by set_solver.
          apply Hsub in Hin. set_solver. }
        apply subset_size in Hlt. lia.
      * exists (S n). split; [lia|]. split.
        -- intros [|k] Hk; [done|]. rewrite Nat.iter_succ_r. apply Hbefore. lia.
        -- rewrite Nat.iter_succ_r. exact Hat.
Qed.

Lemma frontier_loop_unfold opponent fuel st :
  frontier_loop get_adjacent_cells (S fuel) prefs trenches opponent st.1 st.2
  = if decide ((frontier_pass get_adjacent_cells prefs trenches opponent st.1 st.2).2 = ∅)
    then Some (frontier_pass get_adjacent_cells prefs trenches opponent st.1 st.2).1
    else frontier_loop get_adjacent_cells fuel prefs trenches opponent
           (frontier_step get_adjacent_cells prefs trenches opponent st).1
           (frontier_step get_adjacent_cells prefs trenches opponent st).2.
Proof.
  simpl. unfold frontier_step.
  by destruct (frontier_pass _ _ _ _ _ _).
Qed.

(** With more fuel than passes before the break, the fuelled loop returns
    the player of the breaking pass. *)
Lemma frontier_loop_at opponent (n : nat) : ∀ st fuel,
  (∀ k, (k < n)%nat →
     let sk := Nat.iter k (frontier_step get_adjacent_cells prefs trenches opponent) st in
     (frontier_pass get_adjacent_cells prefs trenches opponent sk.1 sk.2).2 ≠ ∅) →
  (let sn := Nat.iter n (frontier_step get_adjacent_cells prefs trenches opponent) st in
   (frontier_pass get_adjacent_cells prefs trenches opponent sn.1 sn.2).2 = ∅) →
  (n < fuel)%nat →
  frontier_loop get_adjacent_cells fuel prefs trenches opponent st.1 st.2
  = Some (let sn := Nat.iter n (frontier_step get_adjacent_cells prefs trenches opponent) st in
          (frontier_pass get_adjacent_cells prefs trenches opponent sn.1 sn.2).1).
Proof.
  cbv zeta.
  induction n as [|n IH]; intros st fuel Hbefore Hat Hfuel;
    (destruct fuel as [|fuel]; [lia|]); rewrite frontier_loop_unfold.
  - cbn [Nat.iter nat_rect] in *. by rewrite decide_True.
  - rewrite decide_False by (apply (Hbefore 0%nat); lia).
    rewrite Nat.iter_succ_r in Hat |- *.
    apply IH; [|done|lia].
    intros k Hk. specialize (Hbefore (S k) ltac:(lia)).
    by rewrite Nat.iter_succ_r in Hbefore.
Qed.

Lemma loop_entry_inv player opponent :
  rebuilt_from player opponent (loop_entry prefs trenches player opponent).1
  ∧ (loop_entry prefs trenches player opponent).2 = Player.units player.
Proof.
  pose proof (rebuild_prologue_inv player opponent) as H.
  split; [exact H|]. apply H.
Qed.

Lemma _rebuild_reachable_set_loop player opponent :
  _rebuild_reachable_set get_adjacent_cells prefs trenches player opponent
  = default (loop_entry prefs trenches player opponent).1
      (frontier_loop get_adjacent_cells (S (size (Player.walls player))) prefs
         trenches opponent (loop_entry prefs trenches player opponent).1
         (loop_entry prefs trenches player opponent).2).
Proof.
  unfold _rebuild_reachable_set, loop_entry. cbv zeta. cbn [fst snd].
  destruct (rebuild_prologue_inv player opponent) as (_ & _ & -> & _). done.
Qed.

(** C9: the frontier loop of [_rebuild_reachable_set] terminates for every
    player, opponent, trench set, preferences and geometry.  Pass by pass:
    the frontier stays within the player's units and walls; what a pass adds
    was not in the frontier before, so no cell enters it twice; a pass that
    does not break makes the frontier strictly larger; and the breaking pass
    comes after at most as many passes as the player has walls, with which
    the loop returns the rebuilt player. *)
Theorem frontier_loop_terminates (player opponent : Player.t) :
  let sources k := sources_at get_adjacent_cells k prefs trenches player opponent in
  let new_sources k :=
    new_sources_at get_adjacent_cells k prefs trenches player opponent in
  (∀ k, sources k ⊆ Player.units player ∪ Player.walls player)
  ∧ (∀ k, sources (S k) = sources k ∪ new_sources k ∧ new_sources k ## sources k)
  ∧ (∀ j k, (j < k)%nat → new_sources j ## new_sources k)
  ∧ (∀ k, new_sources k ≠ ∅ → sources k ⊂ sources (S k))
  ∧ ∃ n : nat,
      (n ≤ size (Player.walls player))%nat
      ∧ (∀ k, (k < n)%nat → new_sources k ≠ ∅)
      ∧ new_sources n = ∅
      ∧ ∀ fuel, (n < fuel)%nat →
          frontier_loop get_adjacent_cells fuel prefs trenches opponent
            (loop_entry prefs trenches player opponent).1
            (loop_entry prefs trenches player opponent).2
          = Some (_rebuild_reachable_set get_adjacent_cells prefs trenches
                    player opponent).
Proof.
  intros sources new_sources.
  destruct (loop_entry_inv player opponent) as [Hentry Hunits].
  assert (∀ k, sources (S k) = sources k ∪ new_sources k ∧ new_sources k ## sources k)
    as Hstep.
  { intros k. unfold sources, new_sources, sources_at, new_sources_at, frontier_at.
    cbv zeta. cbn [Nat.iter nat_rect]. rewrite frontier_step_sources.
    split; [done|].
    eapply frontier_pass_new_sources, frontier_iter_inv, Hentry. }
  assert (∀ j k, (j ≤ k)%nat → sources j ⊆ sources k) as Hmono.
  { intros j k Hjk. by apply frontier_iter_mono. }
  split; [|split; [|split; [|split]]].
  - intros k. apply (frontier_iter_bound player opponent); [done|].
    rewrite Hunits. set_solver.
  - exact Hstep.
  - intros j k Hjk.
    pose proof (Hmono (S j) k ltac:(lia)) as Hsub.
    destruct (Hstep j) as [Hj _]. destruct (Hstep k) as [_ Hk].
    rewrite Hj in Hsub. set_solver.
  - intros k Hne. destruct (Hstep k) as [-> Hk].
    apply set_choose_L in Hne as [c Hc].
    split; [set_solver|]. intros Hsub.
    assert (c ∈ sources k) by set_solver. set_solver.
  - destruct (frontier_breaks player opponent (size (Player.walls player))
                (loop_entry prefs trenches player opponent) Hentry)
      as (n & Hn & Hbefore & Hat).
    { apply subseteq_size. set_solver. }
    exists n. split; [done|]. split; [exact Hbefore|]. split; [exact Hat|].
    intros fuel Hfuel.
    rewrite _rebuild_reachable_set_loop.
    rewrite (frontier_loop_at opponent n _ (S (size (Player.walls player))))
      by (done || lia).
    by apply frontier_loop_at.
Qed.

End Rebuild.

(** ** Invariants of the game *)

Section Rules.
Variable get_adjacent_cells : GamePreferences.t → Cell → list Cell.

Lemma rebuild_side_ok prefs trenches p q q' :
  Player.walls q' = Player.walls q →
  side_ok (_rebuild_reachable_set get_adjacent_cells prefs trenches p q) q'.
Proof.
  intros Hw.
  destruct (_rebuild_reachable_set_inv get_adjacent_cells prefs trenches p q)
    as (_ & Hu & Hw' & _ & _ & _ & ? & ? & ?).
  unfold side_ok. rewrite Hu, Hw', Hw. done.
Qed.

Lemma rebuild_units prefs trenches p q :
  Player.units (_rebuild_reachable_set get_adjacent_cells prefs trenches p q)
  = Player.units p.
Proof. apply _rebuild_reachable_set_inv. Qed.

Lemma rebuild_walls prefs trenches p q :
  Player.walls (_rebuild_reachable_set get_adjacent_cells prefs trenches p q)
  = Player.walls p.
Proof. apply _rebuild_reachable_set_inv. Qed.

Lemma rebuild_id prefs trenches p q :
  Player.id (_rebuild_reachable_set get_adjacent_cells prefs trenches p q)
  = Player.id p.
Proof. apply _rebuild_reachable_set_inv. Qed.

Lemma rebuild_is_defeated prefs trenches p q :
  Player.is_defeated (_rebuild_reachable_set get_adjacent_cells prefs trenches p q)
  = Player.is_defeated p.
Proof. apply _rebuild_reachable_set_inv. Qed.

(** The holdings after [_make_turn], case by case. *)
Lemma _make_turn_holdings prefs trenches cell p q :
  let r := _make_turn get_adjacent_cells prefs trenches cell p q in
  (cell ∈ Player.units q →
     Player.units r.1 = Player.units p
     ∧ Player.walls r.1 = {[cell]} ∪ Player.walls p
     ∧ Player.units r.2 = Player.units q ∖ {[cell]}
     ∧ Player.walls r.2 = Player.walls q)
  ∧ (cell ∉ Player.units q → cell ∈ trenches →
     Player.units r.1 = Player.units p
     ∧ Player.walls r.1 = {[cell]} ∪ Player.walls p
     ∧ Player.units r.2 = Player.units q
     ∧ Player.walls r.2 = Player.walls q)
  ∧ (cell ∉ Player.units q → cell ∉ trenches →
     Player.units r.1 = {[cell]} ∪ Player.units p
     ∧ Player.walls r.1 = Player.walls p
     ∧ Player.units r.2 = Player.units q
     ∧ Player.walls r.2 = Player.walls q).
Proof.
  unfold _make_turn. cbv zeta.
  repeat case_decide; cbn [fst snd];
    rewrite ?rebuild_units, ?rebuild_walls; cbn;
    repeat split; intros; done.
Qed.

Lemma _make_turn_ok prefs trenches cell p q :
  side_ok q p →
  Player.units p ## trenches → Player.units q ## trenches →
  let r := _make_turn get_adjacent_cells prefs trenches cell p q in
  side_ok r.1 r.2 ∧ side_ok r.2 r.1
  ∧ Player.units r.1 ## trenches ∧ Player.units r.2 ## trenches.
Proof.
  intros (Hqu & Hqp & Hqw) Hpt Hqt r.
  destruct (_make_turn_holdings prefs trenches cell p q) as (Hcap & Htr & Hex).
  fold r in Hcap, Htr, Hex.
  assert (side_ok r.1 r.2) as Hmover.
  { subst r. unfold _make_turn. cbv zeta.
    repeat case_decide; cbn [fst snd]; by apply rebuild_side_ok. }
  split; [exact Hmover|].
  destruct (decide (cell ∈ Player.units q)) as [Hc|Hc].
  - destruct (Hcap Hc) as (Hu1 & Hw1 & Hu2 & Hw2).
    rewrite Hu1, Hu2. split; [|set_solver].
    subst r. unfold _make_turn. cbv zeta. rewrite decide_True by done.
    cbn [fst snd]. apply rebuild_side_ok. by rewrite rebuild_walls.
  - assert (Player.reachable r.2 ⊆ Player.reachable q
            ∧ (cell ∈ trenches → cell ∉ Player.reachable r.2)) as [Hsub Hdisc].
    { subst r. unfold _make_turn. cbv zeta. rewrite decide_False by done.
      case_decide; cbn; set_solver. }
    destruct (decide (cell ∈ trenches)) as [Ht|Ht].
    + destruct (Htr Hc Ht) as (Hu1 & Hw1 & Hu2 & Hw2).
      unfold side_ok. rewrite Hu1, Hw1, Hu2, Hw2.
      specialize (Hdisc Ht). set_solver.
    + destruct (Hex Hc Ht) as (Hu1 & Hw1 & Hu2 & Hw2).
      unfold side_ok. rewrite Hu1, Hw1, Hu2, Hw2. set_solver.
Qed.

Lemma _make_turn_sizes prefs trenches cell p q :
  Player.reachable p ## Player.walls p →
  cell ∈ Player.reachable p →
  let r := _make_turn get_adjacent_cells prefs trenches cell p q in
  (cell ∈ Player.units q →
     size (Player.units q) = S (size (Player.units r.2))
     ∧ size (Player.walls r.1) = S (size (Player.walls p)))
  ∧ (size (Player.units p) + size (Player.walls p)
     + size (Player.units q) + size (Player.walls q)
     ≤ size (Player.units r.1) + size (Player.walls r.1)
       + size (Player.units r.2) + size (Player.walls r.2))%nat.
Proof.
  intros Hdis Hcell r.
  destruct (_make_turn_holdings prefs trenches cell p q) as (Hcap & Htr & Hex).
  fold r in Hcap, Htr, Hex.
  assert (cell ∉ Player.walls p) as Hfresh by set_solver.
  assert (cell ∈ Player.units q →
          size (Player.units q) = S (size (Player.units r.2))
          ∧ size (Player.walls r.1) = S (size (Player.walls p))) as Hsizes.
  { intros Hc. destruct (Hcap Hc) as (_ & Hw1 & Hu2 & _).
    rewrite Hw1, Hu2. split.
    - assert (Player.units q = {[cell]} ∪ Player.units q ∖ {[cell]}) as Hq.
      { apply leibniz_equiv. intros c. set_unfold.
        destruct (decide (c = cell)); naive_solver. }
      rewrite Hq at 1. rewrite size_union by set_solver.
      by rewrite size_singleton.
    - rewrite size_union by set_solver. by rewrite size_singleton. }
  split; [exact Hsizes|].
  destruct (decide (cell ∈ Player.units q)) as [Hc|Hc].
  - destruct (Hsizes Hc) as [Hu Hw]. destruct (Hcap Hc) as (Hu1 & _ & _ & Hw2).
    rewrite Hu, Hw, Hu1, Hw2. lia.
  - destruct (decide (cell ∈ trenches)) as [Ht|Ht].
    + destruct (Htr Hc Ht) as (-> & Hw1 & -> & ->).
      assert (size (Player.walls p) ≤ size (Player.walls r.1))%nat
        by (apply subseteq_size; set_solver).
      lia.
    + destruct (Hex Hc Ht) as (Hu1 & -> & -> & ->).
      assert (size (Player.units p) ≤ size (Player.units r.1))%nat
        by (apply subseteq_size; set_solver).
      lia.
Qed.

(** *** [get_view] is read-only *)

Lemma get_view_state g player_id : (get_view get_adjacent_cells g player_id).2 = g.
Proof.
  unfold get_view.
  repeat (case_decide || case_match); simplify_eq; done.
Qed.

Lemma get_view_outcome g player_id e :
  (get_view get_adjacent_cells g player_id).1 = Raise e → e = AssertionError.
Proof.
  unfold get_view.
  repeat (case_decide || case_match); simplify_eq; cbn; congruence.
Qed.

(** *** What a round keeps *)

Lemma continues_refl g : game_ok g → continues g g.
Proof. intros H. by split_and!. Qed.

Lemma continues_trans g1 g2 g3 : continues g1 g2 → continues g2 g3 → continues g1 g3.
Proof.
  intros (? & ? & ? & ?) (? & ? & ? & ?).
  split_and!; [done|lia|congruence|congruence].
Qed.

(** One resolved move of the player to move, or of the other player. *)
Lemma active_move_continues g cell :
  game_ok g → cell ∈ Player.reachable (Game.active_player g) →
  let r := _make_turn get_adjacent_cells (Game.preferences g) (Game.trenches g) cell
             (Game.active_player g) (Game.passive_player g) in
  continues g (Game.with_passive_player r.2 (Game.with_active_player r.1 g)).
Proof.
  intros ((Ha1 & Ha2 & Ha3) & Hp & Hat & Hpt) Hcell r.
  destruct (_make_turn_ok (Game.preferences g) (Game.trenches g) cell
              (Game.active_player g) (Game.passive_player g) Hp Hat Hpt)
    as (? & ? & ? & ?).
  destruct (_make_turn_sizes (Game.preferences g) (Game.trenches g) cell
              (Game.active_player g) (Game.passive_player g) Ha3 Hcell)
    as [_ Hle].
  unfold continues, game_ok. by split_and!.
Qed.

Lemma passive_move_continues g cell :
  game_ok g → cell ∈ Player.reachable (Game.passive_player g) →
  let r := _make_turn get_adjacent_cells (Game.preferences g) (Game.trenches g) cell
             (Game.passive_player g) (Game.active_player g) in
  continues g (Game.with_passive_player r.1 (Game.with_active_player r.2 g)).
Proof.
  intros (Ha & (Hp1 & Hp2 & Hp3) & Hat & Hpt) Hcell r.
  destruct (_make_turn_ok (Game.preferences g) (Game.trenches g) cell
              (Game.passive_player g) (Game.active_player g) Ha Hpt Hat)
    as (? & ? & ? & ?).
  destruct (_make_turn_sizes (Game.preferences g) (Game.trenches g) cell
              (Game.passive_player g) (Game.active_player g) Hp3 Hcell)
    as [_ Hle].
  unfold continues, game_ok. split_and!; try done.
  unfold territory.
  cbn [Game.active_player Game.passive_player Game.with_passive_player
       Game.with_active_player].
  subst r. lia.
Qed.

Lemma bot_round_continues game_bot n : ∀ i g,
  game_ok g →
  continues g (bot_round get_adjacent_cells game_bot n i g).2.
Proof.
  induction n as [|n IH]; intros i g Hok; simpl.
  - by apply continues_refl.
  - case_decide as Hempty.
    { destruct Hok as (?&?&?&?). unfold continues, game_ok. by split_and!. }
    pose proof (get_view_state g (Player.id (Game.passive_player g))) as Hst.
    destruct (get_view _ _ _) as [[view|e] g1]; simpl in Hst; subst g1;
      [|by apply continues_refl].
    case_decide as Hcell; [|by apply continues_refl].
    pose proof (passive_move_continues g _ Hok Hcell) as Hmove.
    cbv zeta in Hmove.
    destruct (_make_turn _ _ _ _ _ _) as [passive active].
    cbn [fst snd] in Hmove.
    eapply continues_trans; [exact Hmove|].
    match goal with |- continues ?a (bot_round _ _ _ _ ?b).2 =>
      change (continues b (bot_round get_adjacent_cells game_bot n (S i) b).2)
    end.
    apply IH. destruct Hmove as ((?&?&?&?)&_). unfold game_ok. by split_and!.
Qed.

(** The bot's round leaves the preferences alone, and can only fail an
    assertion. *)
Lemma bot_round_preferences game_bot n : ∀ i g,
  Game.preferences (bot_round get_adjacent_cells game_bot n i g).2
  = Game.preferences g.
Proof.
  induction n as [|n IH]; intros i g; simpl; [done|].
  case_decide; [done|].
  pose proof (get_view_state g (Player.id (Game.passive_player g))) as Hst.
  destruct (get_view _ _ _) as [[view|e] g1]; simpl in Hst; subst g1; [|done].
  case_decide; [|done].
  destruct (_make_turn _ _ _ _ _ _) as [passive active].
  by rewrite IH.
Qed.

Lemma bot_round_outcome game_bot n : ∀ i g,
  (bot_round get_adjacent_cells game_bot n i g).1 = Return tt
  ∨ (bot_round get_adjacent_cells game_bot n i g).1 = Raise AssertionError.
Proof.
  induction n as [|n IH]; intros i g; simpl; [by left|].
  case_decide; [by left|].
  pose proof (get_view_outcome g (Player.id (Game.passive_player g))) as Hout.
  destruct (get_view _ _ _) as [[view|e] g1]; simpl in Hout.
  - case_decide; [|by right].
    destruct (_make_turn _ _ _ _ _ _) as [passive active]. apply IH.
  - right. cbn. f_equal. by apply Hout.
Qed.

(** *** Round bookkeeping does not touch the board *)

Lemma mark_exhausted_continues g0 g :
  continues g0 g → continues g0 (mark_exhausted g).
Proof. unfold mark_exhausted. by case_match. Qed.

Lemma with_turns_left_continues g0 g n :
  continues g0 g → continues g0 (Game.with_turns_left n g).
Proof. done. Qed.

Lemma reset_turns_left_continues g0 g :
  continues g0 g → continues g0 (reset_turns_left g).
Proof. done. Qed.

Lemma increment_turn_count_continues g0 g :
  continues g0 g → continues g0 (increment_turn_count g).
Proof. done. Qed.

Lemma escalate_continues g0 g (b : bool) :
  continues g0 g →
  continues g0 (reset_turns_left (if b then increment_turn_count g else g)).
Proof. by destruct b. Qed.

Lemma swap_continues g0 g :
  continues g0 g →
  continues g0 (Game.with_passive_player (Game.active_player g)
                  (Game.with_active_player (Game.passive_player g) g)).
Proof.
  intros ((?&?&?&?)&Hle&?&?). unfold continues, game_ok. split_and!; try done.
  unfold territory in *. cbn. lia.
Qed.

Lemma _decrement_turns_continues game_bot g :
  game_ok g → continues g (_decrement_turns get_adjacent_cells game_bot g).2.
Proof.
  intros Hok. unfold _decrement_turns. cbv zeta.
  set (g1 := Game.with_turns_left (Game.turns_left g - 1) g).
  assert (continues g g1) as H1
    by (by apply with_turns_left_continues, continues_refl).
  case_decide; [|by apply mark_exhausted_continues].
  set (g2 := reset_turns_left _).
  assert (continues g g2) as H2 by (by apply escalate_continues).
  case_match; [|by apply mark_exhausted_continues, swap_continues].
  pose proof (bot_round_continues game_bot
                (Z.to_nat (GamePreferences.turn_count (Game.preferences g2)))
                0 g2 (proj1 H2)) as H3.
  destruct (bot_round _ _ _ _ _) as [[[]|e] g3]; cbn [fst snd] in *.
  - apply mark_exhausted_continues, escalate_continues.
    by eapply continues_trans.
  - by eapply continues_trans.
Qed.

Lemma _decrement_turns_outcome game_bot g :
  (_decrement_turns get_adjacent_cells game_bot g).1 = Return tt
  ∨ (_decrement_turns get_adjacent_cells game_bot g).1 = Raise AssertionError.
Proof.
  unfold _decrement_turns. cbv zeta.
  case_decide; [|by left]. case_match; [|by left].
  match goal with |- context [bot_round _ ?b ?n ?i ?g] =>
    pose proof (bot_round_outcome b n i g) as Hout end.
  destruct (bot_round _ _ _ _ _) as [[[]|e] g3]; cbn [fst snd] in *; [by left|].
  exact Hout.
Qed.

Lemma make_turn_continues game_bot g player_id cell :
  game_ok g →
  continues g (make_turn get_adjacent_cells game_bot g player_id cell).2.
Proof.
  intros Hok. unfold make_turn.
  case_decide as Hill; [by apply continues_refl|].
  assert (cell ∈ Player.reachable (Game.active_player g)) as Hcell.
  { destruct (decide (cell ∈ Player.reachable (Game.active_player g))); [done|].
    exfalso. apply Hill. right. by left. }
  pose proof (active_move_continues g cell Hok Hcell) as Hmove.
  cbv zeta in Hmove.
  destruct (_make_turn _ _ _ _ _ _) as [active passive]. cbn [fst snd] in Hmove.
  eapply continues_trans; [exact Hmove|].
  apply _decrement_turns_continues, Hmove.
Qed.

(** *** Board generation *)

Lemma get_symmetric_cell_involutive prefs cell :
  GamePreferences.get_symmetric_cell prefs
    (GamePreferences.get_symmetric_cell prefs cell) = cell.
Proof.
  destruct cell as [x y]. unfold GamePreferences.get_symmetric_cell. cbn.
  f_equal; lia.
Qed.

Lemma _init_players_return rs k g k' g1 :
  _init_players rs k g = (Return k', g1) →
  ∃ first_base_y second_base_y : Z,
    let edge := GamePreferences.size (Game.preferences g) in
    let double := GamePreferences.is_double_base (Game.preferences g) in
    Game.preferences g1 = Game.preferences g
    ∧ Player.units (Game.active_player g1)
      = (if double then {[ (1, second_base_y) ]} else ∅)
        ∪ {[ (1, first_base_y) ]} ∪ Player.units (Game.active_player g)
    ∧ Player.units (Game.passive_player g1)
      = (if double then {[ (edge, edge - second_base_y + 1) ]} else ∅)
        ∪ {[ (edge, edge - first_base_y + 1) ]}
        ∪ Player.units (Game.passive_player g).
Proof.
  unfold _init_players. cbv zeta.
  destruct (if GamePreferences.is_with_random_bases (Game.preferences g)
            then randint rs k 1 _ else _) as [[fy k1]|e]; [|done].
  destruct (if GamePreferences.is_with_random_bases (Game.preferences g)
            then randint rs k1 _ _ else _) as [[sy k2]|e]; [|done].
  destruct (GamePreferences.is_double_base (Game.preferences g));
    intros [= <- <-]; exists fy, sy; cbn;
    split_and!; try done; apply leibniz_equiv; set_solver.
Qed.

Lemma trench_candidate_ok rs g x acc y :
  yielded_ok g acc.1 → yielded_ok g (trench_candidate rs g x acc y).1.
Proof.
  destruct acc as [yielded k]. unfold trench_candidate. cbv zeta.
  intros Hok. case_decide as Hcond; [|done]. case_decide; [|done].
  destruct Hcond as (_ & Ha & Hp). cbn [fst].
  set (size := GamePreferences.size (Game.preferences g)) in *.
  assert (GamePreferences.get_symmetric_cell (Game.preferences g) (x + 1, y + 1)
          = (size - x, size - y)) as Hm1
    by (unfold GamePreferences.get_symmetric_cell; cbn; f_equal; lia).
  assert (GamePreferences.get_symmetric_cell (Game.preferences g) (size - x, size - y)
          = (x + 1, y + 1)) as Hm2
    by (rewrite <- Hm1; apply get_symmetric_cell_involutive).
  intros c Hc. rewrite !elem_of_app, !elem_of_cons, elem_of_nil in *.
  destruct Hc as [Hc|[->|[->|[]]]].
  - destruct (Hok c Hc) as [? ?]. auto.
  - rewrite Hm1. split; [auto|]. by left.
  - rewrite Hm2. split; [auto|]. by right.
Qed.

Lemma _generate_trenches_ok rs k g : yielded_ok g (_generate_trenches rs k g).1.
Proof.
  unfold _generate_trenches. cbv zeta.
  case_decide; [intros c Hc; by apply elem_of_nil in Hc|].
  apply (foldl_invariant (λ acc, yielded_ok g acc.1)).
  - intros c Hc. by apply elem_of_nil in Hc.
  - intros acc x Hacc. unfold trench_column. cbv zeta.
    apply (foldl_invariant (λ acc, yielded_ok g acc.1)); [done|].
    intros; by apply trench_candidate_ok.
Qed.

Lemma init_return rs g0 g :
  init get_adjacent_cells rs g0 = (Return tt, g) →
  ∃ k g1,
    _init_players rs 0 g0 = (Return k, g1)
    ∧ let trenches := list_to_set (_generate_trenches rs k g1).1 in
      let active :=
        _rebuild_reachable_set get_adjacent_cells (Game.preferences g1) trenches
          (Game.active_player g1) (Game.passive_player g1) in
      let passive :=
        _rebuild_reachable_set get_adjacent_cells (Game.preferences g1) trenches
          (Game.passive_player g1) active in
      g = Game.mk (Game.id g1) (Game.preferences g1)
            (GamePreferences.turn_count (Game.preferences g1))
            active passive trenches.
Proof.
  unfold init. case_decide; [|done].
  destruct (_init_players rs 0 g0) as [[k|e] g1]; [|done].
  intros [= <-]. by exists k, g1.
Qed.

Lemma init_ok rs g0 g :
  Player.units (Game.active_player g0) = ∅ →
  Player.units (Game.passive_player g0) = ∅ →
  init get_adjacent_cells rs g0 = (Return tt, g) →
  game_ok g.
Proof.
  intros Ha0 Hp0 Hinit.
  apply init_return in Hinit as (k & g1 & Hplayers & ->).
  apply _init_players_return in Hplayers as (fy & sy & Hprefs & Ha & Hp).
  cbv zeta in Ha, Hp. rewrite Ha0 in Ha. rewrite Hp0 in Hp.
  pose proof (_generate_trenches_ok rs k g1) as Hyield.
  unfold game_ok.
  cbn [Game.active_player Game.passive_player Game.trenches].
  rewrite !rebuild_units.
  assert (∀ c, c ∈ Player.units (Game.active_player g1)
                   ∪ Player.units (Game.passive_player g1) →
               GamePreferences.get_symmetric_cell (Game.preferences g1) c
               ∈ Player.units (Game.active_player g1)
                 ∪ Player.units (Game.passive_player g1)) as Hmirror.
  { intros c. rewrite Ha, Hp, Hprefs.
    set (edge := GamePreferences.size (Game.preferences g0)).
    assert (∀ y, GamePreferences.get_symmetric_cell (Game.preferences g0) (1, y)
                 = (edge, edge - y + 1)) as H1
      by (intros; unfold GamePreferences.get_symmetric_cell; cbn; f_equal; lia).
    assert (∀ y, GamePreferences.get_symmetric_cell (Game.preferences g0)
                   (edge, edge - y + 1) = (1, y)) as H2
      by (intros; rewrite <- H1; apply get_symmetric_cell_involutive).
    destruct (GamePreferences.is_double_base (Game.preferences g0));
      set_unfold; intros Hc;
      repeat match goal with H : _ ∨ _ |- _ => destruct H end;
      subst; rewrite ?H1, ?H2; tauto. }
  assert (∀ c, c ∈ Player.units (Game.active_player g1)
                   ∪ Player.units (Game.passive_player g1) →
               c ∉ (_generate_trenches rs k g1).1) as Hfree.
  { intros c Hc Hin. destruct (Hyield c Hin) as [_ [[? ?]|[? ?]]]; [set_solver|].
    apply Hmirror in Hc. set_solver. }
  split_and!.
  - apply rebuild_side_ok. by rewrite rebuild_walls.
  - by apply rebuild_side_ok.
  - intros c Hc Ht. apply elem_of_list_to_set in Ht. apply (Hfree c); set_solver.
  - intros c Hc Ht. apply elem_of_list_to_set in Ht. apply (Hfree c); set_solver.
Qed.

Lemma game_reachable_ok g : game_reachable get_adjacent_cells g → game_ok g.
Proof.
  induction 1 as [rs g0 g Ha Hp Hinit|game_bot g player_id cell g' _ IH Hturn].
  - by eapply init_ok.
  - pose proof (make_turn_continues game_bot g player_id cell IH) as Hc.
    rewrite Hturn in Hc. apply Hc.
Qed.

(** *** The claims about a game in play *)

(** C1: in every state reached by [init] and then any sequence of
    [make_turn] calls that return, the reachable set of each player holds no
    unit of that player and no wall of the other player. *)
Theorem reachable_avoids_own_units_and_opponent_walls (g : Game.t) :
  game_reachable get_adjacent_cells g →
  Player.reachable (Game.active_player g) ∩ Player.units (Game.active_player g) = ∅
  ∧ Player.reachable (Game.active_player g) ∩ Player.walls (Game.passive_player g) = ∅
  ∧ Player.reachable (Game.passive_player g) ∩ Player.units (Game.passive_player g) = ∅
  ∧ Player.reachable (Game.passive_player g) ∩ Player.walls (Game.active_player g) = ∅.
Proof.
  intros Hreach.
  destruct (game_reachable_ok g Hreach) as ((Hau & Haw & _) & (Hpu & Hpw & _) & _).
  split_and!; by apply disjoint_intersection_L.
Qed.

(** C10: in every such state no unit of either player lies on a trench. *)
Theorem units_disjoint_from_trenches (g : Game.t) :
  game_reachable get_adjacent_cells g →
  Player.units (Game.active_player g) ∩ Game.trenches g = ∅
  ∧ Player.units (Game.passive_player g) ∩ Game.trenches g = ∅.
Proof.
  intros Hreach.
  destruct (game_reachable_ok g Hreach) as (_ & _ & Ha & Hp).
  split; by apply disjoint_intersection_L.
Qed.

(** C4: in a state of a game in play, resolving a cell of the mover's
    reachable set that is a unit of the opponent takes exactly one unit from
    the opponent and gives exactly one wall to the mover; resolving any
    reachable cell does not lower [|units| + |walls|] summed over both
    players, and neither does the whole [make_turn] call, the bot's moves
    included. *)
Theorem capture_moves_one_cell_and_territory_never_shrinks (g : Game.t) (cell : Cell) :
  game_reachable get_adjacent_cells g →
  cell ∈ Player.reachable (Game.active_player g) →
  let mover := Game.active_player g in
  let opponent := Game.passive_player g in
  let r := _make_turn get_adjacent_cells (Game.preferences g) (Game.trenches g)
             cell mover opponent in
  (cell ∈ Player.units opponent →
     size (Player.units opponent) = S (size (Player.units r.2))
     ∧ size (Player.walls r.1) = S (size (Player.walls mover)))
  ∧ (size (Player.units mover) + size (Player.walls mover)
     + size (Player.units opponent) + size (Player.walls opponent)
     ≤ size (Player.units r.1) + size (Player.walls r.1)
       + size (Player.units r.2) + size (Player.walls r.2))%nat
  ∧ ∀ game_bot player_id g',
      make_turn get_adjacent_cells game_bot g player_id cell = (Return tt, g') →
      (territory g ≤ territory g')%nat.
Proof.
  intros Hreach Hcell mover opponent r.
  pose proof (game_reachable_ok g Hreach) as Hok.
  destruct Hok as ((_ & _ & Hdis) & Hrest).
  destruct (_make_turn_sizes (Game.preferences g) (Game.trenches g) cell
              mover opponent Hdis Hcell) as [Hcap Hsum].
  split; [exact Hcap|]. split; [exact Hsum|].
  intros game_bot player_id g' Hturn.
  pose proof (make_turn_continues game_bot g player_id cell
                (game_reachable_ok g Hreach)) as Hc.
  rewrite Hturn in Hc. apply Hc.
Qed.

(** C2: [make_turn] raises [IllegalTurnException] exactly when the
    submitter is not the active player, or the cell is not in the active
    player's reachable set, or one of the two players cannot win any more;
    and when it does, the game is as it was before the call. *)
Theorem make_turn_raises_illegal_turn_iff (game_bot : GameBot) (g : Game.t)
    (player_id : string) (cell : Cell) :
  let r := make_turn get_adjacent_cells game_bot g player_id cell in
  ((∃ game_id submitter c, r.1 = Raise (IllegalTurnException game_id submitter c))
   ↔ (player_id ≠ Player.id (Game.active_player g)
      ∨ cell ∉ Player.reachable (Game.active_player g)
      ∨ Player.can_win (Game.active_player g) = false
      ∨ Player.can_win (Game.passive_player g) = false))
  ∧ (∀ game_id submitter c,
       r.1 = Raise (IllegalTurnException game_id submitter c) →
       r.2 = g ∧ game_id = Game.id g ∧ submitter = player_id ∧ c = cell).
Proof.
  intros r. subst r. unfold make_turn.
  assert (turn_is_illegal g player_id cell
          ↔ (player_id ≠ Player.id (Game.active_player g)
             ∨ cell ∉ Player.reachable (Game.active_player g)
             ∨ Player.can_win (Game.active_player g) = false
             ∨ Player.can_win (Game.passive_player g) = false)) as Hiff.
  { unfold turn_is_illegal.
    destruct (Player.can_win (Game.active_player g)),
             (Player.can_win (Game.passive_player g)); naive_solver. }
  case_decide as Hill.
  - cbn [fst snd]. split.
    + split; [intros _; by apply Hiff|]. intros _. eauto.
    + intros ??? [= -> -> ->]. done.
  - destruct (_make_turn _ _ _ _ _ _) as [active passive].
    match goal with |- context [_decrement_turns _ ?b ?g1] =>
      pose proof (_decrement_turns_outcome b g1) as Hout; set (d := _decrement_turns _ b g1) in *
    end.
    split.
    + split.
      * intros (?&?&?&Hr). rewrite Hr in Hout. by destruct Hout.
      * intros H. by apply Hiff in H.
    + intros ??? Hr. rewrite Hr in Hout. by destruct Hout.
Qed.

(** C3: [_make_turn] classifies the cell as capture, else trench, else
    expansion.  Capture: the cell leaves the opponent's units, enters the
    mover's walls, and the opponent is rebuilt against the mover.  Trench:
    the cell enters the mover's walls and the opponent changes only by losing
    the cell from its reachable set.  Expansion: the cell enters the mover's
    units and the opponent is untouched.  In each case the mover is rebuilt
    last, against the opponent as the case left it. *)
Theorem _make_turn_classifies (prefs : GamePreferences.t) (trenches : gset Cell)
    (cell : Cell) (player opponent : Player.t) :
  let r := _make_turn get_adjacent_cells prefs trenches cell player opponent in
  let rebuild := _rebuild_reachable_set get_adjacent_cells prefs trenches in
  let walled := Player.with_walls ({[cell]} ∪ Player.walls player) player in
  (cell ∈ Player.units opponent →
     r.2 = rebuild (Player.with_units (Player.units opponent ∖ {[cell]}) opponent)
                   walled
     ∧ r.1 = rebuild walled r.2
     ∧ Player.units r.2 = Player.units opponent ∖ {[cell]}
     ∧ Player.walls r.2 = Player.walls opponent
     ∧ Player.walls r.1 = {[cell]} ∪ Player.walls player
     ∧ Player.units r.1 = Player.units player)
  ∧ (cell ∉ Player.units opponent → cell ∈ trenches →
     r.2 = Player.with_reachable (Player.reachable opponent ∖ {[cell]}) opponent
     ∧ r.1 = rebuild walled r.2
     ∧ Player.walls r.1 = {[cell]} ∪ Player.walls player
     ∧ Player.units r.1 = Player.units player)
  ∧ (cell ∉ Player.units opponent → cell ∉ trenches →
     r.2 = opponent
     ∧ r.1 = rebuild (Player.with_units ({[cell]} ∪ Player.units player) player) r.2
     ∧ Player.units r.1 = {[cell]} ∪ Player.units player
     ∧ Player.walls r.1 = Player.walls player).
Proof.
  intros r rebuild walled.
  destruct (_make_turn_holdings prefs trenches cell player opponent)
    as (Hcap & Htr & Hex).
  fold r in Hcap, Htr, Hex.
  split_and!.
  - intros Hc. destruct (Hcap Hc) as (? & ? & ? & ?).
    assert (r.2 = rebuild (Player.with_units (Player.units opponent ∖ {[cell]})
                             opponent) walled
            ∧ r.1 = rebuild walled r.2) as [? ?].
    { subst r rebuild walled. unfold _make_turn.
      rewrite decide_True by done. done. }
    by split_and!.
  - intros Hc Ht. destruct (Htr Hc Ht) as (? & ? & ? & ?).
    assert (r.2 = Player.with_reachable (Player.reachable opponent ∖ {[cell]})
                    opponent
            ∧ r.1 = rebuild walled r.2) as [? ?].
    { subst r rebuild walled. unfold _make_turn.
      rewrite decide_False by done. rewrite decide_True by done. done. }
    by split_and!.
  - intros Hc Ht. destruct (Hex Hc Ht) as (? & ? & ? & ?).
    assert (r.2 = opponent
            ∧ r.1 = rebuild (Player.with_units ({[cell]} ∪ Player.units player)
                               player) r.2) as [? ?].
    { subst r rebuild. unfold _make_turn.
      rewrite decide_False by done. rewrite decide_False by done. done. }
    by split_and!.
Qed.

Lemma mark_exhausted_counters g :
  Game.preferences (mark_exhausted g) = Game.preferences g
  ∧ Game.turns_left (mark_exhausted g) = Game.turns_left g.
Proof. unfold mark_exhausted. by case_match. Qed.

Lemma _decrement_turns_deathmatch_bot game_bot g g' :
  GamePreferences.is_deathmatch (Game.preferences g) = true →
  GamePreferences.is_against_bot (Game.preferences g) = true →
  Game.turns_left g - 1 = 0 →
  _decrement_turns get_adjacent_cells game_bot g = (Return tt, g') →
  let n := GamePreferences.turn_count (Game.preferences g) in
  ∃ g_before g_after,
    GamePreferences.turn_count (Game.preferences g_before) = n + 1
    ∧ Game.turns_left g_before = n + 1
    ∧ bot_round get_adjacent_cells game_bot (Z.to_nat (n + 1)) 0 g_before
      = (Return tt, g_after)
    ∧ GamePreferences.turn_count (Game.preferences g_after) = n + 1
    ∧ g' = mark_exhausted (reset_turns_left (increment_turn_count g_after)).
Proof.
  intros Hdm Hbot Hleft Hdec n. revert Hdec.
  unfold _decrement_turns. cbv zeta.
  rewrite decide_True by done.
  change (GamePreferences.is_deathmatch
            (Game.preferences (Game.with_turns_left (Game.turns_left g - 1) g)))
    with (GamePreferences.is_deathmatch (Game.preferences g)).
  rewrite Hdm.
  set (g1 := reset_turns_left
               (increment_turn_count
                  (Game.with_turns_left (Game.turns_left g - 1) g))).
  assert (GamePreferences.turn_count (Game.preferences g1) = n + 1) as Hn1 by done.
  assert (Game.turns_left g1 = n + 1) as Ht1 by done.
  assert (GamePreferences.is_against_bot (Game.preferences g1) = true) as Hb1 by done.
  assert (GamePreferences.is_deathmatch (Game.preferences g1) = true) as Hd1 by done.
  clearbody g1. rewrite Hb1, Hn1.
  pose proof (bot_round_preferences game_bot (Z.to_nat (n + 1)) 0 g1) as Hprefs.
  destruct (bot_round get_adjacent_cells game_bot (Z.to_nat (n + 1)) 0 g1)
    as [[[]|e] g2] eqn:Hround; [|done].
  cbn [snd] in Hprefs. rewrite Hprefs, Hd1.
  intros [= <-]. exists g1, g2. split_and!; try done. by rewrite Hprefs.
Qed.

(** C5: deathmatch against a bot.  When the human's move brings
    [turns_left] to zero and [make_turn] returns, [turn_count] is two more
    than before and [turns_left] equals it: the first increment is made
    before the bot's round, which runs with [turn_count + 1] moves, the second
    after it. *)
Theorem deathmatch_bot_round_adds_two_to_turn_count (game_bot : GameBot)
    (g : Game.t) (player_id : string) (cell : Cell) (g' : Game.t) :
  GamePreferences.is_deathmatch (Game.preferences g) = true →
  GamePreferences.is_against_bot (Game.preferences g) = true →
  Game.turns_left g - 1 = 0 →
  make_turn get_adjacent_cells game_bot g player_id cell = (Return tt, g') →
  let n := GamePreferences.turn_count (Game.preferences g) in
  GamePreferences.turn_count (Game.preferences g') = n + 2
  ∧ Game.turns_left g' = GamePreferences.turn_count (Game.preferences g')
  ∧ ∃ g_before g_after,
      GamePreferences.turn_count (Game.preferences g_before) = n + 1
      ∧ Game.turns_left g_before = n + 1
      ∧ bot_round get_adjacent_cells game_bot (Z.to_nat (n + 1)) 0 g_before
        = (Return tt, g_after)
      ∧ GamePreferences.turn_count (Game.preferences g_after) = n + 1
      ∧ g' = mark_exhausted (reset_turns_left (increment_turn_count g_after)).
Proof.
  intros Hdm Hbot Hleft Hturn n. revert Hturn. unfold make_turn.
  case_decide; [done|].
  destruct (_make_turn _ _ _ _ _ _) as [active passive].
  intros Hdec.
  apply _decrement_turns_deathmatch_bot in Hdec
    as (g_before & g_after & Hn & Ht & Hround & Hafter & ->); try done.
  cbv zeta in *.
  change (Game.preferences
            (Game.with_passive_player passive (Game.with_active_player active g)))
    with (Game.preferences g) in *.
  fold n in Hn, Ht, Hround, Hafter.
  destruct (mark_exhausted_counters
              (reset_turns_left (increment_turn_count g_after))) as [Hp Hl].
  rewrite Hp, Hl. cbn. rewrite Hafter.
  split; [lia|]. split; [done|].
  exists g_before, g_after. by split_and!.
Qed.

(** C6: whatever the preferences and the draws, the trench set [init]
    leaves is closed under point symmetry. *)
Theorem trenches_closed_under_point_symmetry (rs : RandomSource)
    (g g' : Game.t) (c : Cell) :
  init get_adjacent_cells rs g = (Return tt, g') →
  c ∈ Game.trenches g' →
  GamePreferences.get_symmetric_cell (Game.preferences g') c ∈ Game.trenches g'.
Proof.
  intros Hinit Hc.
  apply init_return in Hinit as (k & g1 & _ & ->).
  cbn in *. apply elem_of_list_to_set in Hc. apply elem_of_list_to_set.
  by apply _generate_trenches_ok.
Qed.

End Rules.

(** ** Evaluation on concrete boards *)

(** Scenario A of the spec: after [init] each player can reach exactly the
    neighbours of their base. *)
Example scenario_a_reachable :
  Player.reachable (Game.active_player (started plain_prefs))
  = {[ (1, 2); (2, 1); (2, 2) ]}
  ∧ Player.reachable (Game.passive_player (started plain_prefs))
    = {[ (4, 4); (4, 5); (5, 4) ]}.
Proof. split; vm_compute; reflexivity. Qed.

(** Scenario A, second half: a cell that is no neighbour of the base is
    refused, and the game stays as it was. *)
Example scenario_a_illegal_turn :
  make_turn square_adjacent_cells first_reachable_bot (started plain_prefs) "a" (3, 3)
  = (Raise (IllegalTurnException "g" "a" (3, 3)), started plain_prefs).
Proof. vm_compute. reflexivity. Qed.

(** Scenario D: after three moves of the same player the roles swap and
    [turns_left] is 3 again. *)
Example scenario_d_round_of_three :
  let g := play "a" [(2, 2); (3, 3); (2, 1)] (started three_move_prefs) in
  Player.id (Game.active_player g) = "b" ∧ Game.turns_left g = 3
  ∧ Player.units (Game.passive_player g) = {[ (1, 1); (2, 2); (3, 3); (2, 1) ]}.
Proof. split_and!; vm_compute; reflexivity. Qed.

(** C7: with [is_double_base] set and [is_with_random_bases] unset, both
    base rows are [1], the second placement adds the cell already there, and
    after [init] each player holds a single base. *)
Theorem double_base_with_fixed_rows_places_one_base
    (get_adjacent_cells : GamePreferences.t → Cell → list Cell)
    (rs : RandomSource) (size turn_count : Z) (fog bot : bool) (density : Z)
    (deathmatch : bool) :
  let prefs :=
    GamePreferences.mk size turn_count fog bot density true false deathmatch in
  let r := init get_adjacent_cells rs (new_game prefs) in
  r.1 = Return tt
  ∧ Player.units (Game.active_player r.2) = {[ (1, 1) ]}
  ∧ Player.units (Game.passive_player r.2) = {[ (size, size) ]}.
Proof.
  intros prefs r. subst r. unfold init.
  rewrite decide_True by done.
  unfold _init_players, prefs. cbn [GamePreferences.is_with_random_bases
    GamePreferences.is_double_base GamePreferences.size Game.preferences new_game].
  cbn [fst snd Game.active_player Game.passive_player Game.with_active_player
       Game.with_passive_player Game.with_trenches reset_turns_left
       Game.with_turns_left].
  rewrite !rebuild_units.
  cbn [add_unit new_player Player.units Player.with_units].
  replace (size - 1 + 1) with size by lia.
  split; [done|]. split; apply leibniz_equiv; set_solver.
Qed.

(** With random bases on a board of odd size the two row ranges share the
    middle row, and a player's two bases can be one cell as well. *)
Example double_base_random_rows_can_coincide :
  let g := (init square_adjacent_cells middle_draws (new_game random_double_prefs)).2 in
  Player.units (Game.active_player g) = {[ (1, 3) ]}
  ∧ Player.units (Game.passive_player g) = {[ (5, 3) ]}.
Proof. split; vm_compute; reflexivity. Qed.

(** *** The theorems at concrete games *)

Lemma reachable_sets_after_first_move :
  let g := (make_turn square_adjacent_cells first_reachable_bot
              (started plain_prefs) "a" (2, 2)).2 in
  Player.reachable (Game.active_player g) ∩ Player.units (Game.active_player g) = ∅
  ∧ Player.reachable (Game.active_player g) ∩ Player.walls (Game.passive_player g) = ∅
  ∧ Player.reachable (Game.passive_player g) ∩ Player.units (Game.passive_player g) = ∅
  ∧ Player.reachable (Game.passive_player g) ∩ Player.walls (Game.active_player g) = ∅.
Proof.
  apply (reachable_avoids_own_units_and_opponent_walls square_adjacent_cells).
  eapply (reachable_make_turn square_adjacent_cells first_reachable_bot
            (started plain_prefs) "a" (2, 2)).
  - eapply (reachable_init square_adjacent_cells lowest_draws (new_game plain_prefs)).
    + reflexivity.
    + reflexivity.
    + vm_compute. reflexivity.
  - vm_compute. reflexivity.
Defined.

Lemma units_off_trenches_on_full_trench_board :
  Player.units (Game.active_player (started trench_prefs))
    ∩ Game.trenches (started trench_prefs) = ∅
  ∧ Player.units (Game.passive_player (started trench_prefs))
      ∩ Game.trenches (started trench_prefs) = ∅.
Proof.
  apply (units_disjoint_from_trenches square_adjacent_cells).
  eapply (reachable_init square_adjacent_cells lowest_draws (new_game trench_prefs)).
  - reflexivity.
  - reflexivity.
  - vm_compute. reflexivity.
Defined.

Lemma capture_on_tiny_board :
  let g := started tiny_prefs in
  let r := _make_turn square_adjacent_cells (Game.preferences g) (Game.trenches g)
             (2, 2) (Game.active_player g) (Game.passive_player g) in
  size (Player.units (Game.passive_player g)) = S (size (Player.units r.2))
  ∧ size (Player.walls r.1) = S (size (Player.walls (Game.active_player g))).
Proof.
  refine (proj1 (capture_moves_one_cell_and_territory_never_shrinks
                   square_adjacent_cells (started tiny_prefs) (2, 2) _ _) _).
  - eapply (reachable_init square_adjacent_cells lowest_draws (new_game tiny_prefs)).
    + reflexivity.
    + reflexivity.
    + vm_compute. reflexivity.
  - vm_compute. reflexivity.
  - vm_compute. reflexivity.
Defined.

Lemma turn_count_after_first_deathmatch_round :
  let g := started deathmatch_prefs in
  let g' := (make_turn square_adjacent_cells first_reachable_bot g "a" (2, 2)).2 in
  GamePreferences.turn_count (Game.preferences g')
  = GamePreferences.turn_count (Game.preferences g) + 2
  ∧ Game.turns_left g' = GamePreferences.turn_count (Game.preferences g').
Proof.
  intros g g'.
  destruct (deathmatch_bot_round_adds_two_to_turn_count square_adjacent_cells
              first_reachable_bot g "a" (2, 2) g') as (Hcount & Hleft & _).
  - reflexivity.
  - reflexivity.
  - vm_compute. reflexivity.
  - vm_compute. reflexivity.
  - split; [exact Hcount|exact Hleft].
Defined.

Lemma mirror_of_trench_is_trench :
  GamePreferences.get_symmetric_cell (Game.preferences (started trench_prefs)) (1, 2)
  ∈ Game.trenches (started trench_prefs).
Proof.
  apply (trenches_closed_under_point_symmetry square_adjacent_cells lowest_draws
           (new_game trench_prefs) (started trench_prefs) (1, 2)).
  - vm_compute. reflexivity.
  - vm_compute. reflexivity.
Defined.


(** ** What [_rebuild_reachable_set] computes *)

Section Flood.
Variables (prefs : GamePreferences.t) (trenches : gset Cell) (opponent : Player.t).

Lemma player_effect_refl (L : Cell → Prop) p :
  (∀ c, ¬ L c) → player_effect prefs trenches opponent L p p.
Proof. intros HL. unfold player_effect. split_and!; try done; naive_solver. Qed.

Lemma player_effect_trans (L1 L2 L : Cell → Prop) p1 p2 p3 :
  (∀ c, L c ↔ L1 c ∨ L2 c) →
  player_effect prefs trenches opponent L1 p1 p2 →
  player_effect prefs trenches opponent L2 p2 p3 →
  player_effect prefs trenches opponent L p1 p3.
Proof.
  intros HL (Hi1 & Hu1 & Hw1 & Hv1 & Hg1 & Hd1 & Hr1 & Ho1 & Ht1)
            (Hi2 & Hu2 & Hw2 & Hv2 & Hg2 & Hd2 & Hr2 & Ho2 & Ht2).
  rewrite Hu1, Hw1 in Hr2.
  unfold player_effect. split_and!; try congruence.
  - intros c. rewrite Hr2, Hr1, HL. tauto.
  - intros c. rewrite Ho2, Ho1, HL. tauto.
  - intros c. rewrite Ht2, Ht1. split.
    + intros [[?|(? & t & ? & ?)]|(? & t & ? & ?)]; [by left|right..];
        (split; [done|]); exists t; rewrite HL; tauto.
    + intros [?|(? & t & Ht & ?)]; [tauto|]. apply HL in Ht as [?|?].
      * left. right. split; [done|]. by exists t.
      * right. split; [done|]. by exists t.
Qed.

Lemma pass_effect_refl sources (L : Cell → Prop) st :
  (∀ c, ¬ L c) → pass_effect prefs trenches opponent sources L st st.
Proof.
  intros HL. split; [by apply player_effect_refl|]. naive_solver.
Qed.

Lemma pass_effect_trans sources (L1 L2 L : Cell → Prop) st1 st2 st3 :
  (∀ c, L c ↔ L1 c ∨ L2 c) →
  pass_effect prefs trenches opponent sources L1 st1 st2 →
  pass_effect prefs trenches opponent sources L2 st2 st3 →
  pass_effect prefs trenches opponent sources L st1 st3.
Proof.
  intros HL [Hp1 Hn1] [Hp2 Hn2]. split.
  - by eapply player_effect_trans.
  - intros c. rewrite Hn2, Hn1, HL.
    destruct Hp1 as (_ & _ & -> & _). tauto.
Qed.

Lemma visit_cell_effect sources st cell :
  sources ⊆ Player.units st.1 ∪ Player.walls st.1 →
  pass_effect prefs trenches opponent sources (λ c, c = cell) st
    (visit_cell prefs trenches opponent sources st cell).
Proof.
  destruct st as [p ns]. cbn [fst snd]. intros Hsub.
  unfold visit_cell, pass_effect, player_effect.
  destruct (GamePreferences.is_visibility_applied prefs);
    repeat case_decide; cbn;
    split_and!; try done; intros c; set_unfold; naive_solver.
Qed.

End Flood.

Section FloodLoop.
Variable get_adjacent_cells : GamePreferences.t → Cell → list Cell.
Variables (prefs : GamePreferences.t) (trenches : gset Cell) (opponent : Player.t).

Lemma pass_effect_ext (sources : gset Cell) (L L' : Cell → Prop) (st st' : Player.t * gset Cell) :
  (∀ c, L' c ↔ L c) →
  pass_effect prefs trenches opponent sources L st st' →
  pass_effect prefs trenches opponent sources L' st st'.
Proof.
  intros HL H.
  eapply (pass_effect_trans _ _ _ _ L (λ _, False)); [|exact H|].
  - intros c. rewrite HL. tauto.
  - apply (pass_effect_refl _ _ _ _ (λ _, False)). by intros _ [].
Qed.

Lemma pass_effect_sources (sources : gset Cell) (L : Cell → Prop) (st st' : Player.t * gset Cell) :
  pass_effect prefs trenches opponent sources L st st' →
  sources ⊆ Player.units st.1 ∪ Player.walls st.1 →
  sources ⊆ Player.units st'.1 ∪ Player.walls st'.1.
Proof. intros [(_ & -> & -> & _) _]. done. Qed.

Lemma foldl_pass_effect {B : Type} (sources : gset Cell) (f : Player.t * gset Cell → B → Player.t * gset Cell)
    (Lb : B → Cell → Prop) :
  (∀ st b, sources ⊆ Player.units st.1 ∪ Player.walls st.1 →
           pass_effect prefs trenches opponent sources (Lb b) st (f st b)) →
  ∀ l st, sources ⊆ Player.units st.1 ∪ Player.walls st.1 →
          pass_effect prefs trenches opponent sources (λ c, ∃ b, b ∈ l ∧ Lb b c)
            st (foldl f st l).
Proof.
  intros Hf. induction l as [|b l IH]; intros st Hsub; simpl.
  - apply pass_effect_refl. intros c (b & Hb & _). by apply elem_of_nil in Hb.
  - eapply (pass_effect_trans _ _ _ _ (Lb b) (λ c, ∃ b', b' ∈ l ∧ Lb b' c)).
    + intros c. split.
      * intros (b' & Hb' & Hc). apply elem_of_cons in Hb' as [->|Hb']; eauto.
      * intros [Hc|(b' & Hb' & Hc)]; [exists b|exists b'];
          (split; [|done]); apply elem_of_cons; auto.
    + by apply Hf.
    + apply IH. eapply pass_effect_sources; [by apply Hf|done].
Qed.

Lemma visit_source_effect (sources : gset Cell) (st : Player.t * gset Cell) (source : Cell) :
  sources ⊆ Player.units st.1 ∪ Player.walls st.1 →
  pass_effect prefs trenches opponent sources
    (λ c, c ∈ get_adjacent_cells prefs source) st
    (visit_source get_adjacent_cells prefs trenches opponent sources st source).
Proof.
  intros Hsub. unfold visit_source.
  eapply pass_effect_ext; [|apply (foldl_pass_effect sources _ (λ cell c, c = cell))].
  - intros c. split; [intros ?; by exists c|]. by intros (b & ? & ->).
  - intros st' b ?. by apply visit_cell_effect.
  - done.
Qed.

Lemma frontier_pass_effect (p : Player.t) (sources : gset Cell) :
  sources ⊆ Player.units p ∪ Player.walls p →
  pass_effect prefs trenches opponent sources
    (next_to get_adjacent_cells prefs (λ s, s ∈ sources)) (p, ∅)
    (frontier_pass get_adjacent_cells prefs trenches opponent p sources).
Proof.
  intros Hsub. unfold frontier_pass.
  eapply pass_effect_ext;
    [|apply (foldl_pass_effect sources _ (λ s c, c ∈ get_adjacent_cells prefs s))].
  - intros c. unfold next_to. by setoid_rewrite elem_of_elements.
  - intros st' s ?. by apply visit_source_effect.
  - done.
Qed.

Lemma connected_seeds_mono (seeds seeds' walls : gset Cell) (c : Cell) :
  (∀ s, s ∈ seeds' → connected get_adjacent_cells prefs seeds walls s) →
  connected get_adjacent_cells prefs seeds' walls c →
  connected get_adjacent_cells prefs seeds walls c.
Proof.
  intros Hseeds. induction 1 as [c Hc|s c _ IH Hadj Hw].
  - by apply Hseeds.
  - by eapply connected_wall.
Qed.

Lemma frontier_loop_effect fuel : ∀ (p : Player.t) (sources : gset Cell) (p' : Player.t),
  sources ⊆ Player.units p ∪ Player.walls p →
  frontier_loop get_adjacent_cells fuel prefs trenches opponent p sources = Some p' →
  ∃ F : gset Cell,
    sources ⊆ F
    ∧ (∀ c, c ∈ F → connected get_adjacent_cells prefs sources (Player.walls p) c)
    ∧ (∀ s c, s ∈ F → c ∈ get_adjacent_cells prefs s → c ∈ Player.walls p → c ∈ F)
    ∧ player_effect prefs trenches opponent
        (next_to get_adjacent_cells prefs (λ s, s ∈ F)) p p'.
Proof.
  induction fuel as [|fuel IH]; intros p sources p' Hsub; simpl; [done|].
  pose proof (frontier_pass_effect p sources Hsub) as [Hplayer Hnew].
  destruct (frontier_pass _ _ _ _ _ _) as [p1 ns]. cbn [fst snd] in *.
  case_decide as Hns.
  - intros [= <-]. subst ns. exists sources. split_and!; try done.
    + intros c Hc. by apply connected_seed.
    + intros s c Hs Hadj Hw. destruct (decide (c ∈ sources)) as [|Hout]; [done|].
      exfalso. apply (not_elem_of_empty (C:=gset Cell) c). apply Hnew. right.
      split_and!; try done. by exists s.
  - intros Hloop.
    pose proof Hplayer as (_ & Hu & Hw & _).
    apply IH in Hloop as (F & HF & Hconn & Hclosed & Heffect).
    + exists F. rewrite Hw in Hconn, Hclosed. split_and!.
      * set_solver.
      * intros c Hc. eapply connected_seeds_mono; [|by apply Hconn].
        intros s [Hs|Hs]%elem_of_union; [by apply connected_seed|].
        apply Hnew in Hs as [Hs|((s0 & Hs0 & Hadj) & _ & Hsw)];
          [by apply not_elem_of_empty in Hs|].
        eapply connected_wall; [by apply connected_seed| |]; done.
      * done.
      * eapply player_effect_trans; [|exact Hplayer|exact Heffect].
        intros c. split; [tauto|]. intros [(s & Hs & Hadj)|?]; [|done].
        exists s. split; [|done]. apply HF. set_solver.
    + rewrite Hu, Hw. intros c [Hc|Hc]%elem_of_union; [by apply Hsub|].
      apply Hnew in Hc as [Hc|(_ & _ & ?)]; [by apply not_elem_of_empty in Hc|].
      set_solver.
Qed.

Lemma frontier_loop_returns (p : Player.t) :
  ∃ p',
    frontier_loop get_adjacent_cells (S (size (Player.walls p))) prefs trenches
      opponent (loop_entry prefs trenches p opponent).1
      (loop_entry prefs trenches p opponent).2 = Some p'
    ∧ _rebuild_reachable_set get_adjacent_cells prefs trenches p opponent = p'.
Proof.
  destruct (loop_entry_inv prefs trenches p opponent) as [Hentry _].
  destruct (frontier_breaks get_adjacent_cells prefs trenches p opponent
              (size (Player.walls p)) (loop_entry prefs trenches p opponent) Hentry)
    as (n & Hn & Hbefore & Hat).
  { apply subseteq_size. set_solver. }
  eexists. split.
  - apply (frontier_loop_at get_adjacent_cells prefs trenches opponent n);
      [exact Hbefore|exact Hat|lia].
  - rewrite _rebuild_reachable_set_loop.
    by rewrite (frontier_loop_at get_adjacent_cells prefs trenches opponent n _
                  (S (size (Player.walls p))) Hbefore Hat) by lia.
Qed.

Lemma connected_closed (seeds walls F : gset Cell) (c : Cell) :
  seeds ⊆ F →
  (∀ s c, s ∈ F → c ∈ get_adjacent_cells prefs s → c ∈ walls → c ∈ F) →
  connected get_adjacent_cells prefs seeds walls c → c ∈ F.
Proof.
  intros Hseeds Hclosed. induction 1 as [c Hc|s c _ IH Hadj Hw].
  - by apply Hseeds.
  - by eapply Hclosed.
Qed.

(** The rebuilt player is the player after the prologue with the neighbours of
    the connected cells visited. *)
Lemma rebuild_effect (p : Player.t) :
  player_effect prefs trenches opponent
    (next_to get_adjacent_cells prefs
       (connected get_adjacent_cells prefs (Player.units p) (Player.walls p)))
    (rebuild_prologue prefs trenches p opponent)
    (_rebuild_reachable_set get_adjacent_cells prefs trenches p opponent).
Proof.
  destruct (frontier_loop_returns p) as (p' & Hloop & ->).
  destruct (rebuild_prologue_inv prefs trenches p opponent) as (_ & Hu & Hw & _).
  apply frontier_loop_effect in Hloop as (F & HF & Hconn & Hclosed & Heffect).
  - cbn [loop_entry fst snd] in *. rewrite Hu, Hw in *.
    eapply player_effect_trans; [|apply (player_effect_refl _ _ _ (λ _, False))|exact Heffect].
    + intros c. unfold next_to. split.
      * intros (s & Hs & Hadj). right. exists s. split; [|done].
        by eapply connected_closed.
      * intros [[]|(s & Hs & Hadj)]. exists s. split; [|done]. by apply Hconn.
    + by intros _ [].
  - cbn [loop_entry fst snd]. set_solver.
Qed.

Lemma rebuild_reachable_spec (p : Player.t) (c : Cell) :
  c ∈ Player.reachable
        (_rebuild_reachable_set get_adjacent_cells prefs trenches p opponent)
  ↔ next_to get_adjacent_cells prefs
      (connected get_adjacent_cells prefs (Player.units p) (Player.walls p)) c
    ∧ (c ∉ Player.units p) ∧ (c ∉ Player.walls p) ∧ (c ∉ Player.walls opponent).
Proof.
  destruct (rebuild_effect p) as (_ & _ & _ & _ & _ & _ & Hr & _).
  destruct (rebuild_prologue_inv prefs trenches p opponent) as (_ & Hu & Hw & _).
  rewrite Hr, Hu, Hw.
  unfold rebuild_prologue.
  destruct (GamePreferences.is_visibility_applied prefs); cbn; set_solver.
Qed.

End FloodLoop.

Lemma player_eq (p q : Player.t) :
  Player.id p = Player.id q →
  Player.units p = Player.units q →
  Player.walls p = Player.walls q →
  Player.reachable p = Player.reachable q →
  Player.visible_opponent p = Player.visible_opponent q →
  Player.visible_terrain p = Player.visible_terrain q →
  Player.view_data p = Player.view_data q →
  Player.is_gone p = Player.is_gone q →
  Player.is_defeated p = Player.is_defeated q →
  p = q.
Proof. destruct p, q. cbn. by intros -> -> -> -> -> -> -> -> ->. Qed.

Section FloodResult.
Variable get_adjacent_cells : GamePreferences.t → Cell → list Cell.
Variables (prefs : GamePreferences.t) (trenches : gset Cell).

Lemma rebuild_view_data (p o : Player.t) :
  Player.view_data (_rebuild_reachable_set get_adjacent_cells prefs trenches p o)
  = Player.view_data p.
Proof. apply _rebuild_reachable_set_inv. Qed.

Lemma rebuild_is_gone (p o : Player.t) :
  Player.is_gone (_rebuild_reachable_set get_adjacent_cells prefs trenches p o)
  = Player.is_gone p.
Proof. apply _rebuild_reachable_set_inv. Qed.

(** The reachable set of a rebuild depends on the player's units and walls
    and on the opponent's walls only. *)
Lemma rebuild_reachable_ext (trenches' : gset Cell) (p o p' o' : Player.t) :
  Player.units p = Player.units p' →
  Player.walls p = Player.walls p' →
  Player.walls o = Player.walls o' →
  Player.reachable (_rebuild_reachable_set get_adjacent_cells prefs trenches p o)
  = Player.reachable (_rebuild_reachable_set get_adjacent_cells prefs trenches' p' o').
Proof.
  intros Hu Hw Ho. apply set_eq. intros c.
  rewrite !rebuild_reachable_spec. by rewrite Hu, Hw, Ho.
Qed.

Lemma rebuild_prologue_visible (p o : Player.t) :
  Player.visible_terrain (rebuild_prologue prefs trenches p o)
  = Player.visible_terrain p
  ∧ Player.visible_opponent (rebuild_prologue prefs trenches p o)
    = if GamePreferences.is_visibility_applied prefs
      then filter (λ cell, cell ∈ Player.units o ∨ cell ∈ Player.walls o)
                  (Player.visible_opponent p)
           ∪ filter (λ cell, cell ∉ trenches) (Player.walls o)
      else Player.visible_opponent p.
Proof.
  unfold rebuild_prologue.
  by destruct (GamePreferences.is_visibility_applied prefs).
Qed.

Lemma rebuild_fog_spec (p o : Player.t) :
  GamePreferences.is_visibility_applied prefs = true →
  let r := _rebuild_reachable_set get_adjacent_cells prefs trenches p o in
  let seen := next_to get_adjacent_cells prefs
                (connected get_adjacent_cells prefs (Player.units p) (Player.walls p)) in
  (∀ c, c ∈ Player.visible_opponent r ↔
        (c ∈ Player.visible_opponent p
         ∧ (c ∈ Player.units o ∨ c ∈ Player.walls o))
        ∨ (c ∈ Player.walls o ∧ c ∉ trenches)
        ∨ seen c)
  ∧ (∀ c, c ∈ Player.visible_terrain r ↔
          c ∈ Player.visible_terrain p
          ∨ ∃ t, seen t ∧ t ∈ trenches
                 ∧ (c = t ∨ c = GamePreferences.get_symmetric_cell prefs t)).
Proof.
  intros Hfog r seen.
  destruct (rebuild_effect get_adjacent_cells prefs trenches o p)
    as (_ & _ & _ & _ & _ & _ & _ & Hvo & Hvt).
  destruct (rebuild_prologue_visible p o) as [Ht Ho].
  rewrite Hfog in Ho.
  split.
  - intros c. subst r. rewrite Hvo, Ho. fold seen. set_unfold. naive_solver.
  - intros c. subst r. rewrite Hvt, Ht. fold seen. naive_solver.
Qed.

Lemma rebuild_without_fog (p o : Player.t) :
  GamePreferences.is_visibility_applied prefs = false →
  _rebuild_reachable_set get_adjacent_cells prefs trenches p o
  = Player.with_reachable
      (Player.reachable (_rebuild_reachable_set get_adjacent_cells prefs trenches p o))
      p.
Proof.
  intros Hfog.
  destruct (rebuild_effect get_adjacent_cells prefs trenches o p)
    as (_ & _ & _ & _ & _ & _ & _ & Hvo & Hvt).
  destruct (rebuild_prologue_visible p o) as [Ht Ho].
  rewrite Hfog in Ho.
  apply player_eq; cbn [Player.with_reachable Player.id Player.units Player.walls
    Player.reachable Player.visible_opponent Player.visible_terrain
    Player.view_data Player.is_gone Player.is_defeated]; try done.
  - apply rebuild_id.
  - apply rebuild_units.
  - apply rebuild_walls.
  - apply set_eq. intros c. rewrite Hvo, Ho, Hfog. naive_solver.
  - apply set_eq. intros c. rewrite Hvt, Ht, Hfog. naive_solver.
  - apply rebuild_view_data.
  - apply rebuild_is_gone.
  - apply rebuild_is_defeated.
Qed.

Lemma connected_ext (units walls units' walls' : gset Cell) (c : Cell) :
  units = units' → walls = walls' →
  connected get_adjacent_cells prefs units walls c
  ↔ connected get_adjacent_cells prefs units' walls' c.
Proof. by intros -> ->. Qed.

Lemma rebuild_idempotent (p o : Player.t) :
  _rebuild_reachable_set get_adjacent_cells prefs trenches
    (_rebuild_reachable_set get_adjacent_cells prefs trenches p o) o
  = _rebuild_reachable_set get_adjacent_cells prefs trenches p o.
Proof.
  set (r := _rebuild_reachable_set get_adjacent_cells prefs trenches p o).
  assert (Player.units r = Player.units p) as Hu by apply rebuild_units.
  assert (Player.walls r = Player.walls p) as Hw by apply rebuild_walls.
  apply player_eq.
  - apply rebuild_id.
  - apply rebuild_units.
  - apply rebuild_walls.
  - by apply rebuild_reachable_ext.
  - destruct (GamePreferences.is_visibility_applied prefs) eqn:Hfog.
    + destruct (rebuild_fog_spec r o Hfog) as [H2 _].
      destruct (rebuild_fog_spec p o Hfog) as [H1 _].
      cbv zeta in H1, H2. fold r in H1. rewrite Hu, Hw in H2.
      apply set_eq. intros c. rewrite H2, H1. tauto.
    + by rewrite (rebuild_without_fog r o Hfog).
  - destruct (GamePreferences.is_visibility_applied prefs) eqn:Hfog.
    + destruct (rebuild_fog_spec r o Hfog) as [_ H2].
      destruct (rebuild_fog_spec p o Hfog) as [_ H1].
      cbv zeta in H1, H2. fold r in H1. rewrite Hu, Hw in H2.
      apply set_eq. intros c. rewrite H2, H1. tauto.
    + by rewrite (rebuild_without_fog r o Hfog).
  - apply rebuild_view_data.
  - apply rebuild_is_gone.
  - apply rebuild_is_defeated.
Qed.

End FloodResult.

(** ** Properties every move keeps *)

Section Play.
Variable get_adjacent_cells : GamePreferences.t → Cell → list Cell.
Variable I : GamePreferences.t → gset Cell → Player.t → Player.t → Prop.
Hypothesis HI : board_property get_adjacent_cells I.

Lemma bot_round_keeps game_bot n : ∀ i g,
  on_game I g → on_game I (bot_round get_adjacent_cells game_bot n i g).2.
Proof.
  induction n as [|n IH]; intros i g Hg; simpl; [done|].
  case_decide.
  { unfold on_game in *. cbn.
    apply (board_swap _ _ HI), (board_flag _ _ HI), (board_swap _ _ HI), Hg. }
  pose proof (get_view_state get_adjacent_cells g (Player.id (Game.passive_player g)))
    as Hst.
  destruct (get_view _ _ _) as [[view|e] g1]; simpl in Hst; subst g1; [|done].
  case_decide as Hcell; [|done].
  pose proof (board_move _ _ HI _ _ _ _ _ (board_swap _ _ HI _ _ _ _ Hg) Hcell)
    as Hmove.
  destruct (_make_turn _ _ _ _ _ _) as [passive active]. cbn [fst snd] in *.
  apply IH. unfold on_game. cbn. by apply (board_swap _ _ HI).
Qed.

Lemma mark_exhausted_keeps g : on_game I g → on_game I (mark_exhausted g).
Proof.
  unfold mark_exhausted, on_game. case_match; [|done]. cbn.
  apply (board_flag _ _ HI).
Qed.

Lemma escalate_keeps g (b : bool) :
  on_game I g → on_game I (reset_turns_left (if b then increment_turn_count g else g)).
Proof.
  unfold on_game. destruct b; [|done]. cbn. apply (board_turn_count _ _ HI).
Qed.

Lemma _decrement_turns_keeps game_bot g :
  on_game I g → on_game I (_decrement_turns get_adjacent_cells game_bot g).2.
Proof.
  intros Hg. unfold _decrement_turns. cbv zeta.
  set (g1 := Game.with_turns_left (Game.turns_left g - 1) g).
  assert (on_game I g1) as H1 by done.
  case_decide; [|by apply mark_exhausted_keeps].
  set (g2 := reset_turns_left _).
  assert (on_game I g2) as H2 by (by apply escalate_keeps).
  case_match.
  - pose proof (bot_round_keeps game_bot
                  (Z.to_nat (GamePreferences.turn_count (Game.preferences g2)))
                  0 g2 H2) as H3.
    destruct (bot_round _ _ _ _ _) as [[[]|e] g3]; cbn [fst snd] in *; [|done].
    by apply mark_exhausted_keeps, escalate_keeps.
  - apply mark_exhausted_keeps. unfold on_game in *. cbn. by apply (board_swap _ _ HI).
Qed.

Lemma make_turn_keeps game_bot g player_id cell :
  on_game I g → on_game I (make_turn get_adjacent_cells game_bot g player_id cell).2.
Proof.
  intros Hg. unfold make_turn. case_decide as Hill; [done|].
  assert (cell ∈ Player.reachable (Game.active_player g)) as Hcell.
  { destruct (decide (cell ∈ Player.reachable (Game.active_player g))); [done|].
    exfalso. apply Hill. right. by left. }
  pose proof (board_move _ _ HI _ _ _ _ cell Hg Hcell) as Hmove.
  destruct (_make_turn _ _ _ _ _ _) as [active passive]. cbn [fst snd] in *.
  by apply _decrement_turns_keeps.
Qed.

Lemma plays_keeps g g' :
  plays get_adjacent_cells g g' → on_game I g → on_game I g'.
Proof.
  induction 1 as [|game_bot g g1 player_id cell g2 _ IH Hturn]; [done|].
  intros Hg. pose proof (make_turn_keeps game_bot g1 player_id cell (IH Hg)) as H.
  by rewrite Hturn in H.
Qed.

Lemma game_reachable_plays g :
  game_reachable get_adjacent_cells g →
  ∃ rs g0 g1,
    Player.units (Game.active_player g0) = ∅
    ∧ Player.units (Game.passive_player g0) = ∅
    ∧ init get_adjacent_cells rs g0 = (Return tt, g1)
    ∧ plays get_adjacent_cells g1 g.
Proof.
  induction 1 as [rs g0 g Ha Hp Hinit|game_bot g player_id cell g' _ IH Hturn].
  - exists rs, g0, g. split_and!; try done. apply plays_refl.
  - destruct IH as (rs & g0 & g1 & ? & ? & ? & Hplays).
    exists rs, g0, g1. split_and!; try done. by eapply plays_step.
Qed.

End Play.

Section Boards.
Variable get_adjacent_cells : GamePreferences.t → Cell → list Cell.

Lemma connected_prefs (prefs prefs' : GamePreferences.t) (units walls : gset Cell)
    (c : Cell) :
  (∀ cell, get_adjacent_cells prefs' cell = get_adjacent_cells prefs cell) →
  connected get_adjacent_cells prefs' units walls c →
  connected get_adjacent_cells prefs units walls c.
Proof.
  intros Hadj. induction 1 as [c Hc|s c _ IH Hc Hw].
  - by apply connected_seed.
  - rewrite Hadj in Hc. by eapply connected_wall.
Qed.

Lemma rebuild_reachable_prefs (prefs prefs' : GamePreferences.t)
    (trenches : gset Cell) (p o : Player.t) :
  (∀ cell, get_adjacent_cells prefs' cell = get_adjacent_cells prefs cell) →
  Player.reachable (_rebuild_reachable_set get_adjacent_cells prefs' trenches p o)
  = Player.reachable (_rebuild_reachable_set get_adjacent_cells prefs trenches p o).
Proof.
  intros Hadj. apply set_eq. intros c. rewrite !rebuild_reachable_spec.
  unfold next_to. split; intros ((s & Hs & Hc) & Hrest); (split; [|done]);
    exists s; (split; [eapply connected_prefs; [|exact Hs]; intros; by rewrite Hadj|]).
  - by rewrite <- Hadj.
  - by rewrite Hadj.
Qed.

Lemma _make_turn_reachable_current prefs trenches cell (a p : Player.t) :
  reachable_current get_adjacent_cells prefs trenches a p →
  reachable_current get_adjacent_cells prefs trenches
    (_make_turn get_adjacent_cells prefs trenches cell a p).1
    (_make_turn get_adjacent_cells prefs trenches cell a p).2.
Proof.
  intros [_ Hp].
  destruct (_make_turn_holdings get_adjacent_cells prefs trenches cell a p)
    as (Hcap & Htr & Hex).
  cbv zeta in *.
  set (r := _make_turn get_adjacent_cells prefs trenches cell a p) in *.
  split.
  - subst r. unfold _make_turn. cbv zeta.
    repeat case_decide; cbn [fst snd];
      apply rebuild_reachable_ext; by rewrite ?rebuild_units, ?rebuild_walls.
  - destruct (decide (cell ∈ Player.units p)) as [Hc|Hc].
    + destruct (Hcap Hc) as (Hu1 & Hw1 & Hu2 & Hw2).
      assert (r.2 = _rebuild_reachable_set get_adjacent_cells prefs trenches
                      (Player.with_units (Player.units p ∖ {[cell]}) p)
                      (Player.with_walls ({[cell]} ∪ Player.walls a) a)) as Hr2.
      { subst r. unfold _make_turn. by rewrite decide_True. }
      rewrite Hr2 at 1. apply rebuild_reachable_ext.
      * by rewrite Hu2.
      * by rewrite Hw2.
      * by rewrite Hw1.
    + destruct (decide (cell ∈ trenches)) as [Ht|Ht].
      * destruct (Htr Hc Ht) as (Hu1 & Hw1 & Hu2 & Hw2).
        assert (Player.reachable r.2 = Player.reachable p ∖ {[cell]}) as Hr2.
        { subst r. unfold _make_turn. rewrite decide_False by done.
          by rewrite decide_True. }
        rewrite Hr2, Hp. apply set_eq. intros c.
        rewrite elem_of_difference, !rebuild_reachable_spec, Hu2, Hw2, Hw1.
        set_solver.
      * destruct (Hex Hc Ht) as (Hu1 & Hw1 & Hu2 & Hw2).
        assert (r.2 = p) as Hr2.
        { subst r. unfold _make_turn. rewrite decide_False by done.
          by rewrite decide_False. }
        rewrite Hr2 at 1 2. rewrite Hp at 1. by apply rebuild_reachable_ext.
Qed.

Lemma reachable_current_board :
  adjacency_ignores_turn_count get_adjacent_cells →
  board_property get_adjacent_cells (reachable_current get_adjacent_cells).
Proof.
  intros Hadj. split.
  - intros prefs trenches a p [? ?]. by split.
  - intros prefs trenches a p b [Ha Hp]. split; cbn.
    + rewrite Ha at 1. by apply rebuild_reachable_ext.
    + rewrite Hp at 1. by apply rebuild_reachable_ext.
  - intros prefs trenches a p n [Ha Hp].
    split; rewrite (rebuild_reachable_prefs prefs) by (intros; apply Hadj); done.
  - intros prefs trenches a p cell H _. by apply _make_turn_reachable_current.
Qed.

Lemma _make_turn_holdings_disjoint prefs trenches cell (a p : Player.t) :
  side_ok a p → cell ∈ Player.reachable a →
  holdings_disjoint a p →
  holdings_disjoint (_make_turn get_adjacent_cells prefs trenches cell a p).1
                    (_make_turn get_adjacent_cells prefs trenches cell a p).2.
Proof.
  intros (Hau & Hap & Haw) Hcell (H1 & H2 & H3 & H4 & H5 & H6).
  destruct (_make_turn_holdings get_adjacent_cells prefs trenches cell a p)
    as (Hcap & Htr & Hex).
  cbv zeta in *.
  set (r := _make_turn get_adjacent_cells prefs trenches cell a p) in *.
  unfold holdings_disjoint.
  assert (cell ∉ Player.units a ∧ cell ∉ Player.walls a ∧ cell ∉ Player.walls p)
    as (Hn1 & Hn2 & Hn3) by (clear -Hau Hap Haw Hcell; set_solver).
  clear Hau Hap Haw Hcell.
  destruct (decide (cell ∈ Player.units p)) as [Hc|Hc].
  - destruct (Hcap Hc) as (-> & -> & -> & ->). clear Hcap Htr Hex.
    split_and!; set_solver.
  - destruct (decide (cell ∈ trenches)) as [Ht|Ht].
    + destruct (Htr Hc Ht) as (-> & -> & -> & ->). clear Hcap Htr Hex.
      split_and!; set_solver.
    + destruct (Hex Hc Ht) as (-> & -> & -> & ->). clear Hcap Htr Hex.
      split_and!; set_solver.
Qed.

Lemma holdings_disjoint_sym (p q : Player.t) :
  holdings_disjoint p q → holdings_disjoint q p.
Proof. intros (?&?&?&?&?&?). unfold holdings_disjoint. split_and!; done. Qed.

Lemma sound_board_property : board_property get_adjacent_cells sound_board.
Proof.
  split.
  - intros prefs trenches a p (?&?&?&?&?). unfold sound_board.
    split_and!; try done. by apply holdings_disjoint_sym.
  - intros prefs trenches a p b H. exact H.
  - intros prefs trenches a p n H. exact H.
  - intros prefs trenches a p cell (Ha & Hp & Hat & Hpt & Hd) Hcell.
    destruct (_make_turn_ok get_adjacent_cells prefs trenches cell a p Hp Hat Hpt)
      as (? & ? & ? & ?).
    unfold sound_board. split_and!; try done.
    by apply _make_turn_holdings_disjoint.
Qed.

End Boards.

(** ** What [init] does *)

Section Generation.
Variable get_adjacent_cells : GamePreferences.t → Cell → list Cell.

Lemma rand_in_range (rs : RandomSource) (k : nat) (a b : Z) :
  a ≤ b → a ≤ rand_in rs k a b ≤ b.
Proof.
  intros Hab. unfold rand_in.
  pose proof (Z.mod_pos_bound (rs k) (b - a + 1) ltac:(lia)). lia.
Qed.

Lemma _init_players_spec (rs : RandomSource) (k : nat) (g : Game.t) :
  let prefs := Game.preferences g in
  let edge := GamePreferences.size prefs in
  (GamePreferences.is_with_random_bases prefs = true → edge ≤ 0 →
     _init_players rs k g = (Raise ValueError, g))
  ∧ (GamePreferences.is_with_random_bases prefs = true → 1 ≤ edge →
     ∃ first_base_y second_base_y,
       _init_players rs k g
       = (Return (S (S k)), with_bases first_base_y second_base_y g)
       ∧ 1 ≤ first_base_y ≤ (edge + 1) `div` 2
       ∧ edge `div` 2 + 1 ≤ second_base_y ≤ edge)
  ∧ (GamePreferences.is_with_random_bases prefs = false →
     _init_players rs k g = (Return k, with_bases 1 1 g)).
Proof.
  intros prefs edge. unfold _init_players, with_bases. fold prefs. fold edge.
  pose proof (Z.div_mod (edge + 1) 2 ltac:(lia)) as Hd1.
  pose proof (Z.mod_pos_bound (edge + 1) 2 ltac:(lia)) as Hm1.
  pose proof (Z.div_mod edge 2 ltac:(lia)) as Hd2.
  pose proof (Z.mod_pos_bound edge 2 ltac:(lia)) as Hm2.
  split_and!; intros Hrandom; rewrite Hrandom.
  - intros Hedge. unfold randint. rewrite decide_False by lia. done.
  - intros Hedge.
    unfold randint. rewrite !decide_True by lia.
    eexists _, _. split; [|split; apply rand_in_range; lia].
    by destruct (GamePreferences.is_double_base prefs).
  - by destruct (GamePreferences.is_double_base prefs).
Qed.

Lemma init_spec (rs : RandomSource) (g : Game.t) :
  let prefs := Game.preferences g in
  (Player.id (Game.active_player g) = Player.id (Game.passive_player g) →
     init get_adjacent_cells rs g = (Raise AssertionError, g))
  ∧ (Player.id (Game.active_player g) ≠ Player.id (Game.passive_player g) →
     GamePreferences.is_with_random_bases prefs = true →
     GamePreferences.size prefs ≤ 0 →
     init get_adjacent_cells rs g = (Raise ValueError, g))
  ∧ (Player.id (Game.active_player g) ≠ Player.id (Game.passive_player g) →
     GamePreferences.is_with_random_bases prefs = false
     ∨ 1 ≤ GamePreferences.size prefs →
     (init get_adjacent_cells rs g).1 = Return tt).
Proof.
  intros prefs. destruct (_init_players_spec rs 0 g) as (Hfail & Hrandom & Hfixed).
  unfold init. split_and!.
  - intros Hid. by rewrite decide_False by (by intros ?).
  - intros Hid Hr Hsize. rewrite decide_True by done. by rewrite Hfail.
  - intros Hid Hcase. rewrite decide_True by done.
    destruct (GamePreferences.is_with_random_bases prefs) eqn:Hr.
    + destruct Hcase as [|Hsize]; [done|].
      destruct (Hrandom Hr Hsize) as (fy & sy & -> & _). done.
    + by rewrite (Hfixed Hr).
Qed.

Lemma with_bases_fields (fy sy : Z) (g : Game.t) :
  let g1 := with_bases fy sy g in
  let edge := GamePreferences.size (Game.preferences g) in
  let double := GamePreferences.is_double_base (Game.preferences g) in
  Game.preferences g1 = Game.preferences g
  ∧ Game.id g1 = Game.id g
  ∧ Player.walls (Game.active_player g1) = Player.walls (Game.active_player g)
  ∧ Player.walls (Game.passive_player g1) = Player.walls (Game.passive_player g)
  ∧ Player.units (Game.active_player g1)
    = (if double then {[ (1, sy) ]} else ∅) ∪ {[ (1, fy) ]}
      ∪ Player.units (Game.active_player g)
  ∧ Player.units (Game.passive_player g1)
    = (if double then {[ (edge, edge - sy + 1) ]} else ∅)
      ∪ {[ (edge, edge - fy + 1) ]} ∪ Player.units (Game.passive_player g).
Proof.
  unfold with_bases. cbv zeta.
  destruct (GamePreferences.is_double_base (Game.preferences g)); cbn;
    split_and!; try done; apply set_eq; set_solver.
Qed.

(** What a returning [init] leaves: the players of [g0] with their bases,
    rebuilt, the generated trenches, and a full round of moves. *)
Lemma init_result (rs : RandomSource) (g0 g : Game.t) :
  init get_adjacent_cells rs g0 = (Return tt, g) →
  ∃ (first_base_y second_base_y : Z) (k : nat),
    let prefs := Game.preferences g0 in
    let edge := GamePreferences.size prefs in
    let g1 := with_bases first_base_y second_base_y g0 in
    let trenches := list_to_set (_generate_trenches rs k g1).1 in
    let active :=
      _rebuild_reachable_set get_adjacent_cells prefs trenches
        (Game.active_player g1) (Game.passive_player g1) in
    let passive :=
      _rebuild_reachable_set get_adjacent_cells prefs trenches
        (Game.passive_player g1) active in
    g = Game.mk (Game.id g0) prefs (GamePreferences.turn_count prefs)
                active passive trenches
    ∧ (if GamePreferences.is_with_random_bases prefs
       then 1 ≤ edge ∧ 1 ≤ first_base_y ≤ (edge + 1) `div` 2
            ∧ edge `div` 2 + 1 ≤ second_base_y ≤ edge
       else first_base_y = 1 ∧ second_base_y = 1).
Proof.
  intros Hinit. apply init_return in Hinit as (k & g1 & Hplayers & ->).
  destruct (_init_players_spec rs 0 g0) as (Hfail & Hrandom & Hfixed).
  cbv zeta in *.
  destruct (GamePreferences.is_with_random_bases (Game.preferences g0)) eqn:Hr.
  - destruct (decide (GamePreferences.size (Game.preferences g0) ≤ 0)) as [Hs|Hs].
    { rewrite (Hfail eq_refl Hs) in Hplayers. done. }
    destruct (Hrandom eq_refl ltac:(lia)) as (fy & sy & Heq & Hfy & Hsy).
    rewrite Heq in Hplayers. injection Hplayers as <- <-.
    destruct (with_bases_fields fy sy g0) as (Hp & Hi & _).
    cbv zeta in Hp, Hi. exists fy, sy, 2%nat. rewrite Hp, Hi.
    split; [done|]. split_and!; try done; lia.
  - rewrite (Hfixed eq_refl) in Hplayers. injection Hplayers as <- <-.
    destruct (with_bases_fields 1 1 g0) as (Hp & Hi & _).
    cbv zeta in Hp, Hi. exists 1, 1, 0%nat. rewrite Hp, Hi. done.
Qed.

Lemma foldl_invariant_elem {A B : Type} (P : A → Prop) (f : A → B → A)
    (l : list B) (a : A) :
  P a → (∀ a b, b ∈ l → P a → P (f a b)) → P (foldl f a l).
Proof.
  revert a. induction l as [|b l IH]; intros a Ha Hf; simpl; [done|].
  apply IH.
  - apply Hf; [left|done].
  - intros a' b' Hb'. apply Hf. by right.
Qed.

Lemma _generate_trenches_shape (rs : RandomSource) (k : nat) (g : Game.t) (c : Cell) :
  c ∈ (_generate_trenches rs k g).1 → trench_shape (Game.preferences g) c.
Proof.
  unfold _generate_trenches. cbv zeta.
  case_decide; [by intros ?%elem_of_nil|].
  revert c.
  apply (foldl_invariant_elem
           (λ acc, ∀ c, c ∈ acc.1 → trench_shape (Game.preferences g) c)).
  { by intros c ?%elem_of_nil. }
  intros acc x Hx Hacc. unfold trench_column. cbv zeta.
  apply (foldl_invariant_elem
           (λ acc, ∀ c, c ∈ acc.1 → trench_shape (Game.preferences g) c));
    [done|].
  intros [yielded k'] y Hy Hyielded. unfold trench_candidate. cbv zeta.
  apply elem_of_seqZ in Hx, Hy.
  case_decide as Hcond; [|done]. case_decide; [|done]. cbn [fst] in *.
  intros c [Hc|Hc]%elem_of_app; [by apply Hyielded|].
  exists x, y. split; [lia|]. split; [lia|]. split; [tauto|].
  apply elem_of_cons in Hc as [->|Hc]; [by left|].
  apply elem_of_cons in Hc as [->|Hc]; [by right|]. by apply elem_of_nil in Hc.
Qed.

Lemma trench_shape_on_board (prefs : GamePreferences.t) (c : Cell) :
  trench_shape prefs c → on_board prefs c.
Proof.
  unfold trench_shape, on_board. cbv zeta.
  pose proof (Z.div_mod (GamePreferences.size prefs + 1) 2 ltac:(lia)).
  pose proof (Z.mod_pos_bound (GamePreferences.size prefs + 1) 2 ltac:(lia)).
  intros (x & y & Hx & Hy & _ & [->| ->]); cbn; lia.
Qed.

Lemma trench_shape_even_gap (prefs : GamePreferences.t) (h : Z) (c : Cell) :
  GamePreferences.size prefs = 2 * h →
  trench_shape prefs c →
  ¬ (c.2 = h ∧ h < c.1) ∧ ¬ (c.2 = h + 1 ∧ c.1 ≤ h).
Proof.
  unfold trench_shape. cbv zeta. intros Hsize. rewrite Hsize.
  replace ((2 * h + 1) `div` 2) with h
    by (apply Z.div_unique with 1; lia).
  intros (x & y & Hx & Hy & Hcond & [->| ->]); cbn; lia.
Qed.

End Generation.

(** ** What a round keeps of the settings, the roles and the flags *)

Section Frame.
Variable get_adjacent_cells : GamePreferences.t → Cell → list Cell.

Lemma same_player_refl q : same_player q q.
Proof. by split_and!. Qed.

Lemma same_player_trans q1 q2 q3 :
  same_player q1 q2 → same_player q2 q3 → same_player q1 q3.
Proof. intros (?&?&?) (?&?&?). split_and!; congruence. Qed.

Lemma rebuild_same_player prefs trenches (p o : Player.t) :
  same_player p (_rebuild_reachable_set get_adjacent_cells prefs trenches p o).
Proof.
  split_and!; [apply rebuild_id|apply rebuild_view_data|apply rebuild_is_gone].
Qed.

Lemma _make_turn_players prefs trenches cell (a p : Player.t) :
  let r := _make_turn get_adjacent_cells prefs trenches cell a p in
  same_player a r.1 ∧ same_player p r.2
  ∧ Player.is_defeated r.1 = Player.is_defeated a
  ∧ Player.is_defeated r.2 = Player.is_defeated p.
Proof.
  unfold _make_turn. cbv zeta.
  repeat case_decide; cbn [fst snd]; split_and!;
    try (eapply same_player_trans; [|apply rebuild_same_player]);
    rewrite ?rebuild_is_defeated; try done; by split_and!.
Qed.

Lemma settings_kept_same g g' :
  Game.trenches g' = Game.trenches g → Game.id g' = Game.id g →
  Game.preferences g' = Game.preferences g →
  settings_kept g g'.
Proof.
  intros Ht Hi Hp. unfold settings_kept. rewrite Ht, Hi, Hp.
  split_and!; try done. by destruct (Game.preferences g).
Qed.

Lemma settings_kept_refl g : settings_kept g g.
Proof. by apply settings_kept_same. Qed.

Lemma settings_kept_trans g1 g2 g3 :
  settings_kept g1 g2 → settings_kept g2 g3 → settings_kept g1 g3.
Proof.
  intros (Ht1 & Hi1 & Hp1 & Hc1 & Hd1) (Ht2 & Hi2 & Hp2 & Hc2 & Hd2).
  unfold settings_kept. split_and!; try congruence; try lia.
  - rewrite Hp2 at 1. rewrite Hp1 at 1. done.
  - intros Hdm. rewrite Hd2; [by apply Hd1|]. by rewrite Hd1.
Qed.

Lemma escalate_settings g :
  settings_kept g
    (reset_turns_left
       (if GamePreferences.is_deathmatch (Game.preferences g)
        then increment_turn_count g else g)).
Proof.
  destruct (GamePreferences.is_deathmatch (Game.preferences g)) eqn:Hdm.
  - unfold settings_kept. cbn. rewrite Hdm. split_and!; try done; lia.
  - by apply settings_kept_same.
Qed.

Lemma mark_exhausted_settings g : settings_kept g (mark_exhausted g).
Proof. unfold mark_exhausted. case_match; by apply settings_kept_same. Qed.

Lemma mark_exhausted_roles g : roles_kept g (mark_exhausted g).
Proof.
  unfold mark_exhausted, roles_kept. case_match; split; by split_and!.
Qed.

Lemma roles_kept_refl g : roles_kept g g.
Proof. split; apply same_player_refl. Qed.

Lemma bot_round_frame game_bot n : ∀ i g,
  let g' := (bot_round get_adjacent_cells game_bot n i g).2 in
  Game.trenches g' = Game.trenches g
  ∧ Game.id g' = Game.id g
  ∧ roles_kept g g'
  ∧ Player.is_defeated (Game.active_player g')
    = Player.is_defeated (Game.active_player g).
Proof.
  induction n as [|n IH]; intros i g; simpl.
  - split_and!; first [done|apply roles_kept_refl].
  - case_decide.
    { cbn. by split_and!. }
    pose proof (get_view_state get_adjacent_cells g (Player.id (Game.passive_player g)))
      as Hst.
    destruct (get_view _ _ _) as [[view|e] g1]; simpl in Hst; subst g1;
      [|split_and!; first [done|apply roles_kept_refl]].
    case_decide; [|split_and!; first [done|apply roles_kept_refl]].
    pose proof (_make_turn_players (Game.preferences g) (Game.trenches g)
                  (game_bot i view (Game.turns_left g))
                  (Game.passive_player g) (Game.active_player g))
      as (Hp & Ha & _ & Hd).
    cbv zeta in *.
    destruct (_make_turn _ _ _ _ _ _) as [passive active]. cbn [fst snd] in *.
    match goal with |- context [bot_round _ _ _ _ ?g2] =>
      destruct (IH (S i) g2) as (Ht' & Hi' & [Ha' Hp'] & Hd') end.
    cbn in Ht', Hi', Ha', Hp', Hd'.
    split_and!; try congruence.
    split; eapply same_player_trans; done.
Qed.

Lemma bot_round_settings game_bot n i g :
  settings_kept g (bot_round get_adjacent_cells game_bot n i g).2.
Proof.
  destruct (bot_round_frame game_bot n i g) as (Ht & Hi & _).
  apply settings_kept_same; [done..|]. apply bot_round_preferences.
Qed.

Lemma _decrement_turns_settings game_bot g :
  settings_kept g (_decrement_turns get_adjacent_cells game_bot g).2.
Proof.
  unfold _decrement_turns. cbv zeta.
  set (g1 := Game.with_turns_left (Game.turns_left g - 1) g).
  assert (settings_kept g g1) as H1 by (by apply settings_kept_same).
  case_decide.
  2: { eapply settings_kept_trans; [exact H1|apply mark_exhausted_settings]. }
  pose proof (escalate_settings g1) as H2.
  set (g2 := reset_turns_left _) in *.
  assert (settings_kept g g2) as H12
    by (eapply settings_kept_trans; [exact H1|exact H2]).
  case_match.
  - pose proof (bot_round_settings game_bot
                  (Z.to_nat (GamePreferences.turn_count (Game.preferences g2))) 0 g2)
      as H3.
    destruct (bot_round _ _ _ _ _) as [[[]|e] g3]; cbn [fst snd] in *.
    + eapply settings_kept_trans; [exact H12|].
      eapply settings_kept_trans; [exact H3|].
      eapply settings_kept_trans; [apply escalate_settings|].
      apply mark_exhausted_settings.
    + eapply settings_kept_trans; [exact H12|exact H3].
  - eapply settings_kept_trans; [exact H12|].
    eapply settings_kept_trans; [|apply mark_exhausted_settings].
    by apply settings_kept_same.
Qed.

Lemma make_turn_settings game_bot g player_id cell :
  settings_kept g (make_turn get_adjacent_cells game_bot g player_id cell).2.
Proof.
  unfold make_turn. case_decide; [apply settings_kept_refl|].
  destruct (_make_turn _ _ _ _ _ _) as [active passive].
  eapply settings_kept_trans; [|apply _decrement_turns_settings].
  by apply settings_kept_same.
Qed.

Lemma roles_kept_trans g1 g2 g3 :
  roles_kept g1 g2 → roles_kept g2 g3 → roles_kept g1 g3.
Proof. intros [? ?] [? ?]. split; by eapply same_player_trans. Qed.

Lemma roles_kept_swapped g1 g2 g3 :
  roles_kept g1 g2 → roles_swapped g2 g3 → roles_swapped g1 g3.
Proof. intros [? ?] [? ?]. split; by eapply same_player_trans. Qed.

Lemma escalate_roles g (b : bool) :
  roles_kept g (reset_turns_left (if b then increment_turn_count g else g)).
Proof. destruct b; split; by split_and!. Qed.

Lemma _decrement_turns_roles game_bot g g' :
  _decrement_turns get_adjacent_cells game_bot g = (Return tt, g') →
  (GamePreferences.is_against_bot (Game.preferences g) = true → roles_kept g g')
  ∧ (GamePreferences.is_against_bot (Game.preferences g) = false →
     Game.turns_left g - 1 = 0 → roles_swapped g g')
  ∧ (Game.turns_left g - 1 ≠ 0 → roles_kept g g').
Proof.
  unfold _decrement_turns. cbv zeta.
  set (g1 := Game.with_turns_left (Game.turns_left g - 1) g).
  change (Game.turns_left g1) with (Game.turns_left g - 1).
  case_decide as Hzero.
  2: { intros [= <-]. split_and!; intros;
         first [done|apply (mark_exhausted_roles g1)]. }
  set (g2 := reset_turns_left _).
  assert (GamePreferences.is_against_bot (Game.preferences g2)
          = GamePreferences.is_against_bot (Game.preferences g)) as Hbot
    by (subst g2; by destruct (GamePreferences.is_deathmatch _)).
  assert (roles_kept g g2) as H2
    by (apply (roles_kept_trans g g1); [split; by split_and!|apply escalate_roles]).
  rewrite Hbot. destruct (GamePreferences.is_against_bot (Game.preferences g)).
  - destruct (bot_round_frame game_bot
                (Z.to_nat (GamePreferences.turn_count (Game.preferences g2))) 0 g2)
      as (_ & _ & H3 & _).
    cbv zeta in H3.
    destruct (bot_round _ _ _ _ _) as [[[]|e] g3]; cbn [fst snd] in *; [|done].
    intros [= <-]. split_and!; [|done..]. intros _.
    eapply roles_kept_trans; [exact H2|]. eapply roles_kept_trans; [exact H3|].
    eapply roles_kept_trans; [|apply mark_exhausted_roles].
    apply escalate_roles.
  - intros [= <-]. split_and!; [done| |done]. intros _ _.
    eapply roles_kept_swapped; [exact H2|].
    match goal with |- roles_swapped _ (mark_exhausted ?g3) =>
      destruct (mark_exhausted_roles g3) as [Ha Hp] end.
    split; [exact Hp|exact Ha].
Qed.

Lemma mark_exhausted_winner g :
  Player.is_defeated (Game.active_player g) = false →
  let g' := mark_exhausted g in
  ¬ (Player.is_defeated (Game.active_player g') = true
     ∧ Player.is_defeated (Game.passive_player g') = true)
  ∧ (Player.reachable (Game.active_player g') = ∅ →
     Player.is_defeated (Game.active_player g') = true
     ∨ Player.is_defeated (Game.passive_player g') = true).
Proof.
  intros Ha. unfold mark_exhausted.
  destruct (bool_decide (Player.reachable (Game.active_player g) = ∅)) eqn:Hr;
    destruct (Player.is_defeated (Game.passive_player g)) eqn:Hp; cbn;
    rewrite ?Ha, ?Hp; (split; [by intros [? ?]|]); try (intros _; by auto).
  all: intros Hempty; apply bool_decide_eq_false in Hr; done.
Qed.

Lemma escalate_players g (b : bool) :
  Game.active_player (reset_turns_left (if b then increment_turn_count g else g))
  = Game.active_player g
  ∧ Game.passive_player (reset_turns_left (if b then increment_turn_count g else g))
    = Game.passive_player g.
Proof. by destruct b. Qed.

Lemma _decrement_turns_winner game_bot g g' :
  Player.is_defeated (Game.active_player g) = false →
  Player.is_defeated (Game.passive_player g) = false →
  _decrement_turns get_adjacent_cells game_bot g = (Return tt, g') →
  ¬ (Player.is_defeated (Game.active_player g') = true
     ∧ Player.is_defeated (Game.passive_player g') = true)
  ∧ (Player.reachable (Game.active_player g') = ∅ →
     Player.is_defeated (Game.active_player g') = true
     ∨ Player.is_defeated (Game.passive_player g') = true).
Proof.
  intros Ha Hp. unfold _decrement_turns. cbv zeta.
  set (g1 := Game.with_turns_left (Game.turns_left g - 1) g).
  case_decide.
  2: { intros [= <-]. by apply mark_exhausted_winner. }
  set (g2 := reset_turns_left _).
  assert (Game.active_player g2 = Game.active_player g
          ∧ Game.passive_player g2 = Game.passive_player g) as [Ha2 Hp2]
    by apply (escalate_players g1).
  case_match.
  - destruct (bot_round_frame game_bot
                (Z.to_nat (GamePreferences.turn_count (Game.preferences g2))) 0 g2)
      as (_ & _ & _ & H3).
    cbv zeta in H3. rewrite Ha2, Ha in H3.
    destruct (bot_round _ _ _ _ _) as [[[]|e] g3]; cbn [fst snd] in *; [|done].
    intros [= <-]. apply mark_exhausted_winner.
    by rewrite (proj1 (escalate_players g3 _)).
  - intros [= <-]. apply mark_exhausted_winner.
    change (Player.is_defeated (Game.passive_player g2) = false).
    by rewrite Hp2.
Qed.

Lemma _decrement_turns_counters game_bot g g' :
  _decrement_turns get_adjacent_cells game_bot g = (Return tt, g') →
  (Game.turns_left g - 1 ≠ 0 →
     Game.turns_left g' = Game.turns_left g - 1
     ∧ Game.preferences g' = Game.preferences g)
  ∧ (Game.turns_left g - 1 = 0 →
     Game.turns_left g' = GamePreferences.turn_count (Game.preferences g')).
Proof.
  unfold _decrement_turns. cbv zeta.
  set (g1 := Game.with_turns_left (Game.turns_left g - 1) g).
  change (Game.turns_left g1) with (Game.turns_left g - 1).
  case_decide as Hzero.
  2: { intros [= <-]. destruct (mark_exhausted_counters g1) as [-> ->].
       split; [done|]. intros; done. }
  set (g2 := reset_turns_left _).
  case_match.
  - destruct (bot_round _ _ _ _ _) as [[[]|e] g3]; cbn [fst snd] in *; [|done].
    intros [= <-]. split; [done|]. intros _.
    match goal with |- context [mark_exhausted ?g4] =>
      destruct (mark_exhausted_counters g4) as [-> ->] end.
    done.
  - intros [= <-]. split; [done|]. intros _.
    match goal with |- context [mark_exhausted ?g4] =>
      destruct (mark_exhausted_counters g4) as [-> ->] end.
    done.
Qed.

End Frame.

(** ** What [get_view] shows, and what stays owned *)

Section View.
Variable get_adjacent_cells : GamePreferences.t → Cell → list Cell.

Lemma get_view_spec (g : Game.t) (player_id : string) :
  (player_id ≠ Player.id (Game.active_player g) →
   player_id ≠ Player.id (Game.passive_player g) →
   get_view get_adjacent_cells g player_id = (Raise AssertionError, g))
  ∧ (player_id = Player.id (Game.active_player g)
     ∨ player_id = Player.id (Game.passive_player g) →
     ∃ view,
       get_view get_adjacent_cells g player_id = (Return view, g)
       ∧ let me := (viewer g player_id).1 in
         let opponent := (viewer g player_id).2 in
         let shown := GameView.opponent view in
         GameView.id view = Game.id g
         ∧ GameView.turns_left view = Game.turns_left g
         ∧ GameView.preferences view = Game.preferences g
         ∧ GameView.my_turn view
           = bool_decide (player_id = Player.id (Game.active_player g))
         ∧ GameView.me view
           = player_view me (Player.units me) (Player.walls me) (Player.reachable me)
         ∧ PlayerView.view_data shown = Player.view_data opponent
         ∧ PlayerView.is_gone shown = Player.is_gone opponent
         ∧ PlayerView.is_defeated shown = Player.is_defeated opponent
         ∧ if GamePreferences.is_visibility_applied (Game.preferences g)
              && Player.can_win me && Player.can_win opponent
           then
             PlayerView.units shown
             = Player.units opponent ∩ Player.visible_opponent me
             ∧ PlayerView.walls shown
               = Player.walls opponent ∩ Player.visible_opponent me
             ∧ GameView.trenches view = Game.trenches g ∩ Player.visible_terrain me
             ∧ PlayerView.reachable shown
               = Player.reachable
                   (_rebuild_reachable_set get_adjacent_cells (Game.preferences g)
                      (Game.trenches g)
                      (Player.of_units_walls
                         (Player.units opponent ∩ Player.visible_opponent me)
                         (Player.walls opponent ∩ Player.visible_opponent me))
                      me)
           else
             PlayerView.units shown = Player.units opponent
             ∧ PlayerView.walls shown = Player.walls opponent
             ∧ PlayerView.reachable shown = Player.reachable opponent
             ∧ GameView.trenches view = Game.trenches g).
Proof.
  unfold get_view, viewer. split.
  - intros Ha Hp. rewrite decide_False; [done|]. by intros [?|?].
  - intros Hvalid. rewrite decide_True by done.
    destruct (decide (player_id = Player.id (Game.active_player g))) as [Hid|Hid].
    + cbn [fst snd].
      destruct (GamePreferences.is_visibility_applied (Game.preferences g)
                && Player.can_win (Game.active_player g)
                && Player.can_win (Game.passive_player g)) eqn:Hfog;
        eexists; (split; [reflexivity|]); cbn; rewrite bool_decide_eq_true_2 by done;
        rewrite bool_decide_eq_true_2 by done; by split_and!.
    + cbn [fst snd].
      assert (Game.passive_player g ≠ Game.active_player g) as Hne.
      { intros Heq. destruct Hvalid as [?|Hp]; [done|]. rewrite Heq in Hp. done. }
      destruct (GamePreferences.is_visibility_applied (Game.preferences g)
                && Player.can_win (Game.passive_player g)
                && Player.can_win (Game.active_player g)) eqn:Hfog;
        eexists; (split; [reflexivity|]); cbn;
        rewrite bool_decide_eq_false_2 by done;
        rewrite bool_decide_eq_false_2 by done; by split_and!.
Qed.

Lemma keeps_walls_and_owned_board (id : string) (X Y : gset Cell) :
  board_property get_adjacent_cells (keeps_walls_and_owned id X Y).
Proof.
  split.
  - intros prefs trenches a p (Ha & Hp & Ho). unfold keeps_walls_and_owned, owned in *.
    split_and!; try done. set_solver.
  - intros prefs trenches a p b H. exact H.
  - intros prefs trenches a p n H. exact H.
  - intros prefs trenches a p cell (Ha & Hp & Ho) _.
    destruct (_make_turn_holdings get_adjacent_cells prefs trenches cell a p)
      as (Hcap & Htr & Hex).
    destruct (_make_turn_players get_adjacent_cells prefs trenches cell a p)
      as ((Hia & _) & (Hip & _) & _).
    cbv zeta in *.
    set (r := _make_turn get_adjacent_cells prefs trenches cell a p) in *.
    unfold keeps_walls_and_owned, owned in *. rewrite Hia, Hip.
    destruct (decide (cell ∈ Player.units p)) as [Hc|Hc].
    + destruct (Hcap Hc) as (-> & -> & -> & ->). clear Hcap Htr Hex.
      split_and!.
      * intros Hid. specialize (Ha Hid). clear -Ha. set_solver.
      * done.
      * intros c Hin. apply Ho in Hin. clear -Hin Hc.
        destruct (decide (c = cell)); set_solver.
    + destruct (decide (cell ∈ trenches)) as [Ht|Ht].
      * destruct (Htr Hc Ht) as (-> & -> & -> & ->). clear Hcap Htr Hex.
        split_and!.
        -- intros Hid. specialize (Ha Hid). clear -Ha. set_solver.
        -- done.
        -- clear -Ho. set_solver.
      * destruct (Hex Hc Ht) as (-> & -> & -> & ->). clear Hcap Htr Hex.
        split_and!.
        -- done.
        -- done.
        -- clear -Ho. set_solver.
Qed.

End View.

(** ** What a [make_turn] call and [init] establish *)

Section Calls.
Variable get_adjacent_cells : GamePreferences.t → Cell → list Cell.

Lemma make_turn_returns game_bot g player_id cell g' :
  make_turn get_adjacent_cells game_bot g player_id cell = (Return tt, g') →
  ¬ turn_is_illegal g player_id cell
  ∧ let r := _make_turn get_adjacent_cells (Game.preferences g) (Game.trenches g)
               cell (Game.active_player g) (Game.passive_player g) in
    _decrement_turns get_adjacent_cells game_bot
      (Game.with_passive_player r.2 (Game.with_active_player r.1 g))
    = (Return tt, g').
Proof.
  unfold make_turn. case_decide; [done|].
  destruct (_make_turn _ _ _ _ _ _) as [active passive]. done.
Qed.

Lemma not_illegal g player_id cell :
  ¬ turn_is_illegal g player_id cell →
  player_id = Player.id (Game.active_player g)
  ∧ cell ∈ Player.reachable (Game.active_player g)
  ∧ Player.is_defeated (Game.active_player g) = false
  ∧ Player.is_defeated (Game.passive_player g) = false.
Proof.
  unfold turn_is_illegal, Player.can_win. intros Hill.
  destruct (decide (player_id = Player.id (Game.active_player g))); [|tauto].
  destruct (decide (cell ∈ Player.reachable (Game.active_player g))); [|tauto].
  destruct (Player.is_defeated (Game.active_player g)),
           (Player.is_defeated (Game.passive_player g)); cbn in Hill;
    try done; exfalso; apply Hill; right; right; by intros [? ?].
Qed.

Lemma make_turn_roles game_bot g player_id cell g' :
  make_turn get_adjacent_cells game_bot g player_id cell = (Return tt, g') →
  (GamePreferences.is_against_bot (Game.preferences g) = true → roles_kept g g')
  ∧ (GamePreferences.is_against_bot (Game.preferences g) = false →
     Game.turns_left g - 1 = 0 → roles_swapped g g')
  ∧ (Game.turns_left g - 1 ≠ 0 → roles_kept g g').
Proof.
  intros [_ Hdec]%make_turn_returns. cbv zeta in Hdec.
  destruct (_make_turn_players get_adjacent_cells (Game.preferences g)
              (Game.trenches g) cell (Game.active_player g) (Game.passive_player g))
    as (Ha & Hp & _).
  cbv zeta in Ha, Hp.
  set (g1 := Game.with_passive_player _ _) in Hdec.
  assert (roles_kept g g1) as H1 by (by split).
  apply _decrement_turns_roles in Hdec as (Hbot & Hswap & Hkeep).
  split_and!.
  - intros Hb. eapply roles_kept_trans; [exact H1|]. by apply Hbot.
  - intros Hb Hz. eapply roles_kept_swapped; [exact H1|]. by apply Hswap.
  - intros Hz. eapply roles_kept_trans; [exact H1|]. by apply Hkeep.
Qed.

Lemma make_turn_winner game_bot g player_id cell g' :
  make_turn get_adjacent_cells game_bot g player_id cell = (Return tt, g') →
  ¬ (Player.is_defeated (Game.active_player g') = true
     ∧ Player.is_defeated (Game.passive_player g') = true)
  ∧ (Player.reachable (Game.active_player g') = ∅ →
     Player.is_defeated (Game.active_player g') = true
     ∨ Player.is_defeated (Game.passive_player g') = true).
Proof.
  intros [Hlegal Hdec]%make_turn_returns. cbv zeta in Hdec.
  apply not_illegal in Hlegal as (_ & _ & Ha & Hp).
  destruct (_make_turn_players get_adjacent_cells (Game.preferences g)
              (Game.trenches g) cell (Game.active_player g) (Game.passive_player g))
    as (_ & _ & Hda & Hdp).
  cbv zeta in Hda, Hdp.
  eapply _decrement_turns_winner; [| |exact Hdec]; cbn; congruence.
Qed.

Lemma make_turn_counters game_bot g player_id cell g' :
  make_turn get_adjacent_cells game_bot g player_id cell = (Return tt, g') →
  (Game.turns_left g - 1 ≠ 0 →
     Game.turns_left g' = Game.turns_left g - 1
     ∧ Game.preferences g' = Game.preferences g)
  ∧ (Game.turns_left g - 1 = 0 →
     Game.turns_left g' = GamePreferences.turn_count (Game.preferences g')).
Proof.
  intros [_ Hdec]%make_turn_returns. cbv zeta in Hdec.
  by apply _decrement_turns_counters in Hdec.
Qed.

Lemma plays_settings g g' :
  plays get_adjacent_cells g g' → settings_kept g g'.
Proof.
  induction 1 as [|game_bot g g1 player_id cell g2 _ IH Hturn].
  - apply settings_kept_refl.
  - eapply settings_kept_trans; [exact IH|].
    pose proof (make_turn_settings get_adjacent_cells game_bot g1 player_id cell) as H.
    by rewrite Hturn in H.
Qed.

Lemma plays_turns_left g g' :
  plays get_adjacent_cells g g' →
  1 ≤ Game.turns_left g ≤ GamePreferences.turn_count (Game.preferences g) →
  1 ≤ Game.turns_left g' ≤ GamePreferences.turn_count (Game.preferences g').
Proof.
  induction 1 as [|game_bot g g1 player_id cell g2 _ IH Hturn]; [done|].
  intros Hg. specialize (IH Hg).
  pose proof (make_turn_settings get_adjacent_cells game_bot g1 player_id cell)
    as (_ & _ & _ & Hmono & _).
  rewrite Hturn in Hmono. cbn [snd] in Hmono.
  apply make_turn_counters in Hturn as [Hdown Hreset].
  destruct (decide (Game.turns_left g1 - 1 = 0)) as [Hz|Hz].
  - rewrite (Hreset Hz). lia.
  - destruct (Hdown Hz) as [-> ->]. lia.
Qed.

Lemma init_reachable_current rs g0 g :
  init get_adjacent_cells rs g0 = (Return tt, g) →
  on_game (reachable_current get_adjacent_cells) g.
Proof.
  intros (fy & sy & k & -> & _)%init_result. unfold on_game, reachable_current.
  cbn [Game.preferences Game.trenches Game.active_player Game.passive_player].
  split; apply rebuild_reachable_ext; by rewrite ?rebuild_units, ?rebuild_walls.
Qed.

Lemma init_sound_board rs g0 g :
  init get_adjacent_cells rs g0 = (Return tt, g) →
  newly_constructed g0 →
  GamePreferences.size (Game.preferences g0) ≠ 1 →
  on_game sound_board g.
Proof.
  intros Hinit (Hau & Haw & Hpu & Hpw) Hsize.
  destruct (init_ok get_adjacent_cells rs g0 g Hau Hpu Hinit) as (? & ? & ? & ?).
  unfold on_game, sound_board. split_and!; try done.
  apply init_result in Hinit as (fy & sy & k & -> & _).
  destruct (with_bases_fields fy sy g0) as (_ & _ & Hw1 & Hw2 & Hu1 & Hu2).
  cbv zeta in *. unfold holdings_disjoint.
  cbn [Game.active_player Game.passive_player].
  rewrite !rebuild_units, !rebuild_walls, Hw1, Hw2, Hu1, Hu2, Haw, Hpw, Hau, Hpu.
  destruct (GamePreferences.is_double_base (Game.preferences g0));
    split_and!; set_solver.
Qed.

Lemma _make_turn_territory prefs trenches cell (a p : Player.t) :
  side_ok a p → cell ∈ Player.reachable a →
  let r := _make_turn get_adjacent_cells prefs trenches cell a p in
  let total (x y : Player.t) :=
    (size (Player.units x) + size (Player.walls x)
     + size (Player.units y) + size (Player.walls y))%nat in
  (cell ∈ Player.units p → total r.1 r.2 = total a p)
  ∧ (cell ∉ Player.units p → total r.1 r.2 = S (total a p)).
Proof.
  intros (Hau & _ & Haw) Hcell r total.
  destruct (_make_turn_sizes get_adjacent_cells prefs trenches cell a p Haw Hcell)
    as [Hcount _].
  destruct (_make_turn_holdings get_adjacent_cells prefs trenches cell a p)
    as (Hcap & Htr & Hex).
  cbv zeta in *. fold r in Hcount, Hcap, Htr, Hex. subst total. cbv beta.
  split.
  - intros Hc. destruct (Hcount Hc) as [H1 H2].
    destruct (Hcap Hc) as (Hu1 & _ & _ & Hw2). rewrite Hu1, Hw2, H1, H2. lia.
  - intros Hc. destruct (decide (cell ∈ trenches)) as [Ht|Ht].
    + destruct (Htr Hc Ht) as (-> & -> & -> & ->).
      rewrite size_union by set_solver. rewrite size_singleton. lia.
    + destruct (Hex Hc Ht) as (-> & -> & -> & ->).
      rewrite size_union by set_solver. rewrite size_singleton. lia.
Qed.

End Calls.

(** ** Further properties of the engine *)

Section Further.
Variable get_adjacent_cells : GamePreferences.t → Cell → list Cell.

(** X1: the reachable set a rebuild computes is the flood fill the loop is
    meant to be: a cell is reachable exactly when it is adjacent to a cell
    connected to the player's units through the player's own walls, and is
    itself no unit or wall of the player and no wall of the opponent. *)
Theorem rebuild_reachable_is_flood_fill (prefs : GamePreferences.t)
    (trenches : gset Cell) (player opponent : Player.t) (c : Cell) :
  c ∈ Player.reachable
        (_rebuild_reachable_set get_adjacent_cells prefs trenches player opponent)
  ↔ (∃ s, connected get_adjacent_cells prefs (Player.units player)
            (Player.walls player) s
          ∧ c ∈ get_adjacent_cells prefs s)
    ∧ (c ∉ Player.units player) ∧ (c ∉ Player.walls player)
    ∧ (c ∉ Player.walls opponent).
Proof. apply rebuild_reachable_spec. Qed.

(** X2: under fog of war a rebuild leaves in [visible_opponent] exactly the
    cells known before that the opponent still occupies, the opponent's walls
    off the trenches, and every cell adjacent to the flood; [visible_terrain]
    gains every adjacent trench and its mirror, and loses nothing. *)
Theorem rebuild_under_fog_records_what_is_seen (prefs : GamePreferences.t)
    (trenches : gset Cell) (player opponent : Player.t) :
  GamePreferences.is_visibility_applied prefs = true →
  let r := _rebuild_reachable_set get_adjacent_cells prefs trenches player opponent in
  let seen c :=
    ∃ s, connected get_adjacent_cells prefs (Player.units player)
           (Player.walls player) s
         ∧ c ∈ get_adjacent_cells prefs s in
  (∀ c, c ∈ Player.visible_opponent r ↔
        (c ∈ Player.visible_opponent player
         ∧ (c ∈ Player.units opponent ∨ c ∈ Player.walls opponent))
        ∨ (c ∈ Player.walls opponent ∧ c ∉ trenches)
        ∨ seen c)
  ∧ (∀ c, c ∈ Player.visible_terrain r ↔
          c ∈ Player.visible_terrain player
          ∨ ∃ t, seen t ∧ t ∈ trenches
                 ∧ (c = t ∨ c = GamePreferences.get_symmetric_cell prefs t)).
Proof. intros Hfog. by apply rebuild_fog_spec. Qed.

(** X3: without fog of war a rebuild changes nothing of the player but the
    reachable set. *)
Theorem rebuild_without_fog_changes_reachable_only (prefs : GamePreferences.t)
    (trenches : gset Cell) (player opponent : Player.t) :
  GamePreferences.is_visibility_applied prefs = false →
  _rebuild_reachable_set get_adjacent_cells prefs trenches player opponent
  = Player.with_reachable
      (Player.reachable
         (_rebuild_reachable_set get_adjacent_cells prefs trenches player opponent))
      player.
Proof. apply rebuild_without_fog. Qed.

(** X4: rebuilding a player twice against the same opponent gives the same
    player as rebuilding once, the fog-of-war sets included. *)
Theorem rebuild_twice_is_rebuild_once (prefs : GamePreferences.t)
    (trenches : gset Cell) (player opponent : Player.t) :
  _rebuild_reachable_set get_adjacent_cells prefs trenches
    (_rebuild_reachable_set get_adjacent_cells prefs trenches player opponent)
    opponent
  = _rebuild_reachable_set get_adjacent_cells prefs trenches player opponent.
Proof. apply rebuild_idempotent. Qed.

(** X5: in every state of a game in play each player's stored reachable
    set is what a rebuild would compute at that moment, although an expansion
    does not rebuild the opponent and a trench claim only discards the cell. *)
Theorem reachable_sets_are_always_current (g : Game.t) :
  adjacency_ignores_turn_count get_adjacent_cells →
  game_reachable get_adjacent_cells g →
  Player.reachable (Game.active_player g)
  = Player.reachable
      (_rebuild_reachable_set get_adjacent_cells (Game.preferences g)
         (Game.trenches g) (Game.active_player g) (Game.passive_player g))
  ∧ Player.reachable (Game.passive_player g)
    = Player.reachable
        (_rebuild_reachable_set get_adjacent_cells (Game.preferences g)
           (Game.trenches g) (Game.passive_player g) (Game.active_player g)).
Proof.
  intros Hadj (rs & g0 & g1 & _ & _ & Hinit & Hplays)%game_reachable_plays.
  apply (plays_keeps get_adjacent_cells (reachable_current get_adjacent_cells)
           (reachable_current_board get_adjacent_cells Hadj) g1 g Hplays).
  by eapply init_reachable_current.
Qed.

(** X6: on a board of size other than 1, from a newly constructed game on,
    the units and walls of the two players are four pairwise disjoint sets. *)
Theorem holdings_stay_pairwise_disjoint (rs : RandomSource) (g0 g1 g : Game.t) :
  newly_constructed g0 →
  GamePreferences.size (Game.preferences g0) ≠ 1 →
  init get_adjacent_cells rs g0 = (Return tt, g1) →
  plays get_adjacent_cells g1 g →
  Player.units (Game.active_player g) ## Player.walls (Game.active_player g)
  ∧ Player.units (Game.passive_player g) ## Player.walls (Game.passive_player g)
  ∧ Player.units (Game.active_player g) ## Player.units (Game.passive_player g)
  ∧ Player.units (Game.active_player g) ## Player.walls (Game.passive_player g)
  ∧ Player.walls (Game.active_player g) ## Player.units (Game.passive_player g)
  ∧ Player.walls (Game.active_player g) ## Player.walls (Game.passive_player g).
Proof.
  intros Hnew Hsize Hinit Hplays.
  apply (plays_keeps get_adjacent_cells sound_board
           (sound_board_property get_adjacent_cells) g1 g Hplays).
  by eapply init_sound_board.
Qed.

(** X7: in a game in play a capture leaves [|units| + |walls|] over both
    players as it was, and a trench claim or an expansion raises it by exactly
    one. *)
Theorem move_changes_territory_exactly (g : Game.t) (cell : Cell) :
  game_reachable get_adjacent_cells g →
  cell ∈ Player.reachable (Game.active_player g) →
  let r := _make_turn get_adjacent_cells (Game.preferences g) (Game.trenches g)
             cell (Game.active_player g) (Game.passive_player g) in
  let after :=
    (size (Player.units r.1) + size (Player.walls r.1)
     + size (Player.units r.2) + size (Player.walls r.2))%nat in
  (cell ∈ Player.units (Game.passive_player g) → after = territory g)
  ∧ (cell ∉ Player.units (Game.passive_player g) → after = S (territory g)).
Proof.
  intros Hreach Hcell.
  destruct (game_reachable_ok get_adjacent_cells g Hreach) as (Hside & _).
  apply (_make_turn_territory get_adjacent_cells _ _ _ _ _ Hside Hcell).
Qed.

(** X8: [init] fails its assertion exactly when the two players have the
    same id, raises [ValueError] when bases are random and the board has no
    row to draw, and returns otherwise; a failing [init] leaves the game as it
    was. *)
Theorem init_error_behaviour (rs : RandomSource) (g : Game.t) :
  let prefs := Game.preferences g in
  (Player.id (Game.active_player g) = Player.id (Game.passive_player g) →
     init get_adjacent_cells rs g = (Raise AssertionError, g))
  ∧ (Player.id (Game.active_player g) ≠ Player.id (Game.passive_player g) →
     GamePreferences.is_with_random_bases prefs = true →
     GamePreferences.size prefs ≤ 0 →
     init get_adjacent_cells rs g = (Raise ValueError, g))
  ∧ (Player.id (Game.active_player g) ≠ Player.id (Game.passive_player g) →
     GamePreferences.is_with_random_bases prefs = false
     ∨ 1 ≤ GamePreferences.size prefs →
     (init get_adjacent_cells rs g).1 = Return tt).
Proof. apply init_spec. Qed.

(** X9: after [init] on a newly constructed game the passive player's
    units are the point mirror of the active player's, the active bases are in
    column 1 and the passive ones in the last column, and on a board of size at
    least 1 every base lies on the board; a full round of moves is left. *)
Theorem init_places_the_players_symmetrically (rs : RandomSource) (g0 g : Game.t) :
  Player.units (Game.active_player g0) = ∅ →
  Player.units (Game.passive_player g0) = ∅ →
  init get_adjacent_cells rs g0 = (Return tt, g) →
  let prefs := Game.preferences g in
  prefs = Game.preferences g0
  ∧ Game.turns_left g = GamePreferences.turn_count prefs
  ∧ Player.units (Game.passive_player g)
    = set_map (GamePreferences.get_symmetric_cell prefs)
        (Player.units (Game.active_player g))
  ∧ (∀ c, c ∈ Player.units (Game.active_player g) → c.1 = 1)
  ∧ (∀ c, c ∈ Player.units (Game.passive_player g) →
          c.1 = GamePreferences.size prefs)
  ∧ (1 ≤ GamePreferences.size prefs →
     ∀ c, c ∈ Player.units (Game.active_player g)
              ∪ Player.units (Game.passive_player g) →
          on_board prefs c).
Proof.
  intros Ha Hp (fy & sy & k & -> & Hrows)%init_result.
  destruct (with_bases_fields fy sy g0) as (_ & _ & _ & _ & Hu1 & Hu2).
  cbv zeta in *.
  cbn [Game.preferences Game.turns_left Game.active_player Game.passive_player].
  rewrite !rebuild_units, Hu1, Hu2, Ha, Hp.
  set (edge := GamePreferences.size (Game.preferences g0)) in *.
  pose proof (Z.div_mod (edge + 1) 2 ltac:(lia)).
  pose proof (Z.mod_pos_bound (edge + 1) 2 ltac:(lia)).
  pose proof (Z.div_mod edge 2 ltac:(lia)).
  pose proof (Z.mod_pos_bound edge 2 ltac:(lia)).
  assert (∀ y, GamePreferences.get_symmetric_cell (Game.preferences g0) (1, y)
               = (edge, edge - y + 1)) as Hmirror
    by (intros; unfold GamePreferences.get_symmetric_cell; cbn; f_equal; lia).
  split_and!; try done.
  - apply set_eq. intros c. rewrite elem_of_map.
    destruct (GamePreferences.is_double_base (Game.preferences g0)); set_unfold.
    + split.
      * intros [[->| ->]|[]]; [exists (1, sy)|exists (1, fy)];
          rewrite Hmirror; tauto.
      * intros (x & -> & [[->| ->]|[]]); rewrite Hmirror; tauto.
    + split.
      * intros [[[]| ->]|[]]. exists (1, fy). rewrite Hmirror. tauto.
      * intros (x & -> & [[[]| ->]|[]]). rewrite Hmirror. tauto.
  - intros c. destruct (GamePreferences.is_double_base (Game.preferences g0));
      set_unfold; intros [[?|?]|[]]; by subst.
  - intros c. destruct (GamePreferences.is_double_base (Game.preferences g0));
      set_unfold; intros [[?|?]|[]]; by subst.
  - intros Hedge c. unfold on_board. fold edge.
    destruct (GamePreferences.is_with_random_bases (Game.preferences g0));
      destruct (GamePreferences.is_double_base (Game.preferences g0));
      set_unfold; intros [[[?|?]|[]]|[[?|?]|[]]]; subst; cbn; lia.
Qed.

(** X10: every trench [init] generates lies on the board. *)
Theorem trenches_lie_on_the_board (rs : RandomSource) (g0 g : Game.t) (c : Cell) :
  init get_adjacent_cells rs g0 = (Return tt, g) →
  c ∈ Game.trenches g →
  on_board (Game.preferences g) c.
Proof.
  intros (fy & sy & k & -> & _)%init_result Hc. cbn in *.
  apply elem_of_list_to_set, _generate_trenches_shape in Hc.
  apply trench_shape_on_board.
  by rewrite (proj1 (with_bases_fields fy sy g0)) in Hc.
Qed.

(** X11: on a board of even size [2h] the position test of
    [_generate_trenches] skips the right half of row [h], and no mirror falls
    on the left half of row [h + 1]: these cells are never trenches, whatever
    the density and the draws. *)
Theorem even_board_keeps_two_half_rows_free_of_trenches (rs : RandomSource)
    (g0 g : Game.t) (h : Z) (c : Cell) :
  init get_adjacent_cells rs g0 = (Return tt, g) →
  GamePreferences.size (Game.preferences g) = 2 * h →
  c ∈ Game.trenches g →
  ¬ (c.2 = h ∧ h < c.1) ∧ ¬ (c.2 = h + 1 ∧ c.1 ≤ h).
Proof.
  intros (fy & sy & k & -> & _)%init_result Hsize Hc. cbn in *.
  apply elem_of_list_to_set, _generate_trenches_shape in Hc.
  rewrite (proj1 (with_bases_fields fy sy g0)) in Hc.
  by apply (trench_shape_even_gap (Game.preferences g0)).
Qed.

(** X12: whatever its outcome, [make_turn] leaves the trenches and the game
    id alone and changes no preference but [turn_count], which it never
    lowers and, without deathmatch, never changes. *)
Theorem make_turn_keeps_the_settings (game_bot : GameBot) (g : Game.t)
    (player_id : string) (cell : Cell) :
  let g' := (make_turn get_adjacent_cells game_bot g player_id cell).2 in
  Game.trenches g' = Game.trenches g
  ∧ Game.id g' = Game.id g
  ∧ Game.preferences g'
    = GamePreferences.with_turn_count
        (GamePreferences.turn_count (Game.preferences g')) (Game.preferences g)
  ∧ GamePreferences.turn_count (Game.preferences g)
    ≤ GamePreferences.turn_count (Game.preferences g')
  ∧ (GamePreferences.is_deathmatch (Game.preferences g) = false →
     Game.preferences g' = Game.preferences g).
Proof. apply make_turn_settings. Qed.

(** X13: who is to move after a [make_turn] that returns: against the bot
    the human stays the active player; between two humans the roles are
    exchanged exactly when the move was the last of its round. *)
Theorem make_turn_passes_the_turn_at_round_end (game_bot : GameBot) (g : Game.t)
    (player_id : string) (cell : Cell) (g' : Game.t) :
  make_turn get_adjacent_cells game_bot g player_id cell = (Return tt, g') →
  let stays :=
    Player.id (Game.active_player g') = Player.id (Game.active_player g)
    ∧ Player.id (Game.passive_player g') = Player.id (Game.passive_player g) in
  let passes :=
    Player.id (Game.active_player g') = Player.id (Game.passive_player g)
    ∧ Player.id (Game.passive_player g') = Player.id (Game.active_player g) in
  (GamePreferences.is_against_bot (Game.preferences g) = true → stays)
  ∧ (GamePreferences.is_against_bot (Game.preferences g) = false →
     Game.turns_left g - 1 = 0 → passes)
  ∧ (Game.turns_left g - 1 ≠ 0 → stays).
Proof.
  intros (Hbot & Hswap & Hkeep)%make_turn_roles. cbv zeta. split_and!.
  - intros Hb. destruct (Hbot Hb) as [(? & _) (? & _)]. done.
  - intros Hb Hz. destruct (Hswap Hb Hz) as [(? & _) (? & _)]. done.
  - intros Hz. destruct (Hkeep Hz) as [(? & _) (? & _)]. done.
Qed.

(** X14: a [make_turn] that returns never leaves both players defeated, and
    never leaves the player to move without a reachable cell in an undecided
    game. *)
Theorem make_turn_leaves_a_move_or_a_loser (game_bot : GameBot) (g : Game.t)
    (player_id : string) (cell : Cell) (g' : Game.t) :
  make_turn get_adjacent_cells game_bot g player_id cell = (Return tt, g') →
  ¬ (Player.is_defeated (Game.active_player g') = true
     ∧ Player.is_defeated (Game.passive_player g') = true)
  ∧ (Player.reachable (Game.active_player g') = ∅ →
     Player.is_defeated (Game.active_player g') = true
     ∨ Player.is_defeated (Game.passive_player g') = true).
Proof. apply make_turn_winner. Qed.

(** X15: when a game starts with [turn_count] at least 1, [turns_left]
    stays between 1 and the current [turn_count] in every state of the game,
    and [turn_count] never falls below its initial value. *)
Theorem turns_left_stays_within_the_round (rs : RandomSource) (g0 g1 g : Game.t) :
  1 ≤ GamePreferences.turn_count (Game.preferences g0) →
  init get_adjacent_cells rs g0 = (Return tt, g1) →
  plays get_adjacent_cells g1 g →
  1 ≤ Game.turns_left g ≤ GamePreferences.turn_count (Game.preferences g)
  ∧ GamePreferences.turn_count (Game.preferences g0)
    ≤ GamePreferences.turn_count (Game.preferences g).
Proof.
  intros Hcount (fy & sy & k & -> & _)%init_result Hplays.
  split.
  - apply (plays_turns_left get_adjacent_cells _ _ Hplays). cbn. lia.
  - apply plays_settings in Hplays as (_ & _ & _ & Hmono & _). exact Hmono.
Qed.

(** X16: a [make_turn] that returns counts [turns_left] down by one and
    leaves the preferences alone, unless the move was the last of its round:
    then [turns_left] is the [turn_count] of the game as it is left. *)
Theorem make_turn_counts_down_or_starts_a_round (game_bot : GameBot) (g : Game.t)
    (player_id : string) (cell : Cell) (g' : Game.t) :
  make_turn get_adjacent_cells game_bot g player_id cell = (Return tt, g') →
  (Game.turns_left g - 1 ≠ 0 →
     Game.turns_left g' = Game.turns_left g - 1
     ∧ Game.preferences g' = Game.preferences g)
  ∧ (Game.turns_left g - 1 = 0 →
     Game.turns_left g' = GamePreferences.turn_count (Game.preferences g')).
Proof. apply make_turn_counters. Qed.

(** X17: [get_view] fails its assertion exactly for an id that is neither
    player's; for a player's id it returns a view whose own side is that
    player's true units, walls and reachable set, whose [my_turn] says whether
    the id is the active player's, and whose [turns_left], id and preferences
    are the game's. *)
Theorem get_view_reports_the_viewer_truthfully (g : Game.t) (player_id : string) :
  (player_id ≠ Player.id (Game.active_player g) →
   player_id ≠ Player.id (Game.passive_player g) →
   get_view get_adjacent_cells g player_id = (Raise AssertionError, g))
  ∧ (player_id = Player.id (Game.active_player g)
     ∨ player_id = Player.id (Game.passive_player g) →
     ∃ view,
       get_view get_adjacent_cells g player_id = (Return view, g)
       ∧ let me := (viewer g player_id).1 in
         GameView.me view
         = PlayerView.mk (Player.units me) (Player.walls me) (Player.reachable me)
             (Player.view_data me) (Player.is_gone me) (Player.is_defeated me)
         ∧ GameView.my_turn view
           = bool_decide (player_id = Player.id (Game.active_player g))
         ∧ GameView.turns_left view = Game.turns_left g
         ∧ GameView.id view = Game.id g
         ∧ GameView.preferences view = Game.preferences g).
Proof.
  destruct (get_view_spec get_adjacent_cells g player_id) as [Hbad Hgood].
  split; [exact Hbad|]. intros Hvalid.
  destruct (Hgood Hvalid) as (view & Hview & Hi & Ht & Hp & Hm & Hme & _).
  exists view. by split_and!.
Qed.

(** X18: a view never shows of the opponent or of the terrain what is not
    there: the shown units, walls and trenches are subsets of the true ones,
    and the opponent's flags are the true ones.  Without fog of war, or once a
    player cannot win, the opponent's true units, walls and reachable set and
    all trenches are shown. *)
Theorem get_view_never_overstates (g : Game.t) (player_id : string)
    (view : GameView.t) :
  (get_view get_adjacent_cells g player_id).1 = Return view →
  let opponent := (viewer g player_id).2 in
  let shown := GameView.opponent view in
  PlayerView.units shown ⊆ Player.units opponent
  ∧ PlayerView.walls shown ⊆ Player.walls opponent
  ∧ GameView.trenches view ⊆ Game.trenches g
  ∧ PlayerView.is_defeated shown = Player.is_defeated opponent
  ∧ PlayerView.is_gone shown = Player.is_gone opponent
  ∧ (GamePreferences.is_visibility_applied (Game.preferences g) = false
     ∨ Player.can_win (Game.active_player g) = false
     ∨ Player.can_win (Game.passive_player g) = false →
     PlayerView.units shown = Player.units opponent
     ∧ PlayerView.walls shown = Player.walls opponent
     ∧ PlayerView.reachable shown = Player.reachable opponent
     ∧ GameView.trenches view = Game.trenches g).
Proof.
  intros Hview.
  destruct (get_view_spec get_adjacent_cells g player_id) as [Hbad Hgood].
  destruct (decide (player_id = Player.id (Game.active_player g)
                    ∨ player_id = Player.id (Game.passive_player g)))
    as [Hvalid|Hinvalid].
  2: { rewrite Hbad in Hview by tauto. done. }
  destruct (Hgood Hvalid)
    as (view' & Heq & _ & _ & _ & _ & _ & _ & Hgone & Hdef & Hshown).
  rewrite Heq in Hview. injection Hview as ->. cbv zeta in *.
  assert (Player.can_win (viewer g player_id).1
            && Player.can_win (viewer g player_id).2
          = Player.can_win (Game.active_player g)
            && Player.can_win (Game.passive_player g)) as Hwin.
  { unfold viewer. case_decide; cbn [fst snd]; [done|]. apply andb_comm. }
  rewrite <- andb_assoc, Hwin in Hshown.
  destruct (GamePreferences.is_visibility_applied (Game.preferences g)),
           (Player.can_win (Game.active_player g)),
           (Player.can_win (Game.passive_player g));
    cbn in Hshown; destruct Hshown as (Hu & Hw & H3 & H4);
    rewrite ?Hu, ?Hw, ?H3, ?H4; split_and!; try done; try set_solver;
    intros [?|[?|?]]; done.
Qed.

(** X19: under fog of war, while both players can win, the view shows the
    opponent's units and walls that lie in the viewer's [visible_opponent], the
    trenches in the viewer's [visible_terrain], and as the opponent's reachable
    set the flood fill of the shown units and walls against the viewer's walls:
    hidden holdings of the opponent do not enter the estimate. *)
Theorem get_view_under_fog_estimates_from_what_is_shown (g : Game.t)
    (player_id : string) (view : GameView.t) :
  GamePreferences.is_visibility_applied (Game.preferences g) = true →
  Player.can_win (Game.active_player g) = true →
  Player.can_win (Game.passive_player g) = true →
  (get_view get_adjacent_cells g player_id).1 = Return view →
  let me := (viewer g player_id).1 in
  let opponent := (viewer g player_id).2 in
  let shown := GameView.opponent view in
  PlayerView.units shown = Player.units opponent ∩ Player.visible_opponent me
  ∧ PlayerView.walls shown = Player.walls opponent ∩ Player.visible_opponent me
  ∧ GameView.trenches view = Game.trenches g ∩ Player.visible_terrain me
  ∧ ∀ c, c ∈ PlayerView.reachable shown ↔
         (∃ s, connected get_adjacent_cells (Game.preferences g)
                 (PlayerView.units shown) (PlayerView.walls shown) s
               ∧ c ∈ get_adjacent_cells (Game.preferences g) s)
         ∧ (c ∉ PlayerView.units shown) ∧ (c ∉ PlayerView.walls shown)
         ∧ (c ∉ Player.walls me).
Proof.
  intros Hfog Ha Hp Hview.
  destruct (get_view_spec get_adjacent_cells g player_id) as [Hbad Hgood].
  destruct (decide (player_id = Player.id (Game.active_player g)
                    ∨ player_id = Player.id (Game.passive_player g)))
    as [Hvalid|Hinvalid].
  2: { rewrite Hbad in Hview by tauto. done. }
  destruct (Hgood Hvalid)
    as (view' & Heq & _ & _ & _ & _ & _ & _ & _ & _ & Hshown).
  rewrite Heq in Hview. injection Hview as ->. cbv zeta in *.
  assert (Player.can_win (viewer g player_id).1 = true
          ∧ Player.can_win (viewer g player_id).2 = true) as [H1 H2].
  { unfold viewer. by case_decide. }
  rewrite Hfog, H1, H2 in Hshown. cbn in Hshown.
  destruct Hshown as (Hu & Hw & Ht & Hr). rewrite Hu, Hw, Ht.
  split_and!; try done.
  intros c. rewrite Hr. apply rebuild_reachable_spec.
Qed.

(** X20: between two players with different ids, whatever [make_turn]
    does, the walls a player had are still that player's walls afterwards, and
    every cell that was owned by either player is still owned by one of them. *)
Theorem walls_are_permanent_and_owned_cells_stay_owned (game_bot : GameBot)
    (g : Game.t) (player_id : string) (cell : Cell) (q q' : Player.t) :
  Player.id (Game.active_player g) ≠ Player.id (Game.passive_player g) →
  let g' := (make_turn get_adjacent_cells game_bot g player_id cell).2 in
  q = Game.active_player g ∨ q = Game.passive_player g →
  q' = Game.active_player g' ∨ q' = Game.passive_player g' →
  Player.id q' = Player.id q →
  Player.walls q ⊆ Player.walls q'
  ∧ owned (Game.active_player g) (Game.passive_player g)
    ⊆ owned (Game.active_player g') (Game.passive_player g').
Proof.
  intros Hids g' Hq Hq' Hid.
  pose proof (make_turn_keeps get_adjacent_cells
                (keeps_walls_and_owned (Player.id q) (Player.walls q)
                   (owned (Game.active_player g) (Game.passive_player g)))
                (keeps_walls_and_owned_board get_adjacent_cells _ _ _)
                game_bot g player_id cell) as Hkeep.
  fold g' in Hkeep. unfold on_game, keeps_walls_and_owned in Hkeep.
  destruct Hkeep as (Ha & Hp & Ho).
  - split_and!; [| |done]; destruct Hq as [->| ->]; intros ?; done.
  - split; [|done]. destruct Hq' as [->| ->]; auto.
Qed.

End Further.

(** *** The further theorems at concrete games *)

Lemma fog_knowledge_at_the_start :
  let a := Game.active_player (started trench_prefs) in
  let p := Game.passive_player (started trench_prefs) in
  let r := _rebuild_reachable_set square_adjacent_cells trench_prefs
             (Game.trenches (started trench_prefs)) a p in
  (1, 2) ∈ Player.visible_terrain r.
Proof.
  intros a p r.
  apply (rebuild_under_fog_records_what_is_seen square_adjacent_cells trench_prefs
           (Game.trenches (started trench_prefs)) a p eq_refl).
  left. vm_compute. reflexivity.
Defined.

Lemma rebuild_in_the_plain_game :
  let a := Game.active_player (started plain_prefs) in
  let p := Game.passive_player (started plain_prefs) in
  _rebuild_reachable_set square_adjacent_cells plain_prefs ∅ a p
  = Player.with_reachable
      (Player.reachable (_rebuild_reachable_set square_adjacent_cells plain_prefs ∅ a p))
      a.
Proof.
  intros a p.
  apply (rebuild_without_fog_changes_reachable_only square_adjacent_cells
           plain_prefs ∅ a p).
  reflexivity.
Defined.

Lemma reachable_sets_current_after_trench_claim :
  let g := after_trench_claim in
  Player.reachable (Game.active_player g)
  = Player.reachable
      (_rebuild_reachable_set square_adjacent_cells (Game.preferences g)
         (Game.trenches g) (Game.active_player g) (Game.passive_player g))
  ∧ Player.reachable (Game.passive_player g)
    = Player.reachable
        (_rebuild_reachable_set square_adjacent_cells (Game.preferences g)
           (Game.trenches g) (Game.passive_player g) (Game.active_player g)).
Proof.
  apply (reachable_sets_are_always_current square_adjacent_cells after_trench_claim).
  - intros prefs n cell. reflexivity.
  - eapply (reachable_make_turn square_adjacent_cells first_reachable_bot
              (started trench_prefs) "a" (1, 2)).
    + eapply (reachable_init square_adjacent_cells lowest_draws
                (new_game trench_prefs)).
      * reflexivity.
      * reflexivity.
      * vm_compute. reflexivity.
    + vm_compute. reflexivity.
Defined.

Lemma holdings_disjoint_after_first_move :
  let g := after_first_move in
  Player.units (Game.active_player g) ## Player.walls (Game.active_player g)
  ∧ Player.units (Game.passive_player g) ## Player.walls (Game.passive_player g)
  ∧ Player.units (Game.active_player g) ## Player.units (Game.passive_player g)
  ∧ Player.units (Game.active_player g) ## Player.walls (Game.passive_player g)
  ∧ Player.walls (Game.active_player g) ## Player.units (Game.passive_player g)
  ∧ Player.walls (Game.active_player g) ## Player.walls (Game.passive_player g).
Proof.
  apply (holdings_stay_pairwise_disjoint square_adjacent_cells lowest_draws
           (new_game plain_prefs) (started plain_prefs) after_first_move).
  - unfold newly_constructed. split_and!; reflexivity.
  - vm_compute. discriminate.
  - vm_compute. reflexivity.
  - eapply (plays_step square_adjacent_cells first_reachable_bot
              (started plain_prefs) (started plain_prefs) "a" (2, 2)).
    + apply plays_refl.
    + vm_compute. reflexivity.
Defined.

Lemma capture_keeps_territory_on_tiny_board :
  let g := started tiny_prefs in
  let r := _make_turn square_adjacent_cells (Game.preferences g) (Game.trenches g)
             (2, 2) (Game.active_player g) (Game.passive_player g) in
  (size (Player.units r.1) + size (Player.walls r.1)
   + size (Player.units r.2) + size (Player.walls r.2))%nat
  = territory g.
Proof.
  refine (proj1 (move_changes_territory_exactly square_adjacent_cells
                   (started tiny_prefs) (2, 2) _ _) _).
  - eapply (reachable_init square_adjacent_cells lowest_draws (new_game tiny_prefs)).
    + reflexivity.
    + reflexivity.
    + vm_compute. reflexivity.
  - vm_compute. reflexivity.
  - vm_compute. reflexivity.
Defined.

Lemma plain_game_starts_symmetric :
  let g := started plain_prefs in
  Player.units (Game.passive_player g)
  = set_map (GamePreferences.get_symmetric_cell (Game.preferences g))
      (Player.units (Game.active_player g))
  ∧ Game.turns_left g = 1.
Proof.
  intros g.
  destruct (init_places_the_players_symmetrically square_adjacent_cells
              lowest_draws (new_game plain_prefs) g)
    as (_ & Hleft & Hmirror & _).
  - reflexivity.
  - reflexivity.
  - vm_compute. reflexivity.
  - split; [exact Hmirror|exact Hleft].
Defined.

Lemma trench_of_the_full_board_is_on_the_board :
  on_board (Game.preferences (started trench_prefs)) (1, 2).
Proof.
  apply (trenches_lie_on_the_board square_adjacent_cells lowest_draws
           (new_game trench_prefs) (started trench_prefs) (1, 2)).
  - vm_compute. reflexivity.
  - vm_compute. reflexivity.
Defined.

Lemma trench_of_the_even_board_is_off_the_free_rows :
  ¬ ((2, 2).2 = 2 ∧ 2 < (2, 2).1) ∧ ¬ ((2, 2).2 = 2 + 1 ∧ (2, 2).1 ≤ 2).
Proof.
  apply (even_board_keeps_two_half_rows_free_of_trenches square_adjacent_cells
           lowest_draws (new_game even_trench_prefs) (started even_trench_prefs)
           2 (2, 2)).
  - vm_compute. reflexivity.
  - vm_compute. reflexivity.
  - vm_compute. reflexivity.
Defined.

Lemma turn_passes_after_the_first_move :
  Player.id (Game.active_player after_first_move) = "b"
  ∧ Player.id (Game.passive_player after_first_move) = "a".
Proof.
  refine (proj1 (proj2 (make_turn_passes_the_turn_at_round_end
                          square_adjacent_cells first_reachable_bot
                          (started plain_prefs) "a" (2, 2) after_first_move _))
                _ _).
  - vm_compute. reflexivity.
  - reflexivity.
  - reflexivity.
Defined.

Lemma nobody_defeated_twice_after_the_first_move :
  ¬ (Player.is_defeated (Game.active_player after_first_move) = true
     ∧ Player.is_defeated (Game.passive_player after_first_move) = true).
Proof.
  refine (proj1 (make_turn_leaves_a_move_or_a_loser square_adjacent_cells
                   first_reachable_bot (started plain_prefs) "a" (2, 2)
                   after_first_move _)).
  vm_compute. reflexivity.
Defined.

Lemma turns_left_in_range_after_the_first_move :
  1 ≤ Game.turns_left after_first_move
    ≤ GamePreferences.turn_count (Game.preferences after_first_move)
  ∧ GamePreferences.turn_count (Game.preferences (new_game plain_prefs))
    ≤ GamePreferences.turn_count (Game.preferences after_first_move).
Proof.
  apply (turns_left_stays_within_the_round square_adjacent_cells lowest_draws
           (new_game plain_prefs) (started plain_prefs) after_first_move).
  - vm_compute. discriminate.
  - vm_compute. reflexivity.
  - eapply (plays_step square_adjacent_cells first_reachable_bot
              (started plain_prefs) (started plain_prefs) "a" (2, 2)).
    + apply plays_refl.
    + vm_compute. reflexivity.
Defined.

Lemma round_restarts_after_the_first_move :
  Game.turns_left after_first_move
  = GamePreferences.turn_count (Game.preferences after_first_move).
Proof.
  refine (proj2 (make_turn_counts_down_or_starts_a_round square_adjacent_cells
                   first_reachable_bot (started plain_prefs) "a" (2, 2)
                   after_first_move _) _).
  - vm_compute. reflexivity.
  - reflexivity.
Defined.

Lemma fog_view_shows_no_more_than_there_is :
  PlayerView.units (GameView.opponent fog_view)
  ⊆ Player.units (viewer after_trench_claim "b").2
  ∧ PlayerView.walls (GameView.opponent fog_view)
    ⊆ Player.walls (viewer after_trench_claim "b").2
  ∧ GameView.trenches fog_view ⊆ Game.trenches after_trench_claim.
Proof.
  destruct (get_view_never_overstates square_adjacent_cells after_trench_claim
              "b" fog_view) as (Hu & Hw & Ht & _).
  - vm_compute. reflexivity.
  - split_and!; [exact Hu|exact Hw|exact Ht].
Defined.

Lemma fog_view_shows_the_visible_holdings :
  PlayerView.units (GameView.opponent fog_view)
  = Player.units (viewer after_trench_claim "b").2
    ∩ Player.visible_opponent (viewer after_trench_claim "b").1
  ∧ PlayerView.walls (GameView.opponent fog_view)
    = Player.walls (viewer after_trench_claim "b").2
      ∩ Player.visible_opponent (viewer after_trench_claim "b").1.
Proof.
  destruct (get_view_under_fog_estimates_from_what_is_shown square_adjacent_cells
              after_trench_claim "b" fog_view) as (Hu & Hw & _).
  - reflexivity.
  - reflexivity.
  - reflexivity.
  - vm_compute. reflexivity.
  - split; [exact Hu|exact Hw].
Defined.

Lemma walls_kept_by_the_trench_claim :
  Player.walls (Game.active_player (started trench_prefs))
  ⊆ Player.walls (Game.passive_player after_trench_claim)
  ∧ owned (Game.active_player (started trench_prefs))
          (Game.passive_player (started trench_prefs))
    ⊆ owned (Game.active_player after_trench_claim)
            (Game.passive_player after_trench_claim).
Proof.
  apply (walls_are_permanent_and_owned_cells_stay_owned square_adjacent_cells
           first_reachable_bot (started trench_prefs) "a" (1, 2)
           (Game.active_player (started trench_prefs))
           (Game.passive_player after_trench_claim)).
  - vm_compute. discriminate.
  - left. reflexivity.
  - right. reflexivity.
  - vm_compute. reflexivity.
Defined.

(** ** [get_view] on the object store *)

(** A location below [next] is not the next free one: arithmetic on
    locations, with the disequalities between references put aside first. *)
Ltac below :=
  cbn [Store.next Store.new_set Store.new_player Store.clear Store.write
       Store.bind_player];
  first
    [ assumption
    | congruence
    | repeat match goal with H : _ ≠ _ |- _ => clear H end; lia ].

Section Objects.
Variable get_adjacent_cells : GamePreferences.t → Cell → list Cell.

Implicit Types (st : Store.t) (l : Store.loc) (p o : Store.PlayerObj.t).

Lemma contents_write l l' (s : gset Cell) st :
  Store.contents (Store.write l s st) l'
  = if decide (l' = l) then s else Store.contents st l'.
Proof.
  unfold Store.contents, Store.write. cbn. case_decide as H.
  - subst. by rewrite lookup_insert_eq.
  - by rewrite lookup_insert_ne.
Qed.

Lemma contents_add l l' (c : Cell) st :
  Store.contents (Store.add l c st) l'
  = if decide (l' = l) then {[c]} ∪ Store.contents st l else Store.contents st l'.
Proof. apply contents_write. Qed.

Lemma contents_eq st st' l :
  Store.sets st' !! l = Store.sets st !! l → Store.contents st' l = Store.contents st l.
Proof. unfold Store.contents. by intros ->. Qed.

Lemma written_only_refl (W : list Store.loc) st : Store.written_only W st st.
Proof. by repeat split. Qed.

Lemma written_only_trans (W : list Store.loc) st1 st2 st3 :
  Store.written_only W st1 st2 → Store.written_only W st2 st3 →
  Store.written_only W st1 st3.
Proof.
  intros (Ha & ? & ? & ? & ? & ? & ? & ? & ?) (Hb & ? & ? & ? & ? & ? & ? & ? & ?).
  split_and!; try congruence. intros l Hl. by rewrite Hb, Ha.
Qed.

Lemma written_only_add (W : list Store.loc) st l (c : Cell) :
  l ∈ W → Store.written_only W st (Store.add l c st).
Proof.
  intros Hl. split_and!; try done. intros l' Hl'. cbn.
  apply lookup_insert_ne. by intros ->.
Qed.

Lemma written_only_contents (W : list Store.loc) st st' l :
  Store.written_only W st st' → l ∉ W → Store.contents st' l = Store.contents st l.
Proof. intros [H _] Hl. apply contents_eq. by apply H. Qed.

Lemma separated_facts p o :
  Store.separated p o →
  Store.PlayerObj.reachable p ≠ Store.PlayerObj.visible_opponent p
  ∧ Store.PlayerObj.reachable p ≠ Store.PlayerObj.visible_terrain p
  ∧ Store.PlayerObj.visible_opponent p ≠ Store.PlayerObj.visible_terrain p
  ∧ (Store.PlayerObj.units p ≠ Store.PlayerObj.reachable p
     ∧ Store.PlayerObj.walls p ≠ Store.PlayerObj.reachable p
     ∧ Store.PlayerObj.units o ≠ Store.PlayerObj.reachable p
     ∧ Store.PlayerObj.walls o ≠ Store.PlayerObj.reachable p)
  ∧ (Store.PlayerObj.units p ≠ Store.PlayerObj.visible_opponent p
     ∧ Store.PlayerObj.walls p ≠ Store.PlayerObj.visible_opponent p
     ∧ Store.PlayerObj.units o ≠ Store.PlayerObj.visible_opponent p
     ∧ Store.PlayerObj.walls o ≠ Store.PlayerObj.visible_opponent p)
  ∧ (Store.PlayerObj.units p ≠ Store.PlayerObj.visible_terrain p
     ∧ Store.PlayerObj.walls p ≠ Store.PlayerObj.visible_terrain p
     ∧ Store.PlayerObj.units o ≠ Store.PlayerObj.visible_terrain p
     ∧ Store.PlayerObj.walls o ≠ Store.PlayerObj.visible_terrain p).
Proof.
  unfold Store.separated, Store.written, Store.read. intros [Hnd Hrd].
  apply NoDup_cons in Hnd as [H1 Hnd]. apply NoDup_cons in Hnd as [H2 _].
  assert (∀ l, l ∈ [Store.PlayerObj.reachable p; Store.PlayerObj.visible_opponent p;
                    Store.PlayerObj.visible_terrain p] →
            Store.PlayerObj.units p ≠ l ∧ Store.PlayerObj.walls p ≠ l
            ∧ Store.PlayerObj.units o ≠ l ∧ Store.PlayerObj.walls o ≠ l) as H.
  { intros l Hl. specialize (Hrd l Hl).
    split_and!; intros <-; apply Hrd; set_solver. }
  split_and!; [set_solver..| | |]; apply H; set_solver.
Qed.

Lemma player_value_add_reachable p o st (c : Cell) :
  Store.separated p o →
  Store.player_value (Store.add (Store.PlayerObj.reachable p) c st) p
  = Player.with_reachable ({[c]} ∪ Player.reachable (Store.player_value st p))
      (Store.player_value st p).
Proof.
  intros Hsep.
  destruct (separated_facts _ _ Hsep)
    as (? & ? & ? & (? & ? & ? & ?) & (? & ? & ? & ?) & (? & ? & ? & ?)).
  unfold Store.player_value, Player.with_reachable. cbn.
  rewrite !contents_add. repeat (case_decide; try congruence).
Qed.

Lemma player_value_add_visible_opponent p o st (c : Cell) :
  Store.separated p o →
  Store.player_value (Store.add (Store.PlayerObj.visible_opponent p) c st) p
  = Player.with_visible_opponent
      ({[c]} ∪ Player.visible_opponent (Store.player_value st p))
      (Store.player_value st p).
Proof.
  intros Hsep.
  destruct (separated_facts _ _ Hsep)
    as (? & ? & ? & (? & ? & ? & ?) & (? & ? & ? & ?) & (? & ? & ? & ?)).
  unfold Store.player_value, Player.with_visible_opponent. cbn.
  rewrite !contents_add. repeat (case_decide; try congruence).
Qed.

Lemma player_value_add_visible_terrain p o st (c : Cell) :
  Store.separated p o →
  Store.player_value (Store.add (Store.PlayerObj.visible_terrain p) c st) p
  = Player.with_visible_terrain
      ({[c]} ∪ Player.visible_terrain (Store.player_value st p))
      (Store.player_value st p).
Proof.
  intros Hsep.
  destruct (separated_facts _ _ Hsep)
    as (? & ? & ? & (? & ? & ? & ?) & (? & ? & ? & ?) & (? & ? & ? & ?)).
  unfold Store.player_value, Player.with_visible_terrain. cbn.
  rewrite !contents_add. repeat (case_decide; try congruence).
Qed.

Lemma written_only_read p o st0 st :
  Store.separated p o → Store.written_only (Store.written p) st0 st →
  Store.contents st (Store.PlayerObj.units p) = Store.contents st0 (Store.PlayerObj.units p)
  ∧ Store.contents st (Store.PlayerObj.walls p) = Store.contents st0 (Store.PlayerObj.walls p)
  ∧ Store.contents st (Store.PlayerObj.units o) = Store.contents st0 (Store.PlayerObj.units o)
  ∧ Store.contents st (Store.PlayerObj.walls o) = Store.contents st0 (Store.PlayerObj.walls o).
Proof.
  intros Hsep Hw.
  destruct (separated_facts _ _ Hsep)
    as (? & ? & ? & (? & ? & ? & ?) & (? & ? & ? & ?) & (? & ? & ? & ?)).
  split_and!; apply (written_only_contents _ _ _ _ Hw);
    unfold Store.written; rewrite !elem_of_cons, elem_of_nil; naive_solver.
Qed.

(** The part of the loop body after the visibility updates. *)
Lemma visit_cell_classify p o st0 (sources ns : gset Cell) st1 pl (cell : Cell) :
  Store.separated p o → Store.written_only (Store.written p) st0 st1 →
  pl = Store.player_value st1 p →
  Store.tracks p st0
    (if decide (cell ∈ sources) then (st1, ns)
     else if decide (cell ∈ Store.contents st1 (Store.PlayerObj.walls p))
       then (st1, {[cell]} ∪ ns)
     else if decide ((cell ∉ Store.contents st1 (Store.PlayerObj.walls o))
                     ∧ (cell ∉ Store.contents st1 (Store.PlayerObj.units p)))
       then (Store.add (Store.PlayerObj.reachable p) cell st1, ns)
     else (st1, ns))
    (if decide (cell ∈ sources) then (pl, ns)
     else if decide (cell ∈ Player.walls pl) then (pl, {[cell]} ∪ ns)
     else if decide ((cell ∉ Player.walls (Store.player_value st0 o))
                     ∧ (cell ∉ Player.units pl))
       then (Player.with_reachable ({[cell]} ∪ Player.reachable pl) pl, ns)
     else (pl, ns)).
Proof.
  intros Hsep Hw ->.
  destruct (written_only_read _ _ _ _ Hsep Hw) as (_ & _ & _ & Hwo).
  cbn [Store.player_value Player.walls Player.units]. rewrite Hwo.
  repeat case_decide; try done; split; cbn [fst snd]; try done.
  - eapply written_only_trans; [exact Hw|]. apply written_only_add.
    unfold Store.written. set_solver.
  - by rewrite (player_value_add_reachable _ _ _ _ Hsep).
Qed.

Lemma visit_cell_tracks p o st0 (sources : gset Cell) acc pure (cell : Cell) :
  Store.separated p o → Store.tracks p st0 acc pure →
  Store.tracks p st0 (Store.visit_cell p o sources acc cell)
    (visit_cell (Store.preferences st0) (Store.trenches st0)
       (Store.player_value st0 o) sources pure cell).
Proof.
  intros Hsep [Hw ->]. destruct acc as [st ns]. cbn [fst snd] in Hw |- *.
  pose proof Hw as (_ & _ & _ & _ & Hprefs & _ & _ & _ & Htr).
  unfold Store.visit_cell, visit_cell.
  cbn [Store.preferences Store.trenches Store.add Store.write].
  rewrite Hprefs, Htr.
  destruct (GamePreferences.is_visibility_applied (Store.preferences st0));
    [destruct (decide (cell ∈ Store.trenches st0))|].
  - apply visit_cell_classify; [done| |].
    + eapply written_only_trans; [exact Hw|].
      eapply written_only_trans; [|apply written_only_add; unfold Store.written; set_solver].
      eapply written_only_trans; apply written_only_add; unfold Store.written; set_solver.
    + rewrite (player_value_add_visible_terrain _ _ _ _ Hsep),
        (player_value_add_visible_terrain _ _ _ _ Hsep),
        (player_value_add_visible_opponent _ _ _ _ Hsep). reflexivity.
  - apply visit_cell_classify; [done| |].
    + eapply written_only_trans; [exact Hw|].
      apply written_only_add; unfold Store.written; set_solver.
    + by rewrite (player_value_add_visible_opponent _ _ _ _ Hsep).
  - by apply visit_cell_classify.
Qed.

Lemma foldl_related {A B X : Type} (R : A → B → Prop) (f : A → X → A)
    (g : B → X → B) (xs : list X) :
  (∀ a b x, R a b → R (f a x) (g b x)) →
  ∀ a b, R a b → R (foldl f a xs) (foldl g b xs).
Proof. intros Hstep. induction xs as [|x xs IH]; cbn; auto. Qed.

Lemma visit_source_tracks p o st0 (sources : gset Cell) acc pure (source : Cell) :
  Store.separated p o → Store.tracks p st0 acc pure →
  Store.tracks p st0
    (Store.visit_source get_adjacent_cells p o sources acc source)
    (visit_source get_adjacent_cells (Store.preferences st0) (Store.trenches st0)
       (Store.player_value st0 o) sources pure source).
Proof.
  intros Hsep Hacc. unfold Store.visit_source, visit_source.
  pose proof Hacc as [(_ & _ & _ & _ & -> & _) _].
  apply foldl_related; [|done]. intros a b x. by apply visit_cell_tracks.
Qed.

Lemma frontier_pass_tracks p o st0 st (sources : gset Cell) :
  Store.separated p o → Store.written_only (Store.written p) st0 st →
  Store.tracks p st0
    (Store.frontier_pass get_adjacent_cells p o st sources)
    (frontier_pass get_adjacent_cells (Store.preferences st0) (Store.trenches st0)
       (Store.player_value st0 o) (Store.player_value st p) sources).
Proof.
  intros Hsep Hw. unfold Store.frontier_pass, frontier_pass.
  apply foldl_related; [|by split]. intros a b x. by apply visit_source_tracks.
Qed.

(** Where the loop on values reaches its [break], the loop on objects does,
    with the same fuel, and leaves the player object standing for the same
    player. *)
Lemma frontier_loop_tracks p o st0 (fuel : nat) :
  Store.separated p o →
  ∀ st (sources : gset Cell) (pl : Player.t),
    Store.written_only (Store.written p) st0 st →
    frontier_loop get_adjacent_cells fuel (Store.preferences st0)
      (Store.trenches st0) (Store.player_value st0 o) (Store.player_value st p)
      sources = Some pl →
    ∃ st', Store.frontier_loop get_adjacent_cells fuel p o st sources = Some st'
           ∧ Store.written_only (Store.written p) st0 st'
           ∧ Store.player_value st' p = pl.
Proof.
  intros Hsep. induction fuel as [|fuel IH]; intros st sources pl Hw; [done|].
  cbn [frontier_loop Store.frontier_loop].
  pose proof (frontier_pass_tracks p o st0 st sources Hsep Hw) as [Hw' Hpure].
  rewrite Hpure.
  destruct (Store.frontier_pass get_adjacent_cells p o st sources) as [st1 ns].
  cbn [fst snd] in *. case_decide.
  - intros [= <-]. by exists st1.
  - by apply IH.
Qed.

Lemma contents_new_set l (s : gset Cell) st :
  Store.contents (Store.new_set s st) l
  = if decide (l = Store.next st) then s else Store.contents st l.
Proof.
  unfold Store.contents, Store.new_set. cbn. case_decide as H.
  - subst. by rewrite lookup_insert_eq.
  - by rewrite lookup_insert_ne.
Qed.

Lemma player_value_written_only (W : list Store.loc) st st' o :
  Store.written_only W st st' → (∀ l, l ∈ W → l ∉ Store.held o) →
  Store.player_value st' o = Store.player_value st o.
Proof.
  intros Hw Hapart. unfold Store.player_value.
  rewrite !(written_only_contents W st st' _ Hw); [done|..];
    intros Hl; apply (Hapart _ Hl); unfold Store.held; set_solver.
Qed.

Lemma rebuild_prologue_walls (prefs : GamePreferences.t) (trenches : gset Cell)
    (player opponent : Player.t) :
  Player.walls (rebuild_prologue prefs trenches player opponent) = Player.walls player.
Proof.
  unfold rebuild_prologue. by destruct (GamePreferences.is_visibility_applied prefs).
Qed.

(** From the store on entering the loop, the loop on objects computes what
    [_rebuild_reachable_set] computes on values. *)
Lemma frontier_loop_from_entry p o st (player opponent : Player.t) :
  Store.separated p o →
  Store.player_value st p
  = rebuild_prologue (Store.preferences st) (Store.trenches st) player opponent →
  Store.player_value st o = opponent →
  ∃ st',
    Store.frontier_loop get_adjacent_cells
      (S (size (Store.contents st (Store.PlayerObj.walls p)))) p o st
      (Store.contents st (Store.PlayerObj.units p)) = Some st'
    ∧ Store.written_only (Store.written p) st st'
    ∧ Store.player_value st' p
      = _rebuild_reachable_set get_adjacent_cells (Store.preferences st)
          (Store.trenches st) player opponent.
Proof.
  intros Hsep Hentry Hopp.
  destruct (frontier_loop_returns get_adjacent_cells (Store.preferences st)
              (Store.trenches st) opponent player) as (pl & Hloop & ->).
  cbn [loop_entry fst snd] in Hloop. rewrite <- Hentry, <- Hopp in Hloop.
  assert (Player.walls player = Store.contents st (Store.PlayerObj.walls p)) as Hwalls.
  { rewrite <- (rebuild_prologue_walls (Store.preferences st) (Store.trenches st)
                  player opponent), <- Hentry. done. }
  rewrite Hwalls in Hloop. cbn [Store.player_value Player.units] in Hloop.
  apply (frontier_loop_tracks p o st _ Hsep st _ pl); [apply written_only_refl|].
  exact Hloop.
Qed.

Lemma separated_intro p o :
  Store.PlayerObj.reachable p ≠ Store.PlayerObj.visible_opponent p →
  Store.PlayerObj.reachable p ≠ Store.PlayerObj.visible_terrain p →
  Store.PlayerObj.visible_opponent p ≠ Store.PlayerObj.visible_terrain p →
  (∀ l, l ∈ Store.read p o →
        l ≠ Store.PlayerObj.reachable p ∧ l ≠ Store.PlayerObj.visible_opponent p
        ∧ l ≠ Store.PlayerObj.visible_terrain p) →
  Store.separated p o.
Proof.
  intros H1 H2 H3 Hread. split.
  - unfold Store.written. rewrite !NoDup_cons, !not_elem_of_cons.
    split_and!; try done; [apply not_elem_of_nil..|apply NoDup_nil_2].
  - intros l Hl Hr. destruct (Hread l Hr) as (? & ? & ?).
    unfold Store.written in Hl. set_solver.
Qed.


Lemma contents_clear_eq l st : Store.contents (Store.clear l st) l = ∅.
Proof. unfold Store.clear. rewrite contents_write. by case_decide. Qed.

Lemma contents_clear_ne l l' st :
  l' ≠ l → Store.contents (Store.clear l st) l' = Store.contents st l'.
Proof. intros. unfold Store.clear. rewrite contents_write. by case_decide. Qed.

Lemma contents_new_set_eq (s : gset Cell) st :
  Store.contents (Store.new_set s st) (Store.next st) = s.
Proof. rewrite contents_new_set. by case_decide. Qed.

Lemma contents_new_set_ne l (s : gset Cell) st :
  l ≠ Store.next st → Store.contents (Store.new_set s st) l = Store.contents st l.
Proof. intros. rewrite contents_new_set. by case_decide. Qed.

Lemma contents_bind_player l p st l' :
  Store.contents (Store.bind_player l p st) l' = Store.contents st l'.
Proof. reflexivity. Qed.

Lemma rebuild_prologue_objects st (player opponent : Store.loc) p o :
  Store.players st !! player = Some p →
  Store.players st !! opponent = Some o →
  player ≠ opponent →
  Store.separated p o →
  (∀ l, l ∈ Store.written p → l ∉ Store.held o) →
  Store.refers_below (Store.next st) p →
  Store.refers_below (Store.next st) o →
  ∃ p',
    Store.players (Store.rebuild_prologue st player p o) !! player = Some p'
    ∧ Store.players (Store.rebuild_prologue st player p o) !! opponent = Some o
    ∧ Store.PlayerObj.reachable p' = Store.PlayerObj.reachable p
    ∧ Store.separated p' o
    ∧ (∀ l, l ∈ Store.written p' → (l ∈ Store.written p) ∨ (Store.next st ≤ l)%nat)
    ∧ Store.player_value (Store.rebuild_prologue st player p o) p'
      = rebuild_prologue (Store.preferences st) (Store.trenches st)
          (Store.player_value st p) (Store.player_value st o)
    ∧ Store.player_value (Store.rebuild_prologue st player p o) o
      = Store.player_value st o
    ∧ (∀ l, (l < Store.next st)%nat → l ≠ Store.PlayerObj.reachable p →
            Store.sets (Store.rebuild_prologue st player p o) !! l = Store.sets st !! l)
    ∧ (∀ l, l ≠ player →
            Store.players (Store.rebuild_prologue st player p o) !! l
            = Store.players st !! l)
    ∧ (Store.next st ≤ Store.next (Store.rebuild_prologue st player p o))%nat
    ∧ Store.id (Store.rebuild_prologue st player p o) = Store.id st
    ∧ Store.preferences (Store.rebuild_prologue st player p o) = Store.preferences st
    ∧ Store.turns_left (Store.rebuild_prologue st player p o) = Store.turns_left st
    ∧ Store.active_player (Store.rebuild_prologue st player p o) = Store.active_player st
    ∧ Store.passive_player (Store.rebuild_prologue st player p o) = Store.passive_player st
    ∧ Store.trenches (Store.rebuild_prologue st player p o) = Store.trenches st.
Proof.
  intros Hp Ho Hne Hsep Hapart Hbp Hbo.
  destruct (separated_facts _ _ Hsep)
    as (? & ? & ? & (? & ? & ? & ?) & (? & ? & ? & ?) & (? & ? & ? & ?)).
  assert ((Store.PlayerObj.reachable p ∉ Store.held o)
          ∧ Store.PlayerObj.visible_terrain p ∉ Store.held o) as [Hr Ht].
  { split; apply Hapart; unfold Store.written; set_solver. }
  unfold Store.held in Hr, Ht. rewrite !not_elem_of_cons in Hr, Ht.
  destruct Hr as (? & ? & ? & ? & ? & _). destruct Ht as (? & ? & ? & ? & ? & _).
  destruct Hbp as (Hpu & Hpw & Hpr & Hpvo & Hpvt).
  destruct Hbo as (Hou & How & Hor & Hovo & Hovt).
  unfold Store.rebuild_prologue, rebuild_prologue. cbv zeta.
  change (Store.preferences (Store.clear (Store.PlayerObj.reachable p) st))
    with (Store.preferences st).
  destruct (GamePreferences.is_visibility_applied (Store.preferences st)).
  - exists (Store.PlayerObj.with_visible_opponent (S (Store.next st)) p).
    split_and!; [| | | | | | | | | |reflexivity..].
    + cbn [Store.bind_player Store.players]. by rewrite lookup_insert_eq.
    + cbn [Store.bind_player Store.players]. by rewrite lookup_insert_ne.
    + reflexivity.
    + apply separated_intro;
        cbn [Store.PlayerObj.with_visible_opponent Store.PlayerObj.reachable
             Store.PlayerObj.visible_opponent Store.PlayerObj.visible_terrain];
        [below..|].
      intros l Hl. unfold Store.read in Hl.
      cbn [Store.PlayerObj.with_visible_opponent Store.PlayerObj.units
           Store.PlayerObj.walls] in Hl.
      rewrite !elem_of_cons, elem_of_nil in Hl.
      destruct Hl as [->|[->|[->|[->|[]]]]]; split_and!; below.
    + intros l Hl. unfold Store.written in *.
      cbn [Store.PlayerObj.with_visible_opponent Store.PlayerObj.reachable
           Store.PlayerObj.visible_opponent Store.PlayerObj.visible_terrain] in Hl.
      rewrite !elem_of_cons, elem_of_nil in Hl. rewrite !elem_of_cons.
      destruct Hl as [->|[->|[->|[]]]];
        [by left; left|right; lia|by left; right; right; left].
    + unfold Store.player_value.
      cbn [Store.PlayerObj.with_visible_opponent Store.PlayerObj.id
           Store.PlayerObj.units Store.PlayerObj.walls Store.PlayerObj.reachable
           Store.PlayerObj.visible_opponent Store.PlayerObj.visible_terrain
           Store.PlayerObj.view_data Store.PlayerObj.is_gone
           Store.PlayerObj.is_defeated
           Player.with_visible_opponent Player.with_reachable Player.id
           Player.units Player.walls Player.reachable Player.visible_opponent
           Player.visible_terrain Player.view_data Player.is_gone
           Player.is_defeated].
      rewrite !contents_bind_player.
      change (S (Store.next st)) with
        (Store.next (Store.new_set
           (filter (λ cell, cell ∈ Store.contents (Store.clear (Store.PlayerObj.reachable p) st) (Store.PlayerObj.units o)
                            ∨ cell ∈ Store.contents (Store.clear (Store.PlayerObj.reachable p) st) (Store.PlayerObj.walls o))
                   (Store.contents (Store.clear (Store.PlayerObj.reachable p) st) (Store.PlayerObj.visible_opponent p)))
           (Store.clear (Store.PlayerObj.reachable p) st))) at 1.
      rewrite contents_new_set_eq.
      rewrite !(contents_new_set_ne (Store.PlayerObj.units p)) by below.
      rewrite !(contents_new_set_ne (Store.PlayerObj.walls p)) by below.
      rewrite !(contents_new_set_ne (Store.PlayerObj.reachable p)) by below.
      rewrite !(contents_new_set_ne (Store.PlayerObj.visible_terrain p)) by below.
      rewrite !(contents_new_set_ne (Store.PlayerObj.walls o)) by below.
      rewrite !contents_new_set_eq, contents_clear_eq.
      rewrite !contents_clear_ne by below.
      cbn [Store.trenches Store.new_set Store.clear Store.write].
      unfold Player.with_visible_opponent, Player.with_reachable.
      cbn [Player.id Player.units Player.walls Player.reachable
           Player.visible_opponent Player.visible_terrain Player.view_data
           Player.is_gone Player.is_defeated].
      reflexivity.
    + unfold Store.player_value. rewrite !contents_bind_player.
      rewrite !contents_new_set_ne by below.
      by rewrite !contents_clear_ne by below.
    + intros l Hl Hlr.
      cbn [Store.sets Store.bind_player Store.new_set Store.clear Store.write
           Store.next].
      rewrite !lookup_insert_ne; [done|congruence|lia|lia].
    + intros l Hl. cbn [Store.bind_player Store.players].
      rewrite lookup_insert_ne by done. reflexivity.
    + cbn [Store.next Store.new_set Store.clear Store.write Store.bind_player].
      lia.
  - exists p. split_and!; [| | | | | | | | | |reflexivity..].
    + exact Hp.
    + exact Ho.
    + reflexivity.
    + exact Hsep.
    + intros l Hl. by left.
    + unfold Store.player_value, Player.with_reachable.
      cbn [Player.id Player.units Player.walls Player.reachable
           Player.visible_opponent Player.visible_terrain Player.view_data
           Player.is_gone Player.is_defeated].
      rewrite contents_clear_eq. by rewrite !contents_clear_ne by below.
    + unfold Store.player_value. by rewrite !contents_clear_ne by below.
    + intros l Hl Hlr. cbn [Store.sets Store.clear Store.write].
      by rewrite lookup_insert_ne by congruence.
    + done.
    + cbn [Store.next Store.clear Store.write]. lia.
Qed.

(** [_rebuild_reachable_set] on objects returns; it leaves [player] standing
    for what [_rebuild_reachable_set] computes on values; it writes into the
    three written sets of [player] and into objects it has made itself, and
    binds a field of [player] only. *)
Lemma _rebuild_reachable_set_objects st (player opponent : Store.loc) p o :
  Store.players st !! player = Some p →
  Store.players st !! opponent = Some o →
  player ≠ opponent →
  Store.separated p o →
  (∀ l, l ∈ Store.written p → l ∉ Store.held o) →
  Store.refers_below (Store.next st) p →
  Store.refers_below (Store.next st) o →
  ∃ st' p',
    Store._rebuild_reachable_set get_adjacent_cells st player opponent = Some st'
    ∧ Store.players st' !! player = Some p'
    ∧ Store.PlayerObj.reachable p' = Store.PlayerObj.reachable p
    ∧ Store.player_value st' p'
      = _rebuild_reachable_set get_adjacent_cells (Store.preferences st)
          (Store.trenches st) (Store.player_value st p) (Store.player_value st o)
    ∧ (∀ l, (l < Store.next st)%nat → l ∉ Store.written p →
            Store.sets st' !! l = Store.sets st !! l)
    ∧ (∀ l, l ≠ player → Store.players st' !! l = Store.players st !! l)
    ∧ (Store.next st ≤ Store.next st')%nat
    ∧ Store.id st' = Store.id st
    ∧ Store.preferences st' = Store.preferences st
    ∧ Store.turns_left st' = Store.turns_left st
    ∧ Store.active_player st' = Store.active_player st
    ∧ Store.passive_player st' = Store.passive_player st
    ∧ Store.trenches st' = Store.trenches st.
Proof.
  intros Hp Ho Hne Hsep Hapart Hbp Hbo.
  destruct (rebuild_prologue_objects st player opponent p o Hp Ho Hne Hsep Hapart
              Hbp Hbo)
    as (p' & Hp' & Ho' & Hreach & Hsep' & Hwr & Hpv & Hpvo & Hsets & Hplayers
        & Hnext & Hid & Hprefs & Htl & Ha & Hpa & Htr).
  unfold Store._rebuild_reachable_set. rewrite Hp, Ho. cbn [mbind option_bind].
  rewrite Hp', Ho'. cbn [mbind option_bind].
  destruct (frontier_loop_from_entry p' o (Store.rebuild_prologue st player p o)
              (Store.player_value st p) (Store.player_value st o) Hsep')
    as (st' & Hloop & Hw & Hval).
  { by rewrite Hprefs, Htr. }
  { exact Hpvo. }
  rewrite Hprefs, Htr in Hval.
  destruct Hw as (Hw & Hwp & Hwn & Hwid & Hwprefs & Hwtl & Hwa & Hwpa & Hwtr).
  exists st', p'. split_and!; try congruence.
  - intros l Hl Hlw. rewrite Hw.
    + apply Hsets; [done|]. intros ->. apply Hlw. unfold Store.written. set_solver.
    + intros Hl'. destruct (Hwr l Hl') as [?|?]; [done|lia].
  - intros l Hl. rewrite Hwp. by apply Hplayers.
Qed.

Lemma new_player_objects (units walls : Store.loc) st :
  let n := Store.next st in
  let st' := Store.new_player units walls st in
  Store.players st' !! n
  = Some (Store.PlayerObj.mk "" units walls (S n) (S (S n)) (S (S (S n))) ∅
            false false)
  ∧ (∀ l, l ≠ n → Store.players st' !! l = Store.players st !! l)
  ∧ (∀ l, (l < n)%nat → Store.sets st' !! l = Store.sets st !! l)
  ∧ Store.contents st' (S n) = ∅
  ∧ Store.contents st' (S (S n)) = ∅
  ∧ Store.contents st' (S (S (S n))) = ∅
  ∧ Store.next st' = S (S (S (S n))).
Proof.
  intros n st'. subst n st'. unfold Store.new_player, Store.contents. cbv zeta.
  cbn [Store.sets Store.players Store.next Store.new_set Store.bind_player].
  split_and!.
  - by rewrite lookup_insert_eq.
  - intros l Hl. by rewrite lookup_insert_ne.
  - intros l Hl. rewrite !lookup_insert_ne by lia. done.
  - rewrite !lookup_insert_ne by lia. by rewrite lookup_insert_eq.
  - rewrite lookup_insert_ne by lia. by rewrite lookup_insert_eq.
  - by rewrite lookup_insert_eq.
  - done.
Qed.

Lemma unchanged_contents st st' l :
  Store.unchanged st st' → (l < Store.next st)%nat →
  Store.contents st' l = Store.contents st l.
Proof. intros [H _] Hl. apply contents_eq. by apply H. Qed.

Lemma unchanged_player_value st st' p :
  Store.unchanged st st' → Store.refers_below (Store.next st) p →
  Store.player_value st' p = Store.player_value st p.
Proof.
  intros H (? & ? & ? & ? & ?). unfold Store.player_value.
  by rewrite !(unchanged_contents st st') by done.
Qed.

(** The body of [get_view] on objects returns a view; every object that was
    there is as it was; and the view, read in the store the call leaves,
    shows what [get_view] computes on values. *)
Lemma view_of_objects st (me opponent : Store.loc) m o a :
  Store.players st !! me = Some m →
  Store.players st !! opponent = Some o →
  Store.players st !! Store.active_player st = Some a →
  (me < Store.next st)%nat → (opponent < Store.next st)%nat →
  (Store.active_player st < Store.next st)%nat →
  Store.refers_below (Store.next st) m →
  Store.refers_below (Store.next st) o →
  Store.refers_below (Store.next st) a →
  ∃ v st',
    Store.view_of get_adjacent_cells st me opponent = Some (Return v, st')
    ∧ Store.unchanged st st'
    ∧ Store.view_below (Store.next st') (Return v)
    ∧ Store.view_value st' v
      = let me := Store.player_value st m in
        let opponent := Store.player_value st o in
        let '(opponent_units, opponent_walls, opponent_reachable, trenches) :=
          if GamePreferences.is_visibility_applied (Store.preferences st)
             && Player.can_win me && Player.can_win opponent
          then
            let opponent_units := Player.units opponent ∩ Player.visible_opponent me in
            let opponent_walls := Player.walls opponent ∩ Player.visible_opponent me in
            let trenches := Store.trenches st ∩ Player.visible_terrain me in
            let visible_opponent := Player.of_units_walls opponent_units opponent_walls in
            let visible_opponent :=
              _rebuild_reachable_set get_adjacent_cells (Store.preferences st)
                (Store.trenches st) visible_opponent me in
            (opponent_units, opponent_walls, Player.reachable visible_opponent, trenches)
          else
            (Player.units opponent, Player.walls opponent, Player.reachable opponent,
             Store.trenches st) in
        GameView.mk (Store.id st) (Store.turns_left st)
          (bool_decide (me = Store.player_value st a))
          (player_view me (Player.units me) (Player.walls me) (Player.reachable me))
          (player_view opponent opponent_units opponent_walls opponent_reachable)
          trenches (Store.preferences st).
Proof.
  intros Hm Ho Ha Hme Hopp Hact Hbm Hbo Hba.
  pose proof Hbm as (Hmu & Hmw & Hmr & Hmvo & Hmvt).
  pose proof Hbo as (Hou & How & Hor & Hovo & Hovt).
  unfold Store.view_of. rewrite Hm, Ho. cbn [mbind option_bind]. cbv zeta.
  change (Player.can_win (Store.player_value st m)) with (Store.PlayerObj.can_win m).
  change (Player.can_win (Store.player_value st o)) with (Store.PlayerObj.can_win o).
  destruct (GamePreferences.is_visibility_applied (Store.preferences st)
            && Store.PlayerObj.can_win m && Store.PlayerObj.can_win o).
  - set (n := Store.next st) in *.
    set (st1 := Store.new_set _ st).
    set (st2 := Store.new_set _ st1).
    change (Store.next st1) with (S n). change (Store.next st2) with (S (S n)).
    set (st3 := Store.new_player n (S n) st2).
    destruct (new_player_objects n (S n) st2)
      as (Htp & Hpl3 & Hsets3 & Hc1 & Hc2 & Hc3 & Hn3).
    fold st3 in Htp, Hpl3, Hsets3, Hc1, Hc2, Hc3, Hn3.
    change (Store.next st2) with (S (S n)) in Htp, Hpl3, Hsets3, Hc1, Hc2, Hc3, Hn3.
    set (tp := Store.PlayerObj.mk "" n (S n) (S (S (S n))) (S (S (S (S n))))
                 (S (S (S (S (S n))))) ∅ false false) in *.
    assert (Store.players st3 !! me = Some m) as Hm3.
    { rewrite Hpl3 by lia. exact Hm. }
    assert (Store.separated tp m) as Hsep.
    { apply separated_intro; cbn; [lia..|].
      intros l Hl. unfold Store.read in Hl. cbn in Hl.
      rewrite !elem_of_cons, elem_of_nil in Hl.
      destruct Hl as [->|[->|[->|[->|[]]]]]; lia. }
    assert (∀ l, l ∈ Store.written tp → l ∉ Store.held m) as Hapart.
    { intros l Hl. unfold Store.written in Hl. unfold Store.held. cbn in Hl.
      rewrite !elem_of_cons, elem_of_nil in Hl.
      rewrite !not_elem_of_cons.
      destruct Hl as [->|[->|[->|[]]]]; split_and!; (lia || apply not_elem_of_nil). }
    destruct (_rebuild_reachable_set_objects st3 (S (S n)) me tp m Htp Hm3)
      as (st4 & tp' & Hreb & Htp' & Hreach & Hpv & Hsets4 & Hpl4 & Hn4 & Hid & Hprefs
          & Htl & Hact4 & Hpas4 & Htr); [lia|done|done| | |].
    { rewrite Hn3. unfold Store.refers_below. cbn. lia. }
    { rewrite Hn3. unfold Store.refers_below. lia. }
    rewrite Hreb. cbn [mbind option_bind]. rewrite Htp'. cbn [mbind option_bind].
    rewrite (Hpl4 me), Hm3 by lia. cbn [mbind option_bind].
    rewrite (Hpl4 opponent), (Hpl3 opponent), Hact4 by lia.
    change (Store.players st2) with (Store.players st).
    change (Store.active_player st3) with (Store.active_player st).
    rewrite Ho. cbn [mbind option_bind].
    rewrite (Hpl4 (Store.active_player st)), (Hpl3 (Store.active_player st)) by lia.
    change (Store.players st2) with (Store.players st).
    rewrite Ha. cbn [mbind option_bind].
    assert (Store.unchanged st st4) as Hun.
    { split_and!.
      - intros l Hl. rewrite Hsets4, Hsets3; [| lia | lia |].
        + subst st2 st1. cbn [Store.sets Store.new_set Store.next].
          fold n. rewrite !lookup_insert_ne by lia. done.
        + unfold Store.written. cbn. rewrite !not_elem_of_cons.
          split_and!; (lia || apply not_elem_of_nil).
      - intros l Hl. by rewrite Hpl4, Hpl3 by lia.
      - lia.
      - by rewrite Hid.
      - by rewrite Hprefs.
      - by rewrite Htl.
      - by rewrite Hact4.
      - by rewrite Hpas4.
      - by rewrite Htr. }
    eexists _, _. split; [reflexivity|]. split; [exact Hun|]. split.
    { cbn. rewrite Hreach. cbn. lia. }
    assert (∀ l, (l < n)%nat → Store.contents st2 l = Store.contents st l) as Hst2.
    { intros l Hl. subst st2 st1.
      rewrite !contents_new_set_ne; [done|fold n; lia|].
      cbn [Store.next Store.new_set]. fold n. lia. }
    assert (∀ l, (l < S (S n))%nat → Store.contents st3 l = Store.contents st2 l)
      as Hst3.
    { intros l Hl. apply contents_eq. by apply Hsets3. }
    assert (Store.contents st2 n
            = Player.units (Store.player_value st o)
              ∩ Player.visible_opponent (Store.player_value st m)) as Hunits.
    { subst st2.
      rewrite contents_new_set_ne by (change (Store.next st1) with (S n); lia).
      subst st1. apply contents_new_set_eq. }
    assert (Store.contents st2 (S n)
            = Player.walls (Store.player_value st o)
              ∩ Player.visible_opponent (Store.player_value st m)) as Hwalls.
    { subst st2. change (S n) with (Store.next st1).
      rewrite contents_new_set_eq. subst st1.
      by rewrite !contents_new_set_ne by (fold n; lia). }
    assert (Store.player_value st3 tp
            = Player.of_units_walls
                (Player.units (Store.player_value st o)
                 ∩ Player.visible_opponent (Store.player_value st m))
                (Player.walls (Store.player_value st o)
                 ∩ Player.visible_opponent (Store.player_value st m))) as Htpv.
    { unfold Store.player_value, Player.of_units_walls. subst tp.
      cbn [Store.PlayerObj.id Store.PlayerObj.units Store.PlayerObj.walls
           Store.PlayerObj.reachable Store.PlayerObj.visible_opponent
           Store.PlayerObj.visible_terrain Store.PlayerObj.view_data
           Store.PlayerObj.is_gone Store.PlayerObj.is_defeated].
      rewrite Hc1, Hc2, Hc3, !Hst3 by lia. by rewrite Hunits, Hwalls. }
    assert (Store.player_value st3 m = Store.player_value st m) as Hmv.
    { unfold Store.player_value. by rewrite !Hst3, !Hst2 by lia. }
    assert (Store.contents st4 (Store.PlayerObj.reachable tp')
            = Player.reachable (Store.player_value st4 tp')) as Hshown by reflexivity.
    rewrite Hpv, Htpv, Hmv in Hshown.
    change (Store.preferences st3) with (Store.preferences st) in Hshown.
    change (Store.trenches st3) with (Store.trenches st) in Hshown.
    unfold Store.view_value, Store.player_view_value, player_view.
    cbn [Store.GameViewObj.id Store.GameViewObj.turns_left Store.GameViewObj.my_turn
         Store.GameViewObj.me Store.GameViewObj.opponent Store.GameViewObj.trenches
         Store.GameViewObj.preferences Store.PlayerViewObj.units
         Store.PlayerViewObj.walls Store.PlayerViewObj.reachable
         Store.PlayerViewObj.view_data Store.PlayerViewObj.is_gone
         Store.PlayerViewObj.is_defeated].
    rewrite Hshown.
    rewrite (unchanged_player_value st st4 m Hun Hbm),
      (unchanged_player_value st st4 a Hun Hba).
    rewrite !(unchanged_contents st st4 _ Hun) by done.
    assert (∀ l, (l < S (S n))%nat → Store.contents st4 l = Store.contents st3 l)
      as Hst4.
    { intros l Hl. apply contents_eq. apply Hsets4; [lia|].
      unfold Store.written. cbn. rewrite !not_elem_of_cons.
      split_and!; (lia || apply not_elem_of_nil). }
    rewrite !Hst4, !Hst3, Hunits, Hwalls, Hst2 by lia.
    rewrite Hid, Htl, Hprefs. reflexivity.
  - cbn [mbind option_bind]. rewrite Hm, Ho, Ha. cbn [mbind option_bind].
    eexists _, _. split; [reflexivity|]. by split_and!.
Qed.

(** [get_view] on objects returns what [get_view] returns on the game the
    store stands for, and every object that was there is as it was. *)
Lemma get_view_objects st (player_id : string) (g : Game.t) :
  Store.well_formed st → Store.game_value st = Some g →
  ∃ out st',
    Store.get_view get_adjacent_cells st player_id = Some (out, st')
    ∧ Store.unchanged st st'
    ∧ Store.view_below (Store.next st') out
    ∧ Store.outcome_value st' out = (get_view get_adjacent_cells g player_id).1.
Proof.
  intros (a & pa & Ha & Hpa & Hal & Hpl & Hba & Hbp). unfold Store.game_value.
  rewrite Ha, Hpa. cbn [mbind option_bind]. intros [= <-].
  unfold Store.get_view, get_view. rewrite Ha, Hpa. cbn [mbind option_bind].
  cbn [Game.id Game.preferences Game.turns_left Game.active_player
       Game.passive_player Game.trenches].
  change (Player.id (Store.player_value st a)) with (Store.PlayerObj.id a).
  change (Player.id (Store.player_value st pa)) with (Store.PlayerObj.id pa).
  destruct (decide (player_id = Store.PlayerObj.id a
                    ∨ player_id = Store.PlayerObj.id pa)) as [Hid|Hid].
  - destruct (decide (player_id = Store.PlayerObj.id a)) as [Hact|Hact].
    + destruct (view_of_objects st (Store.active_player st)
                  (Store.passive_player st) a pa a Ha Hpa Ha Hal Hpl Hal Hba Hbp Hba)
        as (v & st' & Hv & Hun & Hbelow & Hval).
      exists (Return v), st'. split_and!; [done..|].
      cbn [Store.outcome_value fst]. rewrite Hval. cbv zeta.
      by destruct (GamePreferences.is_visibility_applied _ && _ && _).
    + destruct (view_of_objects st (Store.passive_player st)
                  (Store.active_player st) pa a a Hpa Ha Ha Hpl Hal Hal Hbp Hba Hba)
        as (v & st' & Hv & Hun & Hbelow & Hval).
      exists (Return v), st'. split_and!; [done..|].
      cbn [Store.outcome_value fst]. rewrite Hval. cbv zeta.
      by destruct (GamePreferences.is_visibility_applied _ && _ && _).
  - exists (Raise AssertionError), st. by split_and!.
Qed.

Lemma well_formed_unchanged st st' :
  Store.well_formed st → Store.unchanged st st' →
  Store.well_formed st' ∧ Store.game_value st' = Store.game_value st.
Proof.
  intros (a & pa & Ha & Hpa & Hal & Hpl & Hba & Hbp) Hun.
  pose proof Hun as (Hsets & Hplayers & Hnext & Hid & Hprefs & Htl & Hact & Hpas & Htr).
  split.
  - exists a, pa. rewrite Hact, Hpas, !Hplayers by done.
    unfold Store.refers_below in *. split_and!; (done || lia).
  - unfold Store.game_value. rewrite Hact, Hpas, !Hplayers, Ha, Hpa by done.
    cbn [mbind option_bind].
    rewrite (unchanged_player_value st st' a Hun Hba),
      (unchanged_player_value st st' pa Hun Hbp).
    by rewrite Hid, Hprefs, Htl, Htr.
Qed.

Lemma unchanged_trans st1 st2 st3 :
  Store.unchanged st1 st2 → Store.unchanged st2 st3 → Store.unchanged st1 st3.
Proof.
  intros (Hs & Hp & Hn & ? & ? & ? & ? & ? & ?) (Hs' & Hp' & Hn' & ? & ? & ? & ? & ? & ?).
  split_and!; try congruence.
  - intros l Hl. rewrite Hs' by lia. by apply Hs.
  - intros l Hl. rewrite Hp' by lia. by apply Hp.
  - lia.
Qed.

Lemma outcome_value_unchanged st st' (out : Outcome Store.GameViewObj.t) :
  Store.view_below (Store.next st) out → Store.unchanged st st' →
  Store.outcome_value st' out = Store.outcome_value st out.
Proof.
  destruct out as [v|e]; [|done]. intros (? & ? & ? & ? & ? & ?) Hun.
  unfold Store.outcome_value, Store.view_value, Store.player_view_value.
  by rewrite !(unchanged_contents st st' _ Hun) by done.
Qed.

(** C8: [get_view] changes no object that exists when it is called, neither
    a set nor a player of the game nor a field of the game itself, whichever
    of the game's references point to the same object; the game stands for
    the same players, turns and trenches after the call as before; and a
    second call with the same [player_id] returns a view equal to the first,
    with or without fog of war. *)
Theorem get_view_writes_no_object_of_the_game_and_repeats
    (st : Store.t) (player_id : string) :
  Store.well_formed st →
  ∃ g view st1 view' st2,
    Store.game_value st = Some g
    ∧ Store.get_view get_adjacent_cells st player_id = Some (view, st1)
    ∧ Store.get_view get_adjacent_cells st1 player_id = Some (view', st2)
    ∧ Store.unchanged st st1 ∧ Store.unchanged st st2
    ∧ Store.game_value st1 = Some g ∧ Store.game_value st2 = Some g
    ∧ Store.outcome_value st2 view' = Store.outcome_value st2 view
    ∧ Store.outcome_value st1 view = (get_view get_adjacent_cells g player_id).1.
Proof.
  intros Hwf.
  assert (∃ g, Store.game_value st = Some g) as [g Hg].
  { destruct Hwf as (a & pa & Ha & Hpa & _). unfold Store.game_value.
    rewrite Ha, Hpa. by eexists. }
  destruct (get_view_objects st player_id g Hwf Hg)
    as (view & st1 & Hview & Hun1 & Hbelow1 & Hval1).
  destruct (well_formed_unchanged st st1 Hwf Hun1) as [Hwf1 Hg1].
  rewrite Hg in Hg1.
  destruct (get_view_objects st1 player_id g Hwf1 Hg1)
    as (view' & st2 & Hview' & Hun2 & Hbelow2 & Hval2).
  destruct (well_formed_unchanged st1 st2 Hwf1 Hun2) as [_ Hg2].
  rewrite Hg1 in Hg2.
  exists g, view, st1, view', st2. split_and!; try done.
  - by eapply unchanged_trans.
  - by rewrite Hval2, (outcome_value_unchanged st1 st2 view Hbelow1 Hun2).
Qed.
End Objects.

(** On the 3x3 fogged board after the first move, [get_view] for the first
    player makes eight objects of its own and fills them: the set the view
    shows as the opponent's reachable cells is one of them. *)
Example get_view_under_fog_fills_objects_of_its_own :
  ∃ view st1,
    Store.get_view square_adjacent_cells (Store.of_game after_fog_move) "a"
    = Some (Return view, st1)
    ∧ Store.next (Store.of_game after_fog_move) = 12%nat
    ∧ Store.next st1 = 20%nat
    ∧ Store.PlayerViewObj.units (Store.GameViewObj.opponent view) = 12%nat
    ∧ Store.contents st1 12 = {[(3, 3)]}
    ∧ Store.PlayerViewObj.reachable (Store.GameViewObj.opponent view) = 15%nat
    ∧ Store.contents st1 15 = {[(2, 2); (2, 3); (3, 2)]}.
Proof. eexists _, _. split_and!; vm_compute; reflexivity. Qed.

(** The same rebuild made on a player of the game is not read-only: under
    fog it binds the player's [visible_opponent] to a new set. *)
Example rebuild_of_a_player_of_the_game_rebinds_its_field :
  ∃ st1,
    Store._rebuild_reachable_set square_adjacent_cells
      (Store.of_game after_fog_move) 11 10 = Some st1
    ∧ Store.PlayerObj.visible_opponent <$> Store.players (Store.of_game after_fog_move) !! 11%nat
      = Some 8%nat
    ∧ Store.PlayerObj.visible_opponent <$> Store.players st1 !! 11%nat = Some 13%nat.
Proof. eexists. split_and!; vm_compute; reflexivity. Qed.

Lemma get_view_twice_on_the_small_fogged_board :
  Store.well_formed (Store.of_game after_fog_move)
  ∧ ∃ g view st1 view' st2,
      Store.game_value (Store.of_game after_fog_move) = Some g
      ∧ Store.get_view square_adjacent_cells (Store.of_game after_fog_move) "a"
        = Some (view, st1)
      ∧ Store.get_view square_adjacent_cells st1 "a" = Some (view', st2)
      ∧ Store.unchanged (Store.of_game after_fog_move) st1
      ∧ Store.unchanged (Store.of_game after_fog_move) st2
      ∧ Store.game_value st1 = Some g ∧ Store.game_value st2 = Some g
      ∧ Store.outcome_value st2 view' = Store.outcome_value st2 view
      ∧ Store.outcome_value st1 view
        = (get_view square_adjacent_cells g "a").1.
Proof.
  assert (Store.well_formed (Store.of_game after_fog_move)) as Hwf.
  { eexists _, _. split_and!; [reflexivity|reflexivity|..];
      unfold Store.refers_below; cbn; lia. }
  split; [exact Hwf|].
  apply (get_view_writes_no_object_of_the_game_and_repeats square_adjacent_cells
           (Store.of_game after_fog_move) "a" Hwf).
Defined.
